(** * The MCTS search engine of [mtcs_v2.py]

    A shallow embedding of the classes [Node] and [MCTS_v2] and the
    properties of the search engine that the specification states.

    Modelling conventions.
    - Python objects of class [Node] live in an arena ([list Node]); a
      reference to a node is its index.  [add_child] allocates at the end of
      the arena, so references stay valid and aliasing is preserved: every
      method that mutates a node rewrites its slot.
    - Python floats ([score], [Q], rewards, the sample success rate) are
      idealised as exact rationals ([Q]); the UCB1 priority, which needs a
      logarithm and a square root, is a real number extended with [+inf].
    - A Python exception is a value [Raise e] of the [result] monad.
    - The LLM, the retrieval index, the worker and the evaluator of
      [solution.py] are collaborators outside this file: they are the fields
      of an environment [Env], each indexed by the number of collaborator
      calls made so far, so that successive calls may answer differently.
    - Loops over parent links take fuel; with the arena's size as fuel they
      never run out on a well-formed tree (proved below). *)

From Stdlib Require Import QArith Qminmax Reals Qreals Lra Lia String Ascii.
From stdpp Require Import base option list strings.

Local Open Scope string_scope.
Local Open Scope list_scope.
Local Open Scope nat_scope.

(** ** Exceptions *)

Inductive exn : Type :=
| TypeError       (* [str + None], [len(None)] *)
| ValueError      (* [math.log(0)], [max([])] *)
| AttributeError  (* [None.visits] *)
| Diverges        (* a walk over parent links that does not end *)
| Dangling.       (* an index outside the arena: no Python counterpart *)

Inductive result (A : Type) : Type :=
| Ok (a : A)
| Raise (e : exn).
Arguments Ok {A} a.
Arguments Raise {A} e.

#[global] Instance result_ret : MRet result := @Ok.
#[global] Instance result_bind : MBind result :=
  fun A B f r => match r with Ok a => f a | Raise e => Raise e end.

Definition of_option {A} (e : exn) (o : option A) : result A :=
  match o with Some a => Ok a | None => Raise e end.

(** ** Numbers *)

Definition Qsum (l : list Q) : Q := fold_left Qplus l 0%Q.

(** [np.mean]: the sum over the number of samples.  Floats are exact
    rationals here: the rounding of the sum and of the division is left out. *)
Definition np_mean (l : list Q) : Q :=
  (Qsum l / inject_Z (Z.of_nat (length l)))%Q.

(** [np.min]; [add_reward] only calls it after an append, on a list that is
    not empty (numpy raises on an empty one; the model answers 0). *)
Definition np_min (l : list Q) : Q :=
  match l with
  | [] => 0%Q
  | x :: xs => fold_left Qmin xs x
  end.

(** ** class Node *)

Record Node : Type := mkNode {
  state : option string;       (* the candidate text; [None] for the first root *)
  parent : option nat;         (* reference to the parent node *)
  children : list nat;         (* references to the child nodes *)
  visits : nat;
  score : Q;
  evaluation : option string;  (* [None] until simulated *)
  reward_samples : list Q;
  Qval : Q;                    (* the field [Q] *)
  depth : nat
}.

(** [Node.__init__(state, parent=None, evaluation=None, depth=0)] *)
Definition Node_init (st : option string) (par : option nat)
    (ev : option string) (d : nat) : Node :=
  {| state := st; parent := par; children := []; visits := 0; score := 0%Q;
     evaluation := ev; reward_samples := []; Qval := 0%Q; depth := d |}.

Definition set_children (cs : list nat) (n : Node) : Node :=
  {| state := state n; parent := parent n; children := cs;
     visits := visits n; score := score n; evaluation := evaluation n;
     reward_samples := reward_samples n; Qval := Qval n; depth := depth n |}.

Definition set_parent (p : option nat) (n : Node) : Node :=
  {| state := state n; parent := p; children := children n;
     visits := visits n; score := score n; evaluation := evaluation n;
     reward_samples := reward_samples n; Qval := Qval n; depth := depth n |}.

Definition set_evaluation (ev : option string) (n : Node) : Node :=
  {| state := state n; parent := parent n; children := children n;
     visits := visits n; score := score n; evaluation := ev;
     reward_samples := reward_samples n; Qval := Qval n; depth := depth n |}.

(** The two assignments of [update_score] on [self]. *)
Definition bump_score (value : Q) (n : Node) : Node :=
  {| state := state n; parent := parent n; children := children n;
     visits := visits n + 1; score := (score n + value)%Q;
     evaluation := evaluation n; reward_samples := reward_samples n;
     Qval := Qval n; depth := depth n |}.

(** [Node.add_reward]: it touches [self] only. *)
Definition add_reward (reward : Q) (n : Node) : Node :=
  let samples := reward_samples n ++ [reward] in
  let avg_reward := np_mean samples in
  let min_reward := np_min samples in
  {| state := state n; parent := parent n; children := children n;
     visits := visits n; score := score n; evaluation := evaluation n;
     reward_samples := samples;
     Qval := ((avg_reward + min_reward) / 2)%Q; depth := depth n |}.

(** ** The arena *)

Abbreviation heap := (list Node) (only parsing).

Definition get (h : heap) (i : nat) : result Node := of_option Dangling (h !! i).

(** [Node.add_child]: the new node is allocated at the end of the arena and
    its reference is appended to [self.children]. *)
Definition add_child (h : heap) (self : nat) (child_state : string)
    : result (heap * nat) :=
  n ← get h self;
  let child := length h in
  let h1 := h ++ [Node_init (Some child_state) (Some self) None (depth n + 1)] in
  Ok (alter (fun s => set_children (children s ++ [child]) s) self h1, child).

(** [Node.update_score]: recursion along the parent links. *)
Fixpoint update_score_rec (fuel : nat) (h : heap) (self : nat) (value : Q)
    : result heap :=
  match fuel with
  | 0 => Raise Diverges
  | S fuel' =>
      n ← get h self;
      let h' := alter (bump_score value) self h in
      match parent n with
      | Some p => update_score_rec fuel' h' p value
      | None => Ok h'
      end
  end.

Definition update_score (h : heap) (self : nat) (value : Q) : result heap :=
  update_score_rec (length h) h self value.

(** [MCTS_v2.backpropagate]: [while node is not None]. *)
Fixpoint backpropagate_loop (fuel : nat) (h : heap) (node : option nat)
    (reward : Q) : result heap :=
  match node with
  | None => Ok h
  | Some i =>
      match fuel with
      | 0 => Raise Diverges
      | S fuel' =>
          n ← get h i;
          backpropagate_loop fuel' (alter (add_reward reward) i h) (parent n) reward
      end
  end.

Definition backpropagate (h : heap) (node : nat) (reward : Q) : result heap :=
  backpropagate_loop (length h) h (Some node) reward.

(** ** Strings and chat messages *)

Definition nl : string := String (ascii_of_nat 10) "".

(** The characters [str.strip] removes, within ASCII. *)
Definition is_space (c : ascii) : bool :=
  let k := nat_of_ascii c in
  (k =? 32) || ((9 <=? k) && (k <=? 13)) || ((28 <=? k) && (k <=? 31)).

Fixpoint lstrip (s : string) : string :=
  match s with
  | EmptyString => EmptyString
  | String c s' => if is_space c then lstrip s' else s
  end.

Fixpoint rstrip (s : string) : string :=
  match s with
  | EmptyString => EmptyString
  | String c s' =>
      match rstrip s' with
      | EmptyString => if is_space c then EmptyString else String c EmptyString
      | r => String c r
      end
  end.

Definition strip (s : string) : string := rstrip (lstrip s).

(** [str(x)] of an optional string, as an f-string prints it. *)
Definition py_str (o : option string) : string :=
  match o with Some s => s | None => "None" end.

Record message : Type := mkMessage { role : string; content : string }.

(** [MCTS_v2.summarize_evaluation] *)
Definition summarize_evaluation (evaluation_text : string) : string :=
  let max_length := 100 in
  if max_length <? String.length evaluation_text then
    substring 0 max_length evaluation_text +:+ "..."
      +:+ substring (String.length evaluation_text - max_length) max_length
           evaluation_text
  else evaluation_text.

(** ** Collaborators *)

(** What [simulate] reads of a [Solution] after [s.eval()]. *)
Record Outcome : Type := mkOutcome {
  testreport_message : string;     (* [testreport.message] *)
  success_rate_number : Q;         (* [testreport.success_rate_number] *)
  fullreport_str : string;         (* [str(fullreport)] *)
  fullreport_status : string;      (* [fullreport.status] *)
  to_submit_signal : bool          (* [s.to_submit_signal] *)
}.

(** The first argument of every collaborator is the number of collaborator
    calls made before it. *)
Record Env : Type := mkEnv {
  problem_description : string;
  (* [llm.mcts_openai_messages(messages, ...).choices[i].message.content] *)
  mcts_openai_messages : nat -> list message -> nat -> string;
  (* [str(rg.retrieve(query, similarity_top_k=2))] *)
  rag_retrieve : nat -> string -> string;
  (* [self.worker(assistant_output)] *)
  worker : nat -> string -> string;
  (* [Solution(code, ...)] after [eval()] *)
  solution_eval : nat -> string -> Outcome
}.

(** ** class MCTS_v2 *)

Record MCTS : Type := mkMCTS {
  nodes : heap;
  root : nat;
  depth_limit : nat;
  sm : list string;       (* the codes registered by [sm.add_solution] *)
  calls : nat             (* collaborator calls made so far *)
}.

Definition default_depth_limit : nat := 5.
Definition default_max_steps : nat := 10.

(** [MCTS_v2.__init__] *)
Definition MCTS_init (limit : nat) : MCTS :=
  {| nodes := [Node_init None None None 0]; root := 0; depth_limit := limit;
     sm := []; calls := 0 |}.

Definition with_nodes (h : heap) (m : MCTS) : MCTS :=
  {| nodes := h; root := root m; depth_limit := depth_limit m; sm := sm m;
     calls := calls m |}.

Definition tick (k : nat) (m : MCTS) : MCTS :=
  {| nodes := nodes m; root := root m; depth_limit := depth_limit m;
     sm := sm m; calls := calls m + k |}.

(** *** UCB1 and selection *)

(** A float that may be [float('inf')]. *)
Inductive xreal : Type :=
| PInf
| Fin (r : R).

(** [a > b] on such floats. *)
Definition xgt (a b : xreal) : bool :=
  match a, b with
  | _, PInf => false
  | PInf, Fin _ => true
  | Fin x, Fin y => if Rlt_dec y x then true else false
  end.

Definition exploration_weight : R := 1.4%R.
Definition epsilon : R := 0.01%R.

(** [MCTS_v2.ucb1]: [node.parent.visits] of a root raises AttributeError,
    [math.log(0)] raises ValueError. *)
Definition ucb1 (h : heap) (node : nat) : result xreal :=
  n ← get h node;
  if visits n =? 0 then Ok PInf
  else
    p ← of_option AttributeError (parent n);
    pn ← get h p;
    if visits pn =? 0 then Raise ValueError
    else Ok (Fin (Q2R (Qval n) / INR (visits n)
                  + exploration_weight
                    * sqrt (ln (INR (visits pn)) / (INR (visits n) + epsilon)))).

(** [max(items, key=ucb1)] after its first item: a later item replaces the
    best one only when its key is strictly greater. *)
Fixpoint max_by_ucb1 (h : heap) (best : nat) (best_key : xreal)
    (rest : list nat) : result nat :=
  match rest with
  | [] => Ok best
  | c :: rest' =>
      k ← ucb1 h c;
      if xgt k best_key then max_by_ucb1 h c k rest'
      else max_by_ucb1 h best best_key rest'
  end.

(** [MCTS_v2.select] *)
Definition select (h : heap) (node : nat) : result nat :=
  n ← get h node;
  match children n with
  | [] => Raise ValueError
  | c :: rest => k ← ucb1 h c; max_by_ucb1 h c k rest
  end.

(** *** Expansion *)

(** The [while current_node.parent is not None] loop of
    [build_prompt_with_feedback]; [len(None)] and [str + None] raise
    TypeError. *)
Fixpoint history_loop (fuel : nat) (h : heap) (current_node : nat)
    (conversation_history : list message) : result (list message) :=
  n ← get h current_node;
  match parent n with
  | None => Ok conversation_history
  | Some p =>
      match fuel with
      | 0 => Raise Diverges
      | S fuel' =>
          st ← of_option TypeError (state n);
          let summarized_state := summarize_evaluation st in
          ev ← of_option TypeError (evaluation n);
          history_loop fuel' h p
            (conversation_history
               ++ [mkMessage "assistant" (summarized_state +:+ ev)])
      end
  end.

Definition closing_message : message :=
  mkMessage "user"
    "You never agree with the above solutions, and provide the TRULY correct and NO-TIMEOUT solution.".

(** [MCTS_v2.build_prompt_with_feedback] *)
Definition build_prompt_with_feedback (E : Env) (h : heap) (node : nat)
    : result (list message) :=
  let prompt := "## Problem: " +:+ problem_description E in
  conversation_history ← history_loop (length h) h node [];
  let conversation_history := rev conversation_history in
  Ok ([mkMessage "user" prompt] ++ conversation_history ++ [closing_message]).

(** The [for i in range(n)] loop of [expand]. *)
Fixpoint expand_loop (h : heap) (node : nat) (choices : nat -> string)
    (range : list nat) : result heap :=
  match range with
  | [] => Ok h
  | i :: range' =>
      let out := strip (choices i) in
      '(h1, child_node) ← add_child h node out;
      let h2 := alter (set_parent (Some node)) child_node h1 in
      expand_loop h2 node choices range'
  end.

(** [MCTS_v2.expand] *)
Definition expand (E : Env) (m : MCTS) (node : nat) : result MCTS :=
  n ← get (nodes m) node;
  if depth_limit m <=? depth n then Ok m
  else
    messages ← build_prompt_with_feedback E (nodes m) node;
    let n_children := 2 in
    let response := mcts_openai_messages E (calls m) messages in
    h ← expand_loop (nodes m) node response (seq 0 n_children);
    Ok (tick 1 (with_nodes h m)).

(** *** Simulation *)

(** The reward of lines 138-149 of [simulate]. *)
Definition simulate_score (s : Outcome) : Q :=
  if Qeq_bool (success_rate_number s) 1.0 then
    if String.eqb (fullreport_status s) "timeout" then (-0.2)%Q else 1.0%Q
  else
    if String.eqb (fullreport_status s) "timeout" then (-0.2)%Q
    else success_rate_number s.

(** The text [simulate] leaves in [node.evaluation]. *)
Definition simulate_evaluation (s : Outcome) : string :=
  if Qeq_bool (success_rate_number s) 1.0
     && String.eqb (fullreport_status s) "timeout"
  then "The solution is correct but the algorithm TIMEOUT!!!! Try a faster solution@!!!!"
  else "Sample test results: " +:+ testreport_message s +:+ nl
         +:+ "The full test cases: " +:+ fullreport_str s.

(** [MCTS_v2.simulate] *)
Definition simulate (E : Env) (m : MCTS) (node : nat) : result (MCTS * bool) :=
  n ← get (nodes m) node;
  let out := state n in
  let code := worker E (calls m) (py_str out) in
  let s := solution_eval E (calls m + 1) code in
  let h1 := alter (set_evaluation (Some (simulate_evaluation s))) node (nodes m) in
  let score := simulate_score s in
  h2 ← backpropagate h1 node score;
  Ok ({| nodes := h2; root := root m; depth_limit := depth_limit m;
         sm := sm m ++ [code]; calls := calls m + 2 |},
      to_submit_signal s).

(** *** The search loop *)

(** [MCTS_v2.zero_shot_initialization]: [self.root] becomes a fresh node; the
    nodes of the former root are unreachable from then on and leave the
    arena. *)
Definition zero_shot_initialization (E : Env) (m : MCTS) : MCTS :=
  let prompt := "Problem: " +:+ problem_description E +:+ nl +:+ "Generate a solution." in
  let initial_solution := mcts_openai_messages E (calls m) [mkMessage "user" prompt] 0 in
  let b := rag_retrieve E (calls m + 1) initial_solution in
  let prompt := "Problem: " +:+ problem_description E +:+ nl
                +:+ " Some reference may useful from competitive coding handbook: "
                +:+ b +:+ ". Refine the solution." in
  let initial_solution1 := mcts_openai_messages E (calls m + 2) [mkMessage "user" prompt] 0 in
  {| nodes := [Node_init (Some initial_solution1) None None 0]; root := 0;
     depth_limit := depth_limit m; sm := sm m; calls := calls m + 3 |}.

(** [while current_node.children: current_node = self.select(current_node)] *)
Fixpoint descend (fuel : nat) (h : heap) (current_node : nat) : result nat :=
  n ← get h current_node;
  match children n with
  | [] => Ok current_node
  | _ :: _ =>
      match fuel with
      | 0 => Raise Diverges
      | S fuel' => c ← select h current_node; descend fuel' h c
      end
  end.

(** [for child in current_node.children]: the first child whose simulation
    raises the submit signal is returned at once. *)
Fixpoint simulate_children (E : Env) (m : MCTS) (cs : list nat)
    : result (MCTS * option nat) :=
  match cs with
  | [] => Ok (m, None)
  | child :: cs' =>
      '(m', to_submit) ← simulate E m child;
      if to_submit : bool then Ok (m', Some child)
      else simulate_children E m' cs'
  end.

(** The [while step < max_steps] loop, with [remaining = max_steps - step].
    The answer is the final engine, the returned node ([None] for Python's
    [None]) and the value of [step] at the return. *)
Fixpoint mcts_loop (E : Env) (remaining step : nat) (m : MCTS)
    (current_node : nat) : result (MCTS * option nat * nat) :=
  match remaining with
  | 0 => Ok (m, None, step)
  | S remaining' =>
      leaf ← descend (length (nodes m)) (nodes m) current_node;
      m1 ← expand E m leaf;
      n ← get (nodes m1) leaf;
      '(m2, found) ← simulate_children E m1 (children n);
      match found with
      | Some child => Ok (m2, Some child, step)
      | None => mcts_loop E remaining' (S step) m2 leaf
      end
  end.

(** [MCTS_v2.mcts_trial] *)
Definition mcts_trial (E : Env) (m : MCTS) (max_steps : nat)
    : result (MCTS * option nat * nat) :=
  let m0 := zero_shot_initialization E m in
  mcts_loop E max_steps 0 m0 (root m0).

(** A concrete environment to evaluate the engine on. *)
Definition failing_outcome : Outcome :=
  {| testreport_message := "wrong answer"; success_rate_number := 0.0%Q;
     fullreport_str := "failed"; fullreport_status := "other-failure";
     to_submit_signal := false |}.

Definition failing_env : Env :=
  {| problem_description := "P";
     mcts_openai_messages := fun _ _ _ => " candidate ";
     rag_retrieve := fun _ _ => "ref";
     worker := fun _ _ => "code";
     solution_eval := fun _ _ => failing_outcome |}.

(** * Verification *)

(** ** The result monad *)

Lemma bind_Ok {A B} (f : A -> result B) (a : A) : (Ok a ≫= f) = f a.
Proof. reflexivity. Qed.

Lemma bind_Raise {A B} (f : A -> result B) (e : exn) : (Raise e ≫= f) = Raise e.
Proof. reflexivity. Qed.

Lemma bind_Ok_inv {A B} (f : A -> result B) (r : result A) (b : B) :
  (r ≫= f) = Ok b -> exists a, r = Ok a /\ f a = Ok b.
Proof. destruct r as [a|e]; [eauto | discriminate]. Qed.

Lemma get_Ok (h : heap) (i : nat) (n : Node) : get h i = Ok n <-> h !! i = Some n.
Proof. unfold get. destruct (h !! i); simpl; split; congruence. Qed.

Lemma get_lt (h : heap) (i : nat) : i < length h -> exists n, get h i = Ok n.
Proof.
  intros Hi. destruct (lookup_lt_is_Some_2 h i Hi) as [n Hn].
  exists n. by apply get_Ok.
Qed.

(** ** Walks over the parent links *)

(** The nodes from [i] up to the root, [i] first. *)
Fixpoint path_from (fuel : nat) (h : heap) (i : nat) : list nat :=
  match fuel with
  | 0 => []
  | S fuel' =>
      match h !! i with
      | None => []
      | Some n =>
          i :: match parent n with
               | Some p => path_from fuel' h p
               | None => []
               end
      end
  end.

Definition path (h : heap) (i : nat) : list nat := path_from (S i) h i.

(** Every parent was allocated before its child. *)
Definition links_wf (h : heap) : Prop :=
  forall i n p, h !! i = Some n -> parent n = Some p -> p < i.

(** [depth] counts the ancestors. *)
Definition depth_wf (h : heap) : Prop :=
  forall i n, h !! i = Some n ->
    match parent n with
    | None => depth n = 0
    | Some p => exists pn, h !! p = Some pn /\ depth n = depth pn + 1
    end.

Definition alter_all (f : Node -> Node) (js : list nat) (h : heap) : heap :=
  fold_left (fun h' j => alter f j h') js h.

Lemma path_from_irrel (h : heap) (f1 f2 i : nat) :
  links_wf h -> i < f1 -> i < f2 -> path_from f1 h i = path_from f2 h i.
Proof.
  intros Hwf. revert f2 i.
  induction f1 as [|f1 IH]; intros f2 i H1 H2; [lia|].
  destruct f2 as [|f2]; [lia|].
  simpl. destruct (h !! i) as [n|] eqn:Hn; [|done].
  destruct (parent n) as [p|] eqn:Hp; [|done].
  pose proof (Hwf i n p Hn Hp) as Hlt.
  f_equal. apply IH; lia.
Qed.

Lemma path_from_fuel (h : heap) (fuel i : nat) :
  links_wf h -> i < fuel -> path_from fuel h i = path h i.
Proof. intros Hwf Hi. apply path_from_irrel; [done | lia | lia]. Qed.

Lemma path_unfold (h : heap) (i : nat) (n : Node) :
  links_wf h -> h !! i = Some n ->
  path h i = i :: match parent n with Some p => path h p | None => [] end.
Proof.
  intros Hwf Hn. unfold path at 1. simpl. rewrite Hn.
  destruct (parent n) as [p|] eqn:Hp; [|done].
  f_equal. apply path_from_fuel; [done|]. eapply Hwf; eauto.
Qed.

Lemma path_dangling (h : heap) (i : nat) : h !! i = None -> path h i = [].
Proof. intros Hn. unfold path. simpl. by rewrite Hn. Qed.

(** The nodes of a path are allocated, and none comes after its start. *)
Lemma path_le (h : heap) (i j : nat) :
  links_wf h -> j ∈ path h i -> j <= i /\ j < length h.
Proof.
  intros Hwf. induction i as [i IH] using lt_wf_ind. intros Hj.
  destruct (h !! i) as [n|] eqn:Hn.
  - rewrite (path_unfold h i n Hwf Hn) in Hj.
    apply elem_of_cons in Hj as [->|Hj].
    { split; [lia|]. eapply lookup_lt_Some; eauto. }
    destruct (parent n) as [p|] eqn:Hp; [|by apply elem_of_nil in Hj].
    pose proof (Hwf i n p Hn Hp) as Hlt.
    destruct (IH p Hlt Hj). split; lia.
  - rewrite path_dangling in Hj by done. by apply elem_of_nil in Hj.
Qed.

Lemma path_NoDup (h : heap) (i : nat) : links_wf h -> NoDup (path h i).
Proof.
  intros Hwf. induction i as [i IH] using lt_wf_ind.
  destruct (h !! i) as [n|] eqn:Hn.
  - rewrite (path_unfold h i n Hwf Hn).
    destruct (parent n) as [p|] eqn:Hp.
    + pose proof (Hwf i n p Hn Hp) as Hlt.
      apply NoDup_cons. split; [|by apply IH].
      intros Hin. apply path_le in Hin; [lia | done].
    + apply NoDup_singleton.
  - rewrite path_dangling by done. apply NoDup_nil_2.
Qed.

Lemma path_self (h : heap) (i : nat) :
  links_wf h -> i < length h -> i ∈ path h i.
Proof.
  intros Hwf Hi. destruct (lookup_lt_is_Some_2 h i Hi) as [n Hn].
  rewrite (path_unfold h i n Hwf Hn). apply elem_of_cons. by left.
Qed.

(** A node of depth [d] has a path of [d + 1] nodes: itself and its [d]
    ancestors. *)
Lemma path_length (h : heap) (i : nat) (n : Node) :
  links_wf h -> depth_wf h -> h !! i = Some n ->
  length (path h i) = depth n + 1.
Proof.
  intros Hwf Hd. revert n. induction i as [i IH] using lt_wf_ind.
  intros n Hn. rewrite (path_unfold h i n Hwf Hn). simpl.
  pose proof (Hd i n Hn) as Hdn.
  destruct (parent n) as [p|] eqn:Hp.
  - destruct Hdn as (pn & Hpn & ->).
    rewrite (IH p (Hwf i n p Hn Hp) pn Hpn). lia.
  - simpl. lia.
Qed.

(** *** Rewriting the slots of a list of nodes *)

Lemma alter_all_length (f : Node -> Node) (js : list nat) (h : heap) :
  length (alter_all f js h) = length h.
Proof.
  unfold alter_all. revert h.
  induction js as [|j js IH]; intros h; cbn [fold_left]; [done|].
  by rewrite IH, length_alter.
Qed.

Lemma alter_all_lookup_notin (f : Node -> Node) (js : list nat) (h : heap) (k : nat) :
  k ∉ js -> alter_all f js h !! k = h !! k.
Proof.
  unfold alter_all. revert h.
  induction js as [|j js IH]; intros h Hk; cbn [fold_left]; [done|].
  apply not_elem_of_cons in Hk as [Hne Hk].
  rewrite IH by done. by apply list_lookup_alter_ne.
Qed.

Lemma alter_all_lookup_in (f : Node -> Node) (js : list nat) (h : heap) (k : nat) :
  NoDup js -> k ∈ js -> alter_all f js h !! k = f <$> h !! k.
Proof.
  unfold alter_all. revert h.
  induction js as [|j js IH]; intros h Hnd Hk; cbn [fold_left].
  { by apply elem_of_nil in Hk. }
  apply NoDup_cons in Hnd as [Hj Hnd].
  apply elem_of_cons in Hk as [->|Hk].
  - fold (alter_all f js (alter f j h)).
    rewrite alter_all_lookup_notin by done. apply list_lookup_alter_eq.
  - rewrite IH by done. rewrite list_lookup_alter_ne; [done|]. intros ->. done.
Qed.

(** Rewriting a slot with a function that keeps [parent] keeps the paths. *)
Lemma links_wf_alter (f : Node -> Node) (j : nat) (h : heap) :
  (forall n, parent (f n) = parent n) ->
  links_wf h -> links_wf (alter f j h).
Proof.
  intros Hf Hwf i n p Hn Hp.
  destruct (decide (j = i)) as [->|Hne].
  - rewrite list_lookup_alter_eq in Hn.
    destruct (h !! i) as [n0|] eqn:Hn0; simplify_eq/=.
    rewrite Hf in Hp. eauto.
  - rewrite list_lookup_alter_ne in Hn by done. eauto.
Qed.

Lemma path_from_alter (f : Node -> Node) (j : nat) (h : heap) (fuel i : nat) :
  (forall n, parent (f n) = parent n) ->
  path_from fuel (alter f j h) i = path_from fuel h i.
Proof.
  intros Hf. revert i. induction fuel as [|fuel IH]; intros i; cbn [path_from]; [done|].
  destruct (decide (j = i)) as [->|Hne].
  - rewrite list_lookup_alter_eq.
    destruct (h !! i) as [n|]; simpl; [|done].
    rewrite Hf. destruct (parent n); [by rewrite IH | done].
  - rewrite list_lookup_alter_ne by done.
    destruct (h !! i) as [n|]; [|done].
    destruct (parent n); [by rewrite IH | done].
Qed.

Lemma path_alter (f : Node -> Node) (j : nat) (h : heap) (i : nat) :
  (forall n, parent (f n) = parent n) ->
  path (alter f j h) i = path h i.
Proof. intros Hf. by apply path_from_alter. Qed.

(** A field that [f] does not write reads the same after [alter f]. *)
Lemma alter_proj {X} (proj : Node -> X) (f : Node -> Node) (j : nat) (h : heap) (k : nat) :
  (forall n, proj (f n) = proj n) ->
  proj <$> alter f j h !! k = proj <$> h !! k.
Proof.
  intros Hf. destruct (decide (j = k)) as [->|Hne].
  - rewrite list_lookup_alter_eq. destruct (h !! k); simpl; [|done].
    by rewrite Hf.
  - by rewrite list_lookup_alter_ne.
Qed.

Lemma alter_all_proj {X} (proj : Node -> X) (f : Node -> Node) (js : list nat)
    (h : heap) (k : nat) :
  (forall n, proj (f n) = proj n) ->
  proj <$> alter_all f js h !! k = proj <$> h !! k.
Proof.
  intros Hf. unfold alter_all. revert h.
  induction js as [|j js IH]; intros h; cbn [fold_left]; [done|].
  rewrite IH. by apply alter_proj.
Qed.

(** ** Backpropagation *)

(** [backpropagate] applies [add_reward] to the nodes of the path, and to
    nothing else. *)
Lemma backpropagate_loop_spec (fuel : nat) (h : heap) (i : nat) (r : Q) :
  links_wf h -> i < length h -> i < fuel ->
  backpropagate_loop fuel h (Some i) r = Ok (alter_all (add_reward r) (path h i) h).
Proof.
  revert h i. induction fuel as [|fuel IH]; intros h i Hwf Hi Hfuel; [lia|].
  destruct (lookup_lt_is_Some_2 h i Hi) as [n Hn].
  cbn [backpropagate_loop]. unfold get. rewrite Hn. cbn [of_option].
  rewrite bind_Ok, (path_unfold h i n Hwf Hn).
  destruct (parent n) as [p|] eqn:Hp; [|by destruct fuel].
  pose proof (Hwf i n p Hn Hp) as Hlt.
  rewrite IH.
  - by rewrite path_alter.
  - by apply links_wf_alter.
  - rewrite length_alter. lia.
  - lia.
Qed.

Lemma backpropagate_spec (h : heap) (i : nat) (r : Q) :
  links_wf h -> i < length h ->
  backpropagate h i r = Ok (alter_all (add_reward r) (path h i) h).
Proof. intros Hwf Hi. by apply backpropagate_loop_spec. Qed.

(** Whatever the arena, [backpropagate] leaves every field that
    [add_reward] does not write as it was. *)
Lemma backpropagate_loop_proj {X} (proj : Node -> X) (fuel : nat) (h h' : heap)
    (node : option nat) (r : Q) :
  (forall n, proj (add_reward r n) = proj n) ->
  backpropagate_loop fuel h node r = Ok h' ->
  forall k, proj <$> h' !! k = proj <$> h !! k.
Proof.
  intros Hf. revert h node.
  induction fuel as [|fuel IH]; intros h [i|] Hrun k; simpl in Hrun;
    try discriminate; try (by simplify_eq).
  apply bind_Ok_inv in Hrun as (n & Hn & Hrun).
  rewrite (IH _ _ Hrun k). by apply alter_proj.
Qed.

Lemma backpropagate_proj {X} (proj : Node -> X) (h h' : heap) (i : nat) (r : Q) :
  (forall n, proj (add_reward r n) = proj n) ->
  backpropagate h i r = Ok h' ->
  forall k, proj <$> h' !! k = proj <$> h !! k.
Proof. intros Hf Hrun. by eapply backpropagate_loop_proj. Qed.

(** ** The additive walk of [update_score] *)

Lemma update_score_rec_spec (fuel : nat) (h : heap) (i : nat) (v : Q) :
  links_wf h -> i < length h -> i < fuel ->
  update_score_rec fuel h i v = Ok (alter_all (bump_score v) (path h i) h).
Proof.
  revert h i. induction fuel as [|fuel IH]; intros h i Hwf Hi Hfuel; [lia|].
  destruct (lookup_lt_is_Some_2 h i Hi) as [n Hn].
  cbn [update_score_rec]. unfold get. rewrite Hn. cbn [of_option].
  rewrite bind_Ok, (path_unfold h i n Hwf Hn).
  destruct (parent n) as [p|] eqn:Hp; [|done].
  pose proof (Hwf i n p Hn Hp) as Hlt.
  rewrite IH.
  - by rewrite path_alter.
  - by apply links_wf_alter.
  - rewrite length_alter. lia.
  - lia.
Qed.

(** [update_score] is the walk the specification describes: on a node of
    depth [d] it adds one visit and the value to the [d + 1] nodes of the
    path, and leaves the other nodes alone. *)
Lemma update_score_spec (h : heap) (i : nat) (n : Node) (v : Q) :
  links_wf h -> depth_wf h -> h !! i = Some n ->
  exists h',
    update_score h i v = Ok h' /\
    length (path h i) = depth n + 1 /\
    (forall k m, k ∈ path h i -> h !! k = Some m ->
       exists m', h' !! k = Some m' /\ visits m' = visits m + 1
                  /\ score m' = (score m + v)%Q) /\
    (forall k, k ∉ path h i -> h' !! k = h !! k).
Proof.
  intros Hwf Hd Hn.
  assert (Hi : i < length h) by (eapply lookup_lt_Some; eauto).
  exists (alter_all (bump_score v) (path h i) h). split; [|split; [|split]].
  - unfold update_score. by apply update_score_rec_spec.
  - by apply path_length.
  - intros k m Hk Hm. exists (bump_score v m). split; [|done].
    rewrite alter_all_lookup_in; [by rewrite Hm | by apply path_NoDup | done].
  - intros k Hk. by apply alter_all_lookup_notin.
Qed.

(** ** The quality score *)

Lemma np_min_fold_le (xs : list Q) (x : Q) :
  (fold_left Qmin xs x <= x)%Q /\ Forall (fun y => (fold_left Qmin xs x <= y)%Q) xs.
Proof.
  revert x. induction xs as [|y xs IH]; intros x; simpl.
  { split; [apply Qle_refl | constructor]. }
  destruct (IH (Qmin x y)) as [H1 H2]. split; [|constructor; [|done]].
  - eapply Qle_trans; [exact H1 | apply Q.le_min_l].
  - eapply Qle_trans; [exact H1 | apply Q.le_min_r].
Qed.

(** [np_min] is a lower bound of the samples. *)
Lemma np_min_le (l : list Q) : Forall (fun y => (np_min l <= y)%Q) l.
Proof.
  destruct l as [|x xs]; simpl; [constructor|].
  destruct (np_min_fold_le xs x). by constructor.
Qed.

(** What can happen to one node: the assignments the methods make. *)
Inductive node_op : Type :=
| OpAddReward (reward : Q)
| OpBumpScore (value : Q)
| OpSetEvaluation (ev : option string)
| OpSetChildren (cs : list nat)
| OpSetParent (p : option nat).

Definition apply_op (n : Node) (op : node_op) : Node :=
  match op with
  | OpAddReward r => add_reward r n
  | OpBumpScore v => bump_score v n
  | OpSetEvaluation ev => set_evaluation ev n
  | OpSetChildren cs => set_children cs n
  | OpSetParent p => set_parent p n
  end.

Definition quality_of (samples : list Q) : Q :=
  match samples with
  | [] => 0%Q
  | _ :: _ => ((np_mean samples + np_min samples) / 2)%Q
  end.

Lemma quality_of_snoc (l : list Q) (r : Q) :
  quality_of (l ++ [r]) = ((np_mean (l ++ [r]) + np_min (l ++ [r])) / 2)%Q.
Proof. by destruct l. Qed.

Lemma apply_op_quality (n : Node) (op : node_op) :
  Qval n = quality_of (reward_samples n) ->
  Qval (apply_op n op) = quality_of (reward_samples (apply_op n op)).
Proof. destruct op; simpl; try done. intros _. by rewrite quality_of_snoc. Qed.

(** C7. A fresh node has no reward sample and [Q = 0]; [add_reward] appends
    the sample and sets [Q] to (mean + min) / 2 of the samples; hence, after
    any sequence of method calls on a node, [Q] is 0 while the node has no
    sample and (mean + min) / 2 of its samples otherwise. *)
Theorem quality_is_mean_plus_min_halved :
  (forall st par ev d,
     reward_samples (Node_init st par ev d) = [] /\
     Qval (Node_init st par ev d) = 0%Q) /\
  (forall n r,
     reward_samples (add_reward r n) = reward_samples n ++ [r] /\
     Qval (add_reward r n)
     = ((np_mean (reward_samples n ++ [r]) + np_min (reward_samples n ++ [r])) / 2)%Q) /\
  (forall st par ev d ops,
     let n := fold_left apply_op ops (Node_init st par ev d) in
     match reward_samples n with
     | [] => Qval n = 0%Q
     | _ :: _ => Qval n = ((np_mean (reward_samples n) + np_min (reward_samples n)) / 2)%Q
     end).
Proof.
  split; [done|]. split; [done|].
  intros st par ev d ops n.
  assert (Hq : Qval n = quality_of (reward_samples n)).
  { subst n. induction ops as [|op ops IH] using rev_ind; [done|].
    rewrite fold_left_app. simpl. by apply apply_op_quality. }
  rewrite Hq. by destruct (reward_samples n).
Qed.

(** ** Simulation *)

(** The evaluator's answer for the node [nd] when the engine is [m]. *)
Definition simulate_outcome (E : Env) (m : MCTS) (nd : Node) : Outcome :=
  solution_eval E (calls m + 1) (worker E (calls m) (py_str (state nd))).

Lemma simulate_spec (E : Env) (m : MCTS) (node : nat) (nd : Node) :
  links_wf (nodes m) -> nodes m !! node = Some nd ->
  let s := simulate_outcome E m nd in
  simulate E m node =
    Ok ({| nodes := alter_all (add_reward (simulate_score s)) (path (nodes m) node)
                      (alter (set_evaluation (Some (simulate_evaluation s))) node (nodes m));
           root := root m; depth_limit := depth_limit m;
           sm := sm m ++ [worker E (calls m) (py_str (state nd))];
           calls := calls m + 2 |},
        to_submit_signal s).
Proof.
  intros Hwf Hnd s. unfold simulate, get. rewrite Hnd. cbn [of_option].
  rewrite bind_Ok. fold (simulate_outcome E m nd). fold s.
  rewrite backpropagate_spec.
  - rewrite bind_Ok. by rewrite path_alter.
  - by apply links_wf_alter.
  - rewrite length_alter. eapply lookup_lt_Some; eauto.
Qed.

(** C3. The reward that [simulate] backpropagates from a node is a function
    of the evaluator's answer: -0.2 on a timeout, 1.0 when all samples pass
    without a timeout, and the sample success rate otherwise. *)
Theorem simulate_reward_table (E : Env) (m : MCTS) (node : nat) (nd : Node) :
  links_wf (nodes m) -> nodes m !! node = Some nd ->
  let s := simulate_outcome E m nd in
  let rate := success_rate_number s in
  let status := fullreport_status s in
  exists m' nd' reward,
    simulate E m node = Ok (m', to_submit_signal s) /\
    nodes m' !! node = Some nd' /\
    reward_samples nd' = reward_samples nd ++ [reward] /\
    reward = simulate_score s /\
    ((rate == 1.0)%Q -> status = "timeout" -> reward = (-0.2)%Q) /\
    ((rate == 1.0)%Q -> status <> "timeout" -> reward = 1.0%Q) /\
    ((rate < 1.0)%Q -> status = "timeout" -> reward = (-0.2)%Q) /\
    ((rate < 1.0)%Q -> status <> "timeout" -> reward = rate).
Proof.
  intros Hwf Hnd s rate status.
  assert (Hi : node < length (nodes m)) by (eapply lookup_lt_Some; eauto).
  eexists _, (add_reward (simulate_score s) (set_evaluation _ nd)), (simulate_score s).
  split; [by apply simulate_spec|]. cbn [nodes]. split; [|split; [done|split; [done|]]].
  { rewrite alter_all_lookup_in.
    - by rewrite list_lookup_alter_eq, Hnd.
    - by apply path_NoDup.
    - by apply path_self. }
  unfold simulate_score. fold rate status.
  assert (Hlt : (rate < 1.0)%Q -> ~ (rate == 1.0)%Q).
  { intros Hr He. rewrite He in Hr. by apply Qlt_irrefl in Hr. }
  destruct (Qeq_bool rate 1.0) eqn:Hrate;
    [apply Qeq_bool_iff in Hrate | apply Qeq_bool_neq in Hrate];
    (destruct (String.eqb status "timeout") eqn:Hst;
      [apply String.eqb_eq in Hst | apply String.eqb_neq in Hst]);
    repeat split; intros Hr Hs; try done; try (by destruct (Hlt Hr)).
Qed.

(** ** The context built for the generator *)

Lemma string_length_app (a b : string) :
  String.length (a +:+ b) = String.length a + String.length b.
Proof. induction a as [|c a IH]; simpl; [done|]. by rewrite IH. Qed.

Lemma substring_length (s : string) (n m : nat) :
  n + m <= String.length s -> String.length (substring n m s) = m.
Proof.
  revert n m. induction s as [|c s IH]; intros n m Hle; simpl in *.
  - assert (n = 0) as -> by lia. assert (m = 0) as -> by lia. done.
  - destruct n as [|n].
    + destruct m as [|m]; simpl; [done|]. rewrite IH; [done | lia].
    + apply IH. lia.
Qed.

(** [s[:m]] starts [s]. *)
Lemma substring_is_prefix (s : string) (m : nat) :
  m <= String.length s -> exists rest, s = substring 0 m s +:+ rest.
Proof.
  revert m. induction s as [|c s IH]; intros m Hle; simpl in *.
  - assert (m = 0) as -> by lia. by exists "".
  - destruct m as [|m]; simpl; [by eexists|].
    destruct (IH m) as [rest Hrest]; [lia|]. exists rest.
    change (String c s = String c (substring 0 m s +:+ rest)). by f_equal.
Qed.

Lemma substring_all (s : string) : substring 0 (String.length s) s = s.
Proof. induction s as [|c s IH]; simpl; [done|]. by rewrite IH. Qed.

(** [s[n:]] ends [s]. *)
Lemma substring_is_suffix (s : string) (n m : nat) :
  n + m = String.length s ->
  exists front, String.length front = n /\ s = front +:+ substring n m s.
Proof.
  revert n m. induction s as [|c s IH]; intros n m Hle.
  - simpl in Hle. assert (n = 0) as -> by lia. assert (m = 0) as -> by lia.
    by exists "".
  - destruct n as [|n].
    + exists "". split; [done|]. simpl in Hle. subst m.
      change (String c s = substring 0 (String.length (String c s)) (String c s)).
      by rewrite substring_all.
    + destruct (IH n m) as (front & Hlen & Hfront); [simpl in Hle; lia|].
      exists (String c front). split; [simpl; lia|].
      change (String c s = String c (front +:+ substring n m s)). by f_equal.
Qed.

(** What [summarize_evaluation] returns: a text of at most 100 characters
    unchanged, a longer one as its first 100 characters, an ellipsis and its
    last 100 characters. *)
Lemma summarize_evaluation_spec (t : string) :
  (String.length t <= 100 -> summarize_evaluation t = t) /\
  (100 < String.length t ->
     exists first last rest front,
       summarize_evaluation t = first +:+ "..." +:+ last /\
       String.length first = 100 /\ String.length last = 100 /\
       t = first +:+ rest /\ t = front +:+ last).
Proof.
  unfold summarize_evaluation. split; intros Hlen.
  - destruct (Nat.ltb_spec 100 (String.length t)); [lia | done].
  - destruct (Nat.ltb_spec 100 (String.length t)); [|lia].
    destruct (substring_is_prefix t 100) as [rest Hrest]; [lia|].
    destruct (substring_is_suffix t (String.length t - 100) 100)
      as (front & _ & Hfront); [lia|].
    exists (substring 0 100 t), (substring (String.length t - 100) 100 t), rest, front.
    split; [done|]. rewrite !substring_length by lia. done.
Qed.

Definition has_parent (h : heap) (i : nat) : bool :=
  match h !! i with
  | Some n => match parent n with Some _ => true | None => false end
  | None => false
  end.

(** The nodes the loop of [build_prompt_with_feedback] collects: those of
    the path that have a parent, the leaf first. *)
Definition walked (h : heap) (leaf : nat) : list nat :=
  List.filter (has_parent h) (path h leaf).

(** The message collected at a node: its summarised state followed by its
    whole evaluation. *)
Definition history_entry (h : heap) (i : nat) : option message :=
  n ← h !! i;
  st ← state n;
  ev ← evaluation n;
  Some (mkMessage "assistant" (summarize_evaluation st +:+ ev)).

Lemma walked_unfold (h : heap) (i : nat) (n : Node) :
  links_wf h -> h !! i = Some n ->
  walked h i = match parent n with Some p => i :: walked h p | None => [] end.
Proof.
  intros Hwf Hn. unfold walked. rewrite (path_unfold h i n Hwf Hn).
  cbn [List.filter]. unfold has_parent at 1. rewrite Hn.
  by destruct (parent n).
Qed.

Lemma history_loop_spec (fuel : nat) (h : heap) (i : nat) (acc : list message) :
  links_wf h -> i < length h -> i < fuel ->
  history_loop fuel h i acc =
    match mapM (history_entry h) (walked h i) with
    | Some hist => Ok (acc ++ hist)
    | None => Raise TypeError
    end.
Proof.
  intros Hwf. revert i acc.
  induction fuel as [|fuel IH]; intros i acc Hi Hfuel; [lia|].
  destruct (lookup_lt_is_Some_2 h i Hi) as [n Hn].
  rewrite (walked_unfold h i n Hwf Hn).
  cbn [history_loop]. unfold get. rewrite Hn. cbn [of_option]. rewrite bind_Ok.
  destruct (parent n) as [p|] eqn:Hp; [|simpl; by rewrite app_nil_r].
  pose proof (Hwf i n p Hn Hp) as Hlt.
  cbn [mapM].
  assert (He : history_entry h i =
               st ← state n; ev ← evaluation n;
               Some (mkMessage "assistant" (summarize_evaluation st +:+ ev))).
  { unfold history_entry. by rewrite Hn. }
  rewrite He. clear He.
  destruct (state n) as [st|]; simpl; [|done].
  destruct (evaluation n) as [ev|]; simpl; [|done].
  rewrite IH by lia.
  destruct (mapM (history_entry h) (walked h p)) as [hist|]; simpl; [|done].
  by rewrite <- app_assoc.
Qed.

(** The messages of [build_prompt_with_feedback]: the problem, then the
    collected entries from the root's side down to the leaf, then the closing
    request.  A collected node without a state or without an evaluation makes
    the walk raise TypeError. *)
Lemma build_prompt_with_feedback_spec (E : Env) (h : heap) (leaf : nat) :
  links_wf h -> leaf < length h ->
  build_prompt_with_feedback E h leaf =
    match mapM (history_entry h) (walked h leaf) with
    | Some hist =>
        Ok (mkMessage "user" ("## Problem: " +:+ problem_description E)
              :: rev hist ++ [closing_message])
    | None => Raise TypeError
    end.
Proof.
  intros Hwf Hleaf. unfold build_prompt_with_feedback.
  rewrite history_loop_spec by (done || lia).
  by destruct (mapM (history_entry h) (walked h leaf)).
Qed.

(** ** Selection *)

Definition xle (a b : xreal) : Prop := xgt a b = false.
Definition xlt (a b : xreal) : Prop := xgt b a = true.

Lemma xgt_Fin (x y : R) : xgt (Fin x) (Fin y) = true <-> (y < x)%R.
Proof. simpl. destruct (Rlt_dec y x); split; (done || lra). Qed.

Lemma xlt_xle_trans (a b c : xreal) : xle a b -> xlt b c -> xlt a c.
Proof.
  unfold xle, xlt. destruct a as [|x], b as [|y], c as [|z]; simpl; try done.
  destruct (Rlt_dec y x), (Rlt_dec y z), (Rlt_dec x z); (done || lra).
Qed.

Lemma xlt_trans (a b c : xreal) : xlt a b -> xlt b c -> xlt a c.
Proof.
  unfold xlt. destruct a as [|x], b as [|y], c as [|z]; simpl; try done.
  destruct (Rlt_dec x y), (Rlt_dec y z), (Rlt_dec x z); (done || lra).
Qed.

Lemma xlt_xle (a b : xreal) : xlt a b -> xle a b.
Proof.
  unfold xlt, xle. destruct a as [|x], b as [|y]; simpl; try done.
  destruct (Rlt_dec x y), (Rlt_dec y x); (done || lra).
Qed.

Lemma xle_PInf (a : xreal) : xle PInf a -> a = PInf.
Proof. unfold xle. by destruct a. Qed.

(** The loop of [max]: the answer is the first item of greatest key. *)
Lemma max_by_ucb1_spec (h : heap) (key : nat -> xreal) (rest pre mid : list nat)
    (best : nat) :
  (forall c, c ∈ rest -> ucb1 h c = Ok (key c)) ->
  (forall c, c ∈ pre -> xlt (key c) (key best)) ->
  (forall c, c ∈ mid -> xle (key c) (key best)) ->
  exists pre' c post,
    pre ++ best :: mid ++ rest = pre' ++ c :: post /\
    max_by_ucb1 h best (key best) rest = Ok c /\
    (forall c', c' ∈ pre' -> xlt (key c') (key c)) /\
    (forall c', c' ∈ post -> xle (key c') (key c)).
Proof.
  revert pre mid best.
  induction rest as [|c1 rest IH]; intros pre mid best Hkeys Hpre Hmid.
  { exists pre, best, mid. by rewrite app_nil_r. }
  cbn [max_by_ucb1]. rewrite (Hkeys c1) by (apply elem_of_cons; by left).
  rewrite bind_Ok.
  assert (Hrest : forall c, c ∈ rest -> ucb1 h c = Ok (key c)).
  { intros c Hc. apply Hkeys, elem_of_cons. by right. }
  destruct (xgt (key c1) (key best)) eqn:Hgt.
  - destruct (IH (pre ++ best :: mid) [] c1 Hrest) as (pre' & c & post & Heq & Hrun & H1 & H2).
    + intros c Hc. apply elem_of_app in Hc as [Hc|Hc].
      * eapply xlt_trans; [by apply Hpre | exact Hgt].
      * apply elem_of_cons in Hc as [->|Hc]; [exact Hgt|].
        eapply xlt_xle_trans; [by apply Hmid | exact Hgt].
    + intros c Hc. by apply elem_of_nil in Hc.
    + exists pre', c, post. split; [|done].
      rewrite <- Heq. by rewrite <- !app_assoc.
  - destruct (IH pre (mid ++ [c1]) best Hrest Hpre) as (pre' & c & post & Heq & Hrun & H1 & H2).
    + intros c Hc. apply elem_of_app in Hc as [Hc|Hc]; [by apply Hmid|].
      apply list_elem_of_singleton in Hc as ->. exact Hgt.
    + exists pre', c, post. split; [|done].
      rewrite <- Heq. by rewrite <- !app_assoc.
Qed.

(** The priority the specification gives a node [n] whose parent is [p]. *)
Definition claimed_priority (n p : Node) : xreal :=
  if visits n =? 0 then PInf
  else Fin (Q2R (Qval n) / INR (visits n)
            + 1.4 * sqrt (ln (INR (visits p)) / (INR (visits n) + 0.01)))%R.

Definition priority_in (h : heap) (p : Node) (c : nat) : xreal :=
  match h !! c with
  | Some n => claimed_priority n p
  | None => PInf
  end.

(** [ucb1] on a node with a parent: the claimed priority, unless the node
    was visited and its parent was not. *)
Lemma ucb1_spec (h : heap) (i j : nat) (n p : Node) :
  h !! i = Some n -> parent n = Some j -> h !! j = Some p ->
  ucb1 h i = if (negb (visits n =? 0)) && (visits p =? 0) then Raise ValueError
             else Ok (claimed_priority n p).
Proof.
  intros Hn Hj Hp. unfold ucb1, get, claimed_priority. rewrite Hn.
  cbn [of_option]. rewrite bind_Ok.
  destruct (visits n =? 0) eqn:Hv; [done|].
  rewrite Hj. cbn [of_option]. rewrite bind_Ok, Hp. cbn [of_option].
  rewrite bind_Ok. by destruct (visits p =? 0).
Qed.

(** [select] on a node [p] whose children point back to it, and whose
    [visits] is at least 1 unless all its children are unvisited. *)
Lemma select_spec (h : heap) (i : nat) (p : Node) :
  h !! i = Some p -> children p <> [] ->
  (forall c, c ∈ children p -> exists n, h !! c = Some n /\ parent n = Some i) ->
  (1 <= visits p \/
   forall c n, c ∈ children p -> h !! c = Some n -> visits n = 0) ->
  (forall c n, c ∈ children p -> h !! c = Some n ->
     ucb1 h c = Ok (claimed_priority n p) /\
     (visits n = 0 -> claimed_priority n p = PInf) /\
     (visits n <> 0 ->
      claimed_priority n p =
        Fin (Q2R (Qval n) / INR (visits n)
             + 1.4 * sqrt (ln (INR (visits p)) / (INR (visits n) + 0.01)))%R)) /\
  exists pre c post,
    children p = pre ++ c :: post /\
    select h i = Ok c /\
    (forall c', c' ∈ pre -> xlt (priority_in h p c') (priority_in h p c)) /\
    (forall c', c' ∈ post -> xle (priority_in h p c') (priority_in h p c)) /\
    ((exists c' n', c' ∈ children p /\ h !! c' = Some n' /\ visits n' = 0) ->
     exists n, h !! c = Some n /\ visits n = 0).
Proof.
  intros Hp Hne Hback Hvis.
  assert (Hucb : forall c n, c ∈ children p -> h !! c = Some n ->
                   ucb1 h c = Ok (claimed_priority n p)).
  { intros c n Hc Hn. destruct (Hback c Hc) as (n' & Hn' & Hpar). simplify_eq.
    rewrite (ucb1_spec h c i n p Hn Hpar Hp).
    destruct Hvis as [Hv|Hv].
    - destruct (Nat.eqb_spec (visits p) 0); [lia|]. by rewrite andb_false_r.
    - rewrite (Hv c n Hc Hn). done. }
  split.
  { intros c n Hc Hn. split; [by apply Hucb|]. unfold claimed_priority.
    split; intros Hv.
    - by rewrite Hv.
    - by destruct (Nat.eqb_spec (visits n) 0). }
  assert (Hkey : forall c, c ∈ children p -> ucb1 h c = Ok (priority_in h p c)).
  { intros c Hc. destruct (Hback c Hc) as (n & Hn & _).
    unfold priority_in. rewrite Hn. by apply Hucb. }
  unfold select, get. rewrite Hp. cbn [of_option]. rewrite bind_Ok.
  destruct (children p) as [|c0 rest] eqn:Hcs; [done|].
  rewrite (Hkey c0) by (apply elem_of_cons; by left). rewrite bind_Ok.
  destruct (max_by_ucb1_spec h (priority_in h p) rest [] [] c0)
    as (pre & c & post & Heq & Hrun & Hpre & Hpost).
  { intros c Hc. apply Hkey, elem_of_cons. by right. }
  { intros c Hc. by apply elem_of_nil in Hc. }
  { intros c Hc. by apply elem_of_nil in Hc. }
  simpl in Heq. exists pre, c, post. split; [done|]. split; [done|].
  split; [done|]. split; [done|].
  intros (c' & n' & Hc' & Hn' & Hv').
  assert (Hc : c ∈ c0 :: rest).
  { rewrite Heq. apply elem_of_app. right. apply elem_of_cons. by left. }
  destruct (Hback c Hc) as (n & Hn & _). exists n. split; [done|].
  assert (Hinf : priority_in h p c' = PInf).
  { unfold priority_in, claimed_priority. by rewrite Hn', Hv'. }
  assert (Hle : xle (priority_in h p c') (priority_in h p c)).
  { rewrite Heq in Hc'. apply elem_of_app in Hc' as [Hc'|Hc'].
    - by apply xlt_xle, Hpre.
    - apply elem_of_cons in Hc' as [->|Hc']; [|by apply Hpost].
      unfold xle. rewrite Hinf. done. }
  rewrite Hinf in Hle. apply xle_PInf in Hle.
  unfold priority_in, claimed_priority in Hle. rewrite Hn in Hle.
  destruct (Nat.eqb_spec (visits n) 0); [done | discriminate].
Qed.

(** A parent that was never visited, a child A with 3 visits and [Q = 0.5],
    and an unvisited child B. *)
Definition visited_child : Node :=
  {| state := Some "A"; parent := Some 0; children := []; visits := 3;
     score := 0%Q; evaluation := None; reward_samples := []; Qval := 0.5%Q;
     depth := 1 |}.

Definition unvisited_child : Node := Node_init (Some "B") (Some 0) None 1.




(** ** The shape of the tree *)

(** The fields that only [add_child] and [update_score] write. *)
Definition links (n : Node) : option nat * list nat * nat * nat * option string :=
  (parent n, children n, visits n, depth n, state n).

Definition same_links (h h' : heap) : Prop :=
  forall k, links <$> h' !! k = links <$> h !! k.

Lemma same_links_refl (h : heap) : same_links h h.
Proof. by intros k. Qed.

Lemma same_links_trans (h1 h2 h3 : heap) :
  same_links h1 h2 -> same_links h2 h3 -> same_links h1 h3.
Proof. intros H12 H23 k. by rewrite H23, H12. Qed.

Lemma same_links_sym (h h' : heap) : same_links h h' -> same_links h' h.
Proof. intros H k. by rewrite H. Qed.

Lemma same_links_lookup (h h' : heap) (i : nat) (n : Node) :
  same_links h h' -> h !! i = Some n ->
  exists n', h' !! i = Some n' /\ parent n' = parent n /\ children n' = children n
             /\ visits n' = visits n /\ depth n' = depth n /\ state n' = state n.
Proof.
  intros Hs Hn. specialize (Hs i). rewrite Hn in Hs.
  destruct (h' !! i) as [n'|]; [|done]. exists n'. split; [done|].
  unfold links in Hs. simpl in Hs. by simplify_eq.
Qed.

Lemma same_links_length (h h' : heap) : same_links h h' -> length h = length h'.
Proof.
  intros Hs.
  destruct (Nat.lt_trichotomy (length h) (length h')) as [Hlt|[Heq|Hlt]]; [|done|].
  - destruct (lookup_lt_is_Some_2 h' _ Hlt) as [n Hn].
    destruct (same_links_lookup h' h _ n (same_links_sym _ _ Hs) Hn) as (n' & Hn' & _).
    apply lookup_lt_Some in Hn'. lia.
  - destruct (lookup_lt_is_Some_2 h _ Hlt) as [n Hn].
    destruct (same_links_lookup h h' _ n Hs Hn) as (n' & Hn' & _).
    apply lookup_lt_Some in Hn'. lia.
Qed.

Lemma same_links_alter (f : Node -> Node) (j : nat) (h : heap) :
  (forall n, links (f n) = links n) -> same_links h (alter f j h).
Proof. intros Hf k. by apply alter_proj. Qed.

Lemma same_links_alter_all (f : Node -> Node) (js : list nat) (h : heap) :
  (forall n, links (f n) = links n) -> same_links h (alter_all f js h).
Proof. intros Hf k. by apply alter_all_proj. Qed.

(** The tree that the engine grows: parents come before their children,
    [depth] counts the ancestors, children point back to their parent, no
    node has a visit, and every node below the root carries a state. *)
Record tree_ok (h : heap) : Prop := mk_tree_ok {
  ok_links : links_wf h;
  ok_depth : depth_wf h;
  ok_children : forall i n c, h !! i = Some n -> c ∈ children n ->
      i < c /\ exists cn, h !! c = Some cn /\ parent cn = Some i;
  ok_visits : forall i n, h !! i = Some n -> visits n = 0;
  ok_state : forall i n p, h !! i = Some n -> parent n = Some p -> is_Some (state n)
}.

Lemma tree_ok_same_links (h h' : heap) : same_links h h' -> tree_ok h -> tree_ok h'.
Proof.
  intros Hs [H1 H2 H3 H4 H5].
  pose proof (same_links_sym _ _ Hs) as Hs'.
  split.
  - intros i n' p Hn' Hp.
    destruct (same_links_lookup _ _ _ _ Hs' Hn') as (n & Hn & Hpar & _).
    apply (H1 i n p Hn). congruence.
  - intros i n' Hn'.
    destruct (same_links_lookup _ _ _ _ Hs' Hn') as (n & Hn & Hpar & _ & _ & Hd & _).
    specialize (H2 i n Hn). rewrite <- Hpar. destruct (parent n) as [p|]; [|congruence].
    destruct H2 as (pn & Hpn & Hdp).
    destruct (same_links_lookup _ _ _ _ Hs Hpn) as (pn' & Hpn' & _ & _ & _ & Hd' & _).
    exists pn'. split; [done | congruence].
  - intros i n' c Hn' Hc.
    destruct (same_links_lookup _ _ _ _ Hs' Hn') as (n & Hn & _ & Hcs & _).
    rewrite <- Hcs in Hc. destruct (H3 i n c Hn Hc) as (Hlt & cn & Hcn & Hpar).
    split; [done|].
    destruct (same_links_lookup _ _ _ _ Hs Hcn) as (cn' & Hcn' & Hpar' & _).
    exists cn'. split; [done | congruence].
  - intros i n' Hn'.
    destruct (same_links_lookup _ _ _ _ Hs' Hn') as (n & Hn & _ & _ & Hv & _).
    rewrite <- Hv. eauto.
  - intros i n' p Hn' Hp.
    destruct (same_links_lookup _ _ _ _ Hs' Hn') as (n & Hn & Hpar & _ & _ & _ & Hst).
    rewrite <- Hst. apply (H5 i n p Hn). congruence.
Qed.

Lemma same_links_path (h h' : heap) (i : nat) :
  same_links h h' -> path h' i = path h i.
Proof.
  intros Hs. unfold path. generalize (S i) as fuel. intros fuel. revert i.
  induction fuel as [|fuel IH]; intros i; cbn [path_from]; [done|].
  pose proof (Hs i) as Hi.
  destruct (h !! i) as [n|], (h' !! i) as [n'|]; simpl in Hi; try done.
  assert (Hp : parent n' = parent n) by (unfold links in Hi; by simplify_eq).
  rewrite Hp.
  destruct (parent n); [by rewrite IH | done].
Qed.

(** ** Expansion *)

(** One round of the loop of [expand]: [leaf] gets the next free reference
    as a new child, and the child is allocated there. *)
Definition grow (h : heap) (leaf : nat) (out : string) (d : nat) : heap :=
  alter (fun s => set_children (children s ++ [length h]) s) leaf h
    ++ [Node_init (Some out) (Some leaf) None d].

Lemma add_child_grow (h : heap) (leaf : nat) (n : Node) (out : string) :
  h !! leaf = Some n ->
  exists h1,
    add_child h leaf out = Ok (h1, length h) /\
    alter (set_parent (Some leaf)) (length h) h1 = grow h leaf out (depth n + 1).
Proof.
  intros Hn. unfold add_child, get. rewrite Hn. cbn [of_option]. rewrite bind_Ok.
  eexists. split; [done|]. unfold grow.
  pose proof (lookup_lt_Some _ _ _ Hn) as Hlt.
  rewrite alter_app_l by done.
  set (h' := alter _ leaf h).
  assert (Hlen : length h = length h' + 0) by (subst h'; rewrite length_alter; lia).
  rewrite Hlen at 1. by rewrite alter_app_r.
Qed.

Lemma grow_length (h : heap) (leaf : nat) (out : string) (d : nat) :
  length (grow h leaf out d) = S (length h).
Proof. unfold grow. rewrite length_app, length_alter. simpl. lia. Qed.

Lemma grow_lookup_new (h : heap) (leaf : nat) (out : string) (d : nat) :
  grow h leaf out d !! length h = Some (Node_init (Some out) (Some leaf) None d).
Proof.
  unfold grow. rewrite lookup_app_r by (rewrite length_alter; lia).
  rewrite length_alter, Nat.sub_diag. done.
Qed.

Lemma grow_lookup_leaf (h : heap) (leaf : nat) (n : Node) (out : string) (d : nat) :
  h !! leaf = Some n ->
  grow h leaf out d !! leaf = Some (set_children (children n ++ [length h]) n).
Proof.
  intros Hn. unfold grow. pose proof (lookup_lt_Some _ _ _ Hn) as Hlt.
  rewrite lookup_app_l by (rewrite length_alter; lia).
  by rewrite list_lookup_alter_eq, Hn.
Qed.

Lemma grow_lookup_other (h : heap) (leaf k : nat) (out : string) (d : nat) :
  k <> leaf -> k < length h -> grow h leaf out d !! k = h !! k.
Proof.
  intros Hne Hlt. unfold grow.
  rewrite lookup_app_l by (rewrite length_alter; lia).
  by rewrite list_lookup_alter_ne.
Qed.

Lemma grow_lookup_inv (h : heap) (leaf i : nat) (out : string) (d : nat) (n' : Node) :
  grow h leaf out d !! i = Some n' ->
  (i = length h /\ n' = Node_init (Some out) (Some leaf) None d) \/
  (i <> leaf /\ h !! i = Some n') \/
  (i = leaf /\ exists n, h !! leaf = Some n
                         /\ n' = set_children (children n ++ [length h]) n).
Proof.
  intros Hi. pose proof (lookup_lt_Some _ _ _ Hi) as Hlt.
  rewrite grow_length in Hlt.
  destruct (decide (i = length h)) as [->|Hne].
  { left. rewrite grow_lookup_new in Hi. by simplify_eq. }
  right. destruct (decide (i = leaf)) as [->|Hne'].
  - right. split; [done|].
    destruct (lookup_lt_is_Some_2 h leaf) as [n Hn]; [lia|].
    rewrite (grow_lookup_leaf _ _ n) in Hi by done. exists n. by simplify_eq.
  - left. split; [done|]. rewrite grow_lookup_other in Hi by (done || lia). done.
Qed.

(** Every node of [h] is still there after [grow], with the same parent,
    depth, visits, state, evaluation and samples. *)
Lemma grow_lookup_old (h : heap) (leaf k : nat) (out : string) (d : nat) (n : Node) :
  h !! k = Some n ->
  exists n', grow h leaf out d !! k = Some n' /\ parent n' = parent n
             /\ depth n' = depth n /\ visits n' = visits n /\ state n' = state n
             /\ evaluation n' = evaluation n /\ reward_samples n' = reward_samples n
             /\ (k <> leaf -> n' = n).
Proof.
  intros Hn. pose proof (lookup_lt_Some _ _ _ Hn) as Hlt.
  destruct (decide (k = leaf)) as [->|Hne].
  - rewrite (grow_lookup_leaf _ _ n) by done. eexists. split; [done|]. by repeat split.
  - rewrite grow_lookup_other by done. exists n. by repeat split.
Qed.

Lemma tree_ok_grow (h : heap) (leaf : nat) (n : Node) (out : string) :
  tree_ok h -> h !! leaf = Some n -> tree_ok (grow h leaf out (depth n + 1)).
Proof.
  intros [H1 H2 H3 H4 H5] Hn.
  pose proof (lookup_lt_Some _ _ _ Hn) as Hleaf.
  split.
  - intros i n' p Hi Hp.
    apply grow_lookup_inv in Hi as [[-> ->]|[[Hne Hi]|[-> (n0 & Hn0 & ->)]]].
    + simpl in Hp. by simplify_eq.
    + eauto.
    + simpl in Hp. eauto.
  - intros i n' Hi.
    apply grow_lookup_inv in Hi as [[-> ->]|[[Hne Hi]|[-> (n0 & Hn0 & ->)]]].
    + simpl. destruct (grow_lookup_old h leaf leaf out (depth n + 1) n Hn)
        as (n1 & Hn1 & _ & Hd & _).
      exists n1. split; [done | lia].
    + specialize (H2 i n' Hi). destruct (parent n') as [p|]; [|done].
      destruct H2 as (pn & Hpn & Hd).
      destruct (grow_lookup_old h leaf p out (depth n + 1) pn Hpn)
        as (n1 & Hn1 & _ & Hd1 & _).
      exists n1. split; [done | lia].
    + simpl. specialize (H2 leaf n0 Hn0). destruct (parent n0) as [p|]; [|done].
      destruct H2 as (pn & Hpn & Hd).
      destruct (grow_lookup_old h leaf p out (depth n + 1) pn Hpn)
        as (n1 & Hn1 & _ & Hd1 & _).
      exists n1. split; [done | lia].
  - intros i n' c Hi Hc.
    apply grow_lookup_inv in Hi as [[-> ->]|[[Hne Hi]|[-> (n0 & Hn0 & ->)]]].
    + simpl in Hc. by apply elem_of_nil in Hc.
    + destruct (H3 i n' c Hi Hc) as (Hlt & cn & Hcn & Hpar). split; [done|].
      destruct (grow_lookup_old h leaf c out (depth n + 1) cn Hcn)
        as (n1 & Hn1 & Hp1 & _).
      exists n1. split; [done | congruence].
    + simpl in Hc. apply elem_of_app in Hc as [Hc|Hc].
      * destruct (H3 leaf n0 c Hn0 Hc) as (Hlt & cn & Hcn & Hpar). split; [done|].
        destruct (grow_lookup_old h leaf c out (depth n + 1) cn Hcn)
          as (n1 & Hn1 & Hp1 & _).
        exists n1. split; [done | congruence].
      * apply list_elem_of_singleton in Hc as ->. split; [done|].
        eexists. split; [apply grow_lookup_new | done].
  - intros i n' Hi.
    apply grow_lookup_inv in Hi as [[-> ->]|[[Hne Hi]|[-> (n0 & Hn0 & ->)]]];
      simpl; eauto.
  - intros i n' p Hi Hp.
    apply grow_lookup_inv in Hi as [[-> ->]|[[Hne Hi]|[-> (n0 & Hn0 & ->)]]];
      simpl in *; eauto.
Qed.

(** [expand] below the depth limit: the context is built, the generator is
    asked once and its two answers become the two new children of [leaf]. *)
Lemma expand_spec (E : Env) (m : MCTS) (leaf : nat) (n : Node) :
  nodes m !! leaf = Some n ->
  expand E m leaf =
    if depth_limit m <=? depth n then Ok m
    else
      messages ← build_prompt_with_feedback E (nodes m) leaf;
      let out i := strip (mcts_openai_messages E (calls m) messages i) in
      Ok (tick 1 (with_nodes
                    (grow (grow (nodes m) leaf (out 0) (depth n + 1))
                          leaf (out 1) (depth n + 1)) m)).
Proof.
  intros Hn. unfold expand, get. rewrite Hn. cbn [of_option]. rewrite bind_Ok.
  destruct (depth_limit m <=? depth n); [done|].
  destruct (build_prompt_with_feedback E (nodes m) leaf) as [msgs|e]; [|done].
  rewrite !bind_Ok. cbn [seq expand_loop].
  destruct (add_child_grow (nodes m) leaf n
              (strip (mcts_openai_messages E (calls m) msgs 0)) Hn) as (h1 & -> & Hg1).
  rewrite bind_Ok. cbn beta iota. rewrite Hg1.
  set (g1 := grow (nodes m) leaf _ _) in *.
  assert (Hn1 : g1 !! leaf = Some (set_children (children n ++ [length (nodes m)]) n))
    by (by apply grow_lookup_leaf).
  destruct (add_child_grow g1 leaf _
              (strip (mcts_openai_messages E (calls m) msgs 1)) Hn1) as (h2 & -> & Hg2).
  rewrite bind_Ok. cbn beta iota. rewrite Hg2. done.
Qed.

(** ** The skeleton of the tree *)

(** The depth and the children of every node. *)
Definition shape_of (h : heap) : list (nat * list nat) :=
  (fun n => (depth n, children n)) <$> h.

(** The leaf that the descent reaches when it keeps to the first child. *)
Fixpoint first_leaf (fuel : nat) (sk : list (nat * list nat)) (i : nat) : nat :=
  match sk !! i with
  | Some (_, c :: _) =>
      match fuel with
      | 0 => i
      | S fuel' => first_leaf fuel' sk c
      end
  | _ => i
  end.

Definition sk_grow (sk : list (nat * list nat)) (leaf d : nat) : list (nat * list nat) :=
  alter (fun s => (s.1, s.2 ++ [length sk])) leaf sk ++ [(d, [])].

(** One iteration without a submit signal, on the skeleton: descend, and
    add two children unless the leaf is at the depth limit. *)
Definition sk_step (D : nat) (st : list (nat * list nat) * nat)
    : list (nat * list nat) * nat :=
  let leaf := first_leaf (length st.1) st.1 st.2 in
  match st.1 !! leaf with
  | Some (d, _) =>
      if D <=? d then (st.1, leaf)
      else (sk_grow (sk_grow st.1 leaf (d + 1)) leaf (d + 1), leaf)
  | None => (st.1, leaf)
  end.

Fixpoint sk_run (D remaining : nat) (st : list (nat * list nat) * nat)
    : list (nat * list nat) * nat :=
  match remaining with
  | 0 => st
  | S remaining' => sk_run D remaining' (sk_step D st)
  end.

Lemma shape_of_lookup (h : heap) (i : nat) (n : Node) :
  h !! i = Some n -> shape_of h !! i = Some (depth n, children n).
Proof. intros Hn. unfold shape_of. by rewrite list_lookup_fmap, Hn. Qed.

Lemma shape_of_length (h : heap) : length (shape_of h) = length h.
Proof. unfold shape_of. by rewrite length_fmap. Qed.

Lemma same_links_shape (h h' : heap) : same_links h h' -> shape_of h' = shape_of h.
Proof.
  intros Hs. apply list_eq. intros k. unfold shape_of. rewrite !list_lookup_fmap.
  specialize (Hs k). destruct (h !! k) as [n|], (h' !! k) as [n'|]; simpl in *; try done.
  unfold links in Hs. injection Hs as Hp Hc Hv Hd Hst. by rewrite Hd, Hc.
Qed.

Lemma shape_of_grow (h : heap) (leaf : nat) (out : string) (d : nat) :
  shape_of (grow h leaf out d) = sk_grow (shape_of h) leaf d.
Proof.
  unfold shape_of, grow, sk_grow. rewrite fmap_app, length_fmap. f_equal.
  apply list_fmap_alter. by apply Forall_true.
Qed.

(** ** Descent *)

(** In a tree without visits every priority is [+inf] and [select] keeps the
    first child. *)
Lemma select_first_child (h : heap) (i : nat) (n : Node) (c : nat) (rest : list nat) :
  tree_ok h -> h !! i = Some n -> children n = c :: rest -> select h i = Ok c.
Proof.
  intros Hok Hn Hcs.
  destruct (select_spec h i n Hn) as (_ & pre & c' & post & Heq & Hsel & Hpre & _).
  - by rewrite Hcs.
  - intros c1 Hc1. destruct (ok_children h Hok i n c1 Hn Hc1) as (_ & cn & Hcn & Hp).
    by exists cn.
  - right. intros c1 n1 _ Hn1. by apply (ok_visits h Hok c1).
  - destruct pre as [|c1 pre].
    + rewrite Hcs in Heq. simpl in Heq. by simplify_eq.
    + assert (Hin1 : c1 ∈ children n).
      { rewrite Heq. apply elem_of_cons. by left. }
      assert (Hin' : c' ∈ children n).
      { rewrite Heq. apply elem_of_app. right. apply elem_of_cons. by left. }
      destruct (ok_children h Hok i n c1 Hn Hin1) as (_ & n1 & Hn1 & _).
      destruct (ok_children h Hok i n c' Hn Hin') as (_ & n' & Hn' & _).
      specialize (Hpre c1 (ltac:(apply elem_of_cons; by left))).
      unfold xlt, priority_in, claimed_priority in Hpre.
      rewrite Hn1, Hn', (ok_visits h Hok c1 n1 Hn1), (ok_visits h Hok c' n' Hn') in Hpre.
      discriminate Hpre.
Qed.

Lemma descend_spec (fuel : nat) (h : heap) (i : nat) :
  tree_ok h -> i < length h -> length h - i <= fuel ->
  exists leaf n, descend fuel h i = Ok leaf /\ h !! leaf = Some n
                 /\ children n = [] /\ i <= leaf
                 /\ leaf = first_leaf fuel (shape_of h) i.
Proof.
  intros Hok. revert i. induction fuel as [|fuel IH]; intros i Hi Hfuel; [lia|].
  destruct (lookup_lt_is_Some_2 h i Hi) as [n Hn].
  cbn [descend first_leaf]. unfold get. rewrite Hn, (shape_of_lookup h i n Hn).
  cbn [of_option]. rewrite bind_Ok.
  destruct (children n) as [|c rest] eqn:Hcs.
  { exists i, n. by repeat split. }
  rewrite (select_first_child h i n c rest Hok Hn Hcs), bind_Ok.
  destruct (ok_children h Hok i n c Hn) as (Hlt & cn & Hcn & _).
  { rewrite Hcs. apply elem_of_cons. by left. }
  pose proof (lookup_lt_Some _ _ _ Hcn) as Hc.
  destruct (IH c Hc) as (leaf & nl & Hrun & Hnl & Hleaf & Hle & Hfl); [lia|].
  exists leaf, nl. repeat split; (done || lia).
Qed.

(** ** Simulated and fresh nodes *)

(** A simulated node has an evaluation and a first sample, its own reward. *)
Definition simulated (G : Q -> Prop) (n : Node) : Prop :=
  is_Some (evaluation n) /\ exists r rs, reward_samples n = r :: rs /\ G r.

(** A node as [add_child] leaves it. *)
Definition fresh (n : Node) : Prop :=
  evaluation n = None /\ reward_samples n = [].

(** Every node below the root is simulated, but for the pending ones. *)
Definition simulated_except (G : Q -> Prop) (pending : list nat) (h : heap) : Prop :=
  forall i n p, h !! i = Some n -> parent n = Some p -> i ∉ pending -> simulated G n.

Lemma simulated_add_reward (G : Q -> Prop) (r : Q) (n : Node) :
  simulated G n -> simulated G (add_reward r n).
Proof.
  intros [Hev (r0 & rs & Hrs & HG)]. split; [done|].
  exists r0, (rs ++ [r]). simpl. by rewrite Hrs.
Qed.

Lemma simulated_first (G : Q -> Prop) (r : Q) (ev : string) (n : Node) :
  fresh n -> G r -> simulated G (add_reward r (set_evaluation (Some ev) n)).
Proof.
  intros [_ Hrs] HG. split; [by eexists|].
  exists r, []. simpl. by rewrite Hrs.
Qed.

(** The nodes after a simulation of [c]. *)
Lemma simulate_lookup (h : heap) (c : nat) (r : Q) (ev : string) (k : nat) (n' : Node) :
  links_wf h -> c < length h ->
  alter_all (add_reward r) (path h c) (alter (set_evaluation (Some ev)) c h) !! k
    = Some n' ->
  exists n, h !! k = Some n /\
    ((n' = n /\ k ∉ path h c) \/
     (k <> c /\ n' = add_reward r n) \/
     (k = c /\ n' = add_reward r (set_evaluation (Some ev) n))).
Proof.
  intros Hwf Hc Hk.
  destruct (decide (k ∈ path h c)) as [Hin|Hnin].
  - rewrite alter_all_lookup_in in Hk; [|by apply path_NoDup|done].
    destruct (decide (k = c)) as [->|Hne].
    + rewrite list_lookup_alter_eq in Hk.
      destruct (h !! c) as [n|]; simpl in Hk; [|done]. exists n. split; [done|].
      right. right. by simplify_eq.
    + rewrite list_lookup_alter_ne in Hk by done.
      destruct (h !! k) as [n|]; simpl in Hk; [|done]. exists n. split; [done|].
      right. left. by simplify_eq.
  - rewrite alter_all_lookup_notin in Hk by done.
    rewrite list_lookup_alter_ne in Hk.
    + exists n'. split; [done|]. by left.
    + intros ->. apply Hnin. by apply path_self.
Qed.

(** ** The search loop *)

Section SearchLoop.

Variable E : Env.

(** [G] holds of the reward of a simulation without the submit signal and
    [W] of the reward of one with it. *)
Variables G W : Q -> Prop.
Hypothesis signal_off : forall k code,
  to_submit_signal (solution_eval E k code) = false ->
  G (simulate_score (solution_eval E k code)).
Hypothesis signal_on : forall k code,
  to_submit_signal (solution_eval E k code) = true ->
  W (simulate_score (solution_eval E k code)).

Lemma simulate_children_spec (leaf : nat) (cs : list nat) (m : MCTS) :
  tree_ok (nodes m) ->
  (forall c, c ∈ cs ->
     leaf < c /\ exists n, nodes m !! c = Some n /\ parent n = Some leaf /\ fresh n) ->
  NoDup cs ->
  simulated_except G cs (nodes m) ->
  exists m' found,
    simulate_children E m cs = Ok (m', found) /\
    same_links (nodes m) (nodes m') /\
    depth_limit m' = depth_limit m /\
    match found with
    | None => simulated_except G [] (nodes m')
    | Some c =>
        exists pre post,
          cs = pre ++ c :: post /\
          simulated_except G (c :: post) (nodes m') /\
          (exists n, nodes m' !! c = Some n /\ simulated W n) /\
          (forall c', c' ∈ post -> exists n', nodes m' !! c' = Some n' /\ fresh n')
    end.
Proof.
  revert m. induction cs as [|c cs IH]; intros m Hok Hcs Hnd Hsim.
  { exists m, None. split; [done|]. split; [apply same_links_refl|]. by split. }
  destruct (Hcs c) as (Hleaf & nc & Hnc & Hpc & Hfresh).
  { apply elem_of_cons. by left. }
  apply NoDup_cons in Hnd as [Hc_notin Hnd].
  pose proof (ok_links _ Hok) as Hwf.
  pose proof (lookup_lt_Some _ _ _ Hnc) as Hc_lt.
  cbn [simulate_children].
  rewrite (simulate_spec E m c nc Hwf Hnc), bind_Ok. cbn beta iota.
  set (s := simulate_outcome E m nc).
  set (r := simulate_score s). set (ev := simulate_evaluation s).
  set (h1 := alter_all (add_reward r) (path (nodes m) c)
               (alter (set_evaluation (Some ev)) c (nodes m))).
  set (m1 := {| nodes := h1; root := root m; depth_limit := depth_limit m;
                sm := sm m ++ [worker E (calls m) (py_str (state nc))];
                calls := calls m + 2 |}).
  assert (Hsame : same_links (nodes m) h1).
  { eapply same_links_trans; [apply same_links_alter | apply same_links_alter_all]; done. }
  assert (Hpath : forall k, k ∈ path (nodes m) c -> k = c \/ k <= leaf).
  { intros k Hk. rewrite (path_unfold _ c nc Hwf Hnc), Hpc in Hk.
    apply elem_of_cons in Hk as [->|Hk]; [by left|]. right.
    by apply (path_le (nodes m) leaf k Hwf). }
  assert (Hlater : forall k, k ∈ cs -> h1 !! k = nodes m !! k).
  { intros k Hk. subst h1.
    assert (Hk_notin : k ∉ path (nodes m) c).
    { intros Hin. destruct (Hpath k Hin) as [->|Hle]; [done|].
      destruct (Hcs k) as (Hlt & _); [apply elem_of_cons; by right | lia]. }
    rewrite alter_all_lookup_notin by done.
    apply list_lookup_alter_ne. intros ->. done. }
  assert (Hc1 : h1 !! c = Some (add_reward r (set_evaluation (Some ev) nc))).
  { subst h1. rewrite alter_all_lookup_in;
      [by rewrite list_lookup_alter_eq, Hnc | by apply path_NoDup | by apply path_self]. }
  assert (Hkeep : forall i n' p, h1 !! i = Some n' -> parent n' = Some p ->
                    i <> c -> i ∉ cs -> simulated G n').
  { intros i n' p Hi Hp Hne Hnin.
    destruct (simulate_lookup _ _ _ _ _ _ Hwf Hc_lt Hi) as (n & Hn & Hcase).
    assert (Hsn : forall q, parent n = Some q -> simulated G n).
    { intros q Hq. apply (Hsim i n q Hn Hq).
      intros Hin. apply elem_of_cons in Hin as [->|Hin]; done. }
    destruct Hcase as [[-> _]|[[_ ->]|[-> _]]]; [by eapply Hsn | | done].
    apply simulated_add_reward. by eapply Hsn. }
  destruct (to_submit_signal s) eqn:Hsig.
  - exists m1, (Some c). split; [done|]. split; [done|]. split; [done|].
    exists [], cs. split; [done|]. split; [|split].
    + intros i n' p Hi Hp Hnin. apply not_elem_of_cons in Hnin as [Hne Hnin].
      by eapply Hkeep.
    + eexists. split; [exact Hc1|].
      split; [by eexists|]. exists r, []. destruct Hfresh as [_ Hrs].
      simpl. rewrite Hrs. split; [done|]. by apply signal_on.
    + intros c' Hc'. destruct (Hcs c') as (_ & n' & Hn' & _ & Hf').
      { apply elem_of_cons. by right. }
      exists n'. split; [|done]. cbn [nodes m1]. by rewrite Hlater.
  - assert (HGr : G r) by (by apply signal_off).
    destruct (IH m1) as (m' & found & Hrun & Hsame' & Hd & Hfound).
    + by apply (tree_ok_same_links (nodes m) h1).
    + intros c' Hc'. destruct (Hcs c') as (Hlt & n' & Hn' & Hp' & Hf').
      { apply elem_of_cons. by right. }
      split; [done|]. exists n'. cbn [nodes m1]. by rewrite Hlater.
    + done.
    + intros i n' p Hi Hp Hnin. cbn [nodes m1] in Hi.
      destruct (decide (i = c)) as [->|Hne]; [|by eapply Hkeep].
      rewrite Hc1 in Hi. simplify_eq. by apply simulated_first.
    + exists m', found. split; [done|]. split.
      { eapply same_links_trans; [exact Hsame | exact Hsame']. }
      split; [done|]. destruct found as [c2|]; [|done].
      destruct Hfound as (pre & post & -> & H1 & H2 & H3).
      exists (c :: pre), post. split; [done|]. split; [done|]. by split.
Qed.

Lemma simulated_set_children (cs : list nat) (n : Node) :
  simulated G n -> simulated G (set_children cs n).
Proof. done. Qed.

Lemma simulated_except_grow (h : heap) (leaf : nat) (out : string) (d : nat)
    (pending pending' : list nat) :
  simulated_except G pending h ->
  (forall i, i ∉ pending' -> i <> length h /\ i ∉ pending) ->
  simulated_except G pending' (grow h leaf out d).
Proof.
  intros Hsim Hsub i n' p Hi Hp Hnin.
  destruct (Hsub i Hnin) as [Hne Hnin'].
  apply grow_lookup_inv in Hi as [[-> ->]|[[Hne' Hi]|[-> (n0 & Hn0 & ->)]]].
  - done.
  - by eapply Hsim.
  - apply simulated_set_children. by eapply Hsim.
Qed.

(** Once every node below the root is simulated, the context of any leaf
    can be built. *)
Lemma context_ok (h : heap) (leaf : nat) :
  tree_ok h -> simulated_except G [] h ->
  Forall (fun i => exists n st ev, h !! i = Some n /\ is_Some (parent n)
                     /\ state n = Some st /\ evaluation n = Some ev)
         (walked h leaf) /\
  exists hist, mapM (history_entry h) (walked h leaf) = Some hist.
Proof.
  intros Hok Hsim.
  assert (Hall : Forall (fun i => exists n st ev, h !! i = Some n /\ is_Some (parent n)
                     /\ state n = Some st /\ evaluation n = Some ev) (walked h leaf)).
  { apply Forall_forall. intros i Hi. unfold walked in Hi.
    apply list_elem_of_In, filter_In in Hi as [_ Hpar]. unfold has_parent in Hpar.
    destruct (h !! i) as [n|] eqn:Hn; [|done].
    destruct (parent n) as [p|] eqn:Hp; [|done].
    destruct (ok_state h Hok i n p Hn Hp) as [st Hst].
    destruct (Hsim i n p Hn Hp) as [[ev Hev] _]; [apply not_elem_of_nil|].
    exists n, st, ev. by repeat split. }
  split; [done|]. apply mapM_is_Some_2. eapply Forall_impl; [exact Hall|].
  intros i (n & st & ev & Hn & _ & Hst & Hev). unfold compose, history_entry.
  rewrite Hn. simpl. rewrite Hst. simpl. rewrite Hev. by eexists.
Qed.

(** The node that an iteration returns: a child of the expanded leaf whose
    simulation raised the signal; its elder siblings were simulated without
    the signal and its younger siblings are as [add_child] left them. *)
Definition returned_child (h : heap) (c : nat) : Prop :=
  exists leaf nl pre post,
    h !! leaf = Some nl /\ children nl = pre ++ c :: post /\
    (exists n, h !! c = Some n /\ simulated W n) /\
    (forall c', c' ∈ pre -> exists n', h !! c' = Some n' /\ simulated G n') /\
    (forall c', c' ∈ post -> exists n', h !! c' = Some n' /\ fresh n').

(** One iteration of the loop of [mcts_trial]. *)
Lemma iteration_spec (m : MCTS) (cur : nat) :
  tree_ok (nodes m) -> simulated_except G [] (nodes m) -> cur < length (nodes m) ->
  exists leaf nl m1 n1 m2 found,
    descend (length (nodes m)) (nodes m) cur = Ok leaf /\
    nodes m !! leaf = Some nl /\ children nl = [] /\
    expand E m leaf = Ok m1 /\
    nodes m1 !! leaf = Some n1 /\
    simulate_children E m1 (children n1) = Ok (m2, found) /\
    tree_ok (nodes m2) /\ depth_limit m2 = depth_limit m /\
    leaf < length (nodes m2) /\
    (shape_of (nodes m2), leaf) = sk_step (depth_limit m) (shape_of (nodes m), cur) /\
    match found with
    | None => simulated_except G [] (nodes m2)
    | Some c => returned_child (nodes m2) c
    end.
Proof.
  intros Hok Hsim Hcur.
  destruct (descend_spec (length (nodes m)) (nodes m) cur Hok Hcur)
    as (leaf & nl & Hdesc & Hnl & Hleafcs & _ & Hfl); [lia|].
  pose proof (lookup_lt_Some _ _ _ Hnl) as Hleaf.
  assert (Hstep : sk_step (depth_limit m) (shape_of (nodes m), cur)
                  = if depth_limit m <=? depth nl then (shape_of (nodes m), leaf)
                    else (sk_grow (sk_grow (shape_of (nodes m)) leaf (depth nl + 1))
                                  leaf (depth nl + 1), leaf)).
  { unfold sk_step. cbn [fst snd]. rewrite shape_of_length, <- Hfl.
    by rewrite (shape_of_lookup _ _ _ Hnl). }
  rewrite Hstep. clear Hstep.
  exists leaf, nl. rewrite (expand_spec E m leaf nl Hnl).
  destruct (depth_limit m <=? depth nl).
  { exists m, nl, m, None. rewrite Hleafcs. by repeat (split; [done|]). }
  rewrite (build_prompt_with_feedback_spec E _ leaf (ok_links _ Hok) Hleaf).
  destruct (context_ok (nodes m) leaf Hok Hsim) as (_ & hist & ->).
  rewrite bind_Ok. cbn zeta.
  set (msgs := _ :: rev hist ++ [closing_message]).
  set (o0 := strip (mcts_openai_messages E (calls m) msgs 0)).
  set (o1 := strip (mcts_openai_messages E (calls m) msgs 1)).
  set (L := length (nodes m)).
  set (g1 := grow (nodes m) leaf o0 (depth nl + 1)).
  set (g2 := grow g1 leaf o1 (depth nl + 1)).
  set (m1 := tick 1 (with_nodes g2 m)).
  assert (Hg1len : length g1 = S L) by apply grow_length.
  assert (Hn1 : g1 !! leaf = Some (set_children (children nl ++ [L]) nl))
    by (by apply grow_lookup_leaf).
  assert (Hok1 : tree_ok g1) by (by apply tree_ok_grow).
  assert (Hok2 : tree_ok g2).
  { subst g2. change (depth nl + 1) with
      (depth (set_children (children nl ++ [L]) nl) + 1). by apply tree_ok_grow. }
  assert (Hn2 : g2 !! leaf
                = Some (set_children ((children nl ++ [L]) ++ [S L])
                          (set_children (children nl ++ [L]) nl))).
  { subst g2. rewrite (grow_lookup_leaf g1 leaf _ o1 _ Hn1). by rewrite Hg1len. }
  assert (HL : g2 !! L = Some (Node_init (Some o0) (Some leaf) None (depth nl + 1))).
  { subst g2. rewrite grow_lookup_other by lia. apply grow_lookup_new. }
  assert (HSL : g2 !! S L = Some (Node_init (Some o1) (Some leaf) None (depth nl + 1))).
  { subst g2. rewrite <- Hg1len. apply grow_lookup_new. }
  eexists m1, _. 
  destruct (simulate_children_spec leaf [L; S L] m1) as (m2 & found & Hrun & Hsame & Hd & Hfound).
  { done. }
  { intros c Hc. apply elem_of_cons in Hc as [->|Hc].
    - split; [done|]. eexists. split; [exact HL|]. by repeat split.
    - apply list_elem_of_singleton in Hc as ->.
      split; [lia|]. eexists. split; [exact HSL|]. by repeat split. }
  { apply NoDup_cons. split; [|apply NoDup_singleton].
    intros Hin. apply list_elem_of_singleton in Hin. lia. }
  { cbn [nodes m1 tick with_nodes]. subst g2.
    apply (simulated_except_grow g1 leaf o1 _ [L]).
    - subst g1. apply (simulated_except_grow (nodes m) leaf o0 _ []); [done|].
      intros i Hi. apply not_elem_of_cons in Hi as [Hi _]. split; [done|].
      apply not_elem_of_nil.
    - intros i Hi. rewrite Hg1len.
      apply not_elem_of_cons in Hi as [Hi1 Hi2].
      apply not_elem_of_cons in Hi2 as [Hi2 _]. split; [done|].
      intros Hin. by apply list_elem_of_singleton in Hin. }
  exists m2, found. split; [done|]. split; [done|]. split; [done|].
  split; [done|]. split; [exact Hn2|]. cbn [children set_children].
  rewrite Hleafcs. cbn [app]. split; [exact Hrun|].
  assert (Hok' : tree_ok (nodes m2)) by (by apply (tree_ok_same_links g2)).
  split; [done|]. split; [done|].
  destruct (same_links_lookup _ _ _ _ Hsame Hn2) as (n2 & Hl2 & _ & Hcs2 & _).
  split; [by eapply lookup_lt_Some|].
  split.
  { f_equal. rewrite (same_links_shape _ _ Hsame). cbn [nodes m1 tick with_nodes].
    subst g2 g1. by rewrite !shape_of_grow. }
  destruct found as [c|]; [|done].
  destruct Hfound as (pre & post & Hsplit & Hexc & Hc & Hpost).
  exists leaf, n2, pre, post. split; [done|]. split.
  { rewrite Hcs2. cbn [children set_children]. by rewrite Hleafcs. }
  split; [done|]. split; [|done].
  intros c' Hc'.
  assert (Hin : c' ∈ children n2).
  { rewrite Hcs2. cbn [children set_children]. rewrite Hleafcs. cbn [app].
    rewrite Hsplit. apply elem_of_app. by left. }
  destruct (ok_children _ Hok' leaf n2 c' Hl2 Hin) as (_ & cn & Hcn & Hpar).
  exists cn. split; [done|]. apply (Hexc c' cn leaf Hcn Hpar).
  assert (Hnd : NoDup (pre ++ c :: post)).
  { rewrite <- Hsplit. apply NoDup_cons. split; [|apply NoDup_singleton].
    intros Hx. apply list_elem_of_singleton in Hx. lia. }
  apply NoDup_app in Hnd as (_ & Hdisj & _). by apply Hdisj.
Qed.

(** The loop returns, whatever the collaborators answer. *)
Lemma mcts_loop_spec (remaining step : nat) (m : MCTS) (cur : nat) :
  tree_ok (nodes m) -> simulated_except G [] (nodes m) -> cur < length (nodes m) ->
  exists m' res step',
    mcts_loop E remaining step m cur = Ok (m', res, step') /\
    tree_ok (nodes m') /\
    match res with
    | None => step' = step + remaining /\ simulated_except G [] (nodes m')
    | Some c => step' < step + remaining /\ returned_child (nodes m') c
    end.
Proof.
  revert step m cur.
  induction remaining as [|remaining IH]; intros step m cur Hok Hsim Hcur.
  { exists m, None, step. split; [done|]. split; [done|]. split; [lia | done]. }
  destruct (iteration_spec m cur Hok Hsim Hcur)
    as (leaf & nl & m1 & n1 & m2 & found & Hd & _ & _ & He & Hn1 & Hs & Hok2 & _ & Hlt & _ & Hf).
  cbn [mcts_loop]. rewrite Hd, bind_Ok, He, bind_Ok.
  unfold get. rewrite Hn1. cbn [of_option]. rewrite bind_Ok, Hs, bind_Ok.
  cbn beta iota. destruct found as [c|].
  - exists m2, (Some c), step. split; [done|]. split; [done|]. split; [lia | done].
  - destruct (IH (S step) m2 leaf Hok2 Hf Hlt) as (m' & res & step' & Hrun & Hok' & Hres).
    exists m', res, step'. split; [done|]. split; [done|].
    destruct res; (split; [lia | tauto]).
Qed.

End SearchLoop.

(** The loop heads of a run of [mcts_trial] on the engine [m0]: the engine
    and [current_node] each time the test [step < max_steps] is reached. *)
Inductive loop_head (E : Env) (m0 : MCTS) : MCTS -> nat -> Prop :=
| head_first :
    loop_head E m0 (zero_shot_initialization E m0)
      (root (zero_shot_initialization E m0))
| head_next (m : MCTS) (cur leaf : nat) (m1 : MCTS) (n : Node) (m2 : MCTS) :
    loop_head E m0 m cur ->
    descend (length (nodes m)) (nodes m) cur = Ok leaf ->
    expand E m leaf = Ok m1 ->
    get (nodes m1) leaf = Ok n ->
    simulate_children E m1 (children n) = Ok (m2, None) ->
    loop_head E m0 m2 leaf.

Lemma tree_ok_initial (E : Env) (m : MCTS) :
  tree_ok (nodes (zero_shot_initialization E m)).
Proof.
  split; simpl.
  - intros [|i] n p Hn Hp; simpl in Hn; by simplify_eq.
  - intros [|i] n Hn; simpl in Hn; by simplify_eq.
  - intros [|i] n c Hn Hc; simpl in Hn; simplify_eq.
    simpl in Hc. by apply elem_of_nil in Hc.
  - intros [|i] n Hn; simpl in Hn; by simplify_eq.
  - intros [|i] n p Hn Hp; simpl in Hn; by simplify_eq.
Qed.

Lemma simulated_except_initial (G : Q -> Prop) (E : Env) (m : MCTS) :
  simulated_except G [] (nodes (zero_shot_initialization E m)).
Proof. intros [|i] n p Hn Hp; simpl in Hn; by simplify_eq. Qed.

Lemma loop_head_inv (E : Env) (m0 m : MCTS) (cur : nat) :
  loop_head E m0 m cur ->
  tree_ok (nodes m) /\ simulated_except (fun _ => True) [] (nodes m)
  /\ cur < length (nodes m).
Proof.
  induction 1 as [|m cur leaf m1 n m2 _ (Hok & Hsim & Hcur) Hd He Hn Hs].
  - split; [apply tree_ok_initial|]. split; [apply simulated_except_initial|].
    simpl. lia.
  - destruct (iteration_spec E (fun _ => True) (fun _ => True)
                (fun _ _ _ => I) (fun _ _ _ => I) m cur Hok Hsim Hcur)
      as (leaf' & nl & m1' & n1 & m2' & found & Hd' & _ & _ & He' & Hn1 & Hs'
          & Hok2 & _ & Hlt & _ & Hf).
    rewrite Hd in Hd'. simplify_eq. rewrite He in He'. simplify_eq.
    apply get_Ok in Hn. rewrite Hn in Hn1. simplify_eq.
    rewrite Hs in Hs'. simplify_eq. done.
Qed.

(** The loop goes from loop head to loop head: from a loop head, an
    iteration either returns a child or reaches the next loop head, where
    the loop goes on. *)
Lemma mcts_loop_follows_loop_heads (E : Env) (m0 m : MCTS) (cur remaining step : nat) :
  loop_head E m0 m cur ->
  exists leaf m2 found,
    mcts_loop E (S remaining) step m cur =
      match found with
      | Some child => Ok (m2, Some child, step)
      | None => mcts_loop E remaining (S step) m2 leaf
      end /\
    (found = None -> loop_head E m0 m2 leaf).
Proof.
  intros Hhead. destruct (loop_head_inv E m0 m cur Hhead) as (Hok & Hsim & Hcur).
  destruct (iteration_spec E (fun _ => True) (fun _ => True)
              (fun _ _ _ => I) (fun _ _ _ => I) m cur Hok Hsim Hcur)
    as (leaf & nl & m1 & n1 & m2 & found & Hd & _ & _ & He & Hn1 & Hs & _).
  exists leaf, m2, found. split.
  - cbn [mcts_loop]. rewrite Hd, bind_Ok, He, bind_Ok.
    unfold get. rewrite Hn1. cbn [of_option]. by rewrite bind_Ok, Hs, bind_Ok.
  - intros ->. eapply head_next; eauto. by apply get_Ok.
Qed.

(** A run in which no simulation raises the submit signal goes through all
    its iterations, and its skeleton is the one [sk_run] computes. *)
Lemma mcts_loop_unsolved (E : Env) :
  (forall k code, to_submit_signal (solution_eval E k code) = false) ->
  forall remaining step m cur,
    tree_ok (nodes m) -> simulated_except (fun _ => True) [] (nodes m) ->
    cur < length (nodes m) ->
    exists m',
      mcts_loop E remaining step m cur = Ok (m', None, step + remaining) /\
      shape_of (nodes m')
      = (sk_run (depth_limit m) remaining (shape_of (nodes m), cur)).1.
Proof.
  intros Hsig.
  induction remaining as [|remaining IH]; intros step m cur Hok Hsim Hcur.
  { exists m. split; [|done]. simpl. by rewrite Nat.add_0_r. }
  assert (Hon : forall k code,
             to_submit_signal (solution_eval E k code) = true -> False).
  { intros k code H. rewrite Hsig in H. discriminate H. }
  destruct (iteration_spec E (fun _ => True) (fun _ => False) (fun _ _ _ => I) Hon
              m cur Hok Hsim Hcur)
    as (leaf & nl & m1 & n1 & m2 & found & Hd & _ & _ & He & Hn1 & Hs & Hok2 & HD
        & Hlt & Hsk & Hf).
  cbn [mcts_loop sk_run]. rewrite Hd, bind_Ok, He, bind_Ok.
  unfold get. rewrite Hn1. cbn [of_option]. rewrite bind_Ok, Hs, bind_Ok.
  cbn beta iota. rewrite <- Hsk. destruct found as [c|].
  { destruct Hf as (_ & _ & _ & _ & _ & _ & (n & _ & _ & r & rs & _ & []) & _). }
  destruct (IH (S step) m2 leaf Hok2 Hf Hlt) as (m' & Hrun & Hshape).
  exists m'. split.
  - rewrite Hrun. by replace (step + S remaining) with (S step + remaining) by lia.
  - by rewrite Hshape, HD.
Qed.

(** ** The chain that a run grows *)

(** Every run follows the skeleton machine: the skeleton of the final tree
    is the one [sk_run] computes for the number of iterations entered. *)
Lemma mcts_loop_shape (E : Env) (remaining step : nat) (m : MCTS) (cur : nat) :
  tree_ok (nodes m) -> simulated_except (fun _ => True) [] (nodes m) ->
  cur < length (nodes m) ->
  exists m' res step',
    mcts_loop E remaining step m cur = Ok (m', res, step') /\
    step <= step' /\
    shape_of (nodes m')
    = (sk_run (depth_limit m)
         (match res with None => remaining | Some _ => S (step' - step) end)
         (shape_of (nodes m), cur)).1.
Proof.
  revert step m cur.
  induction remaining as [|remaining IH]; intros step m cur Hok Hsim Hcur.
  { exists m, None, step. by repeat split. }
  destruct (iteration_spec E (fun _ => True) (fun _ => True)
              (fun _ _ _ => I) (fun _ _ _ => I) m cur Hok Hsim Hcur)
    as (leaf & nl & m1 & n1 & m2 & found & Hd & _ & _ & He & Hn1 & Hs & Hok2 & HD
        & Hlt & Hsk & Hf).
  cbn [mcts_loop]. rewrite Hd, bind_Ok, He, bind_Ok.
  unfold get. rewrite Hn1. cbn [of_option]. rewrite bind_Ok, Hs, bind_Ok.
  cbn beta iota. destruct found as [c|].
  - exists m2, (Some c), step. split; [done|]. split; [lia|].
    rewrite Nat.sub_diag. cbn [sk_run]. by rewrite <- Hsk.
  - destruct (IH (S step) m2 leaf Hok2 Hf Hlt) as (m' & res & step' & Hrun & Hle & Hshape).
    exists m', res, step'. split; [done|]. split; [lia|].
    rewrite Hshape, HD.
    replace (match res with None => S remaining | Some _ => S (step' - step) end)
      with (S (match res with None => remaining | Some _ => S (step' - S step) end)).
    + cbn [sk_run]. by rewrite <- Hsk.
    + destruct res; [f_equal; lia | done].
Qed.

Lemma sk_grow_length (sk : list (nat * list nat)) (leaf d : nat) :
  length (sk_grow sk leaf d) = S (length sk).
Proof. unfold sk_grow. rewrite length_app, length_alter. simpl. lia. Qed.

Lemma sk_grow_lookup_old (sk : list (nat * list nat)) (leaf d k : nat) :
  k < length sk ->
  sk_grow sk leaf d !! k = alter (fun s => (s.1, s.2 ++ [length sk])) leaf sk !! k.
Proof.
  intros Hk. unfold sk_grow. by rewrite lookup_app_l by (rewrite length_alter; lia).
Qed.

Lemma sk_grow_lookup_new (sk : list (nat * list nat)) (leaf d : nat) :
  sk_grow sk leaf d !! length sk = Some (d, []).
Proof.
  unfold sk_grow. rewrite lookup_app_r by (rewrite length_alter; lia).
  by rewrite length_alter, Nat.sub_diag.
Qed.

(** The skeleton after the two rounds of an expansion. *)
Lemma sk_grow_twice (sk : list (nat * list nat)) (leaf d : nat) (cs : list nat) :
  sk !! leaf = Some (d, cs) ->
  let g := sk_grow (sk_grow sk leaf (d + 1)) leaf (d + 1) in
  length g = length sk + 2 /\
  g !! leaf = Some (d, cs ++ [length sk; S (length sk)]) /\
  g !! length sk = Some (d + 1, []) /\
  g !! S (length sk) = Some (d + 1, []) /\
  (forall k, k <> leaf -> k < length sk -> g !! k = sk !! k).
Proof.
  intros Hleaf g. pose proof (lookup_lt_Some _ _ _ Hleaf) as Hlt. subst g.
  set (g1 := sk_grow sk leaf (d + 1)).
  assert (Hlen1 : length g1 = S (length sk)) by apply sk_grow_length.
  split; [rewrite sk_grow_length; lia|]. split; [|split; [|split]].
  - rewrite sk_grow_lookup_old by lia. rewrite list_lookup_alter_eq.
    unfold g1. rewrite sk_grow_lookup_old by lia.
    rewrite list_lookup_alter_eq, Hleaf. fold g1. rewrite Hlen1. simpl.
    by rewrite <- app_assoc.
  - rewrite sk_grow_lookup_old by lia. rewrite list_lookup_alter_ne by lia.
    apply sk_grow_lookup_new.
  - rewrite <- Hlen1. apply sk_grow_lookup_new.
  - intros k Hne Hk. rewrite sk_grow_lookup_old by lia.
    rewrite list_lookup_alter_ne by done. unfold g1.
    rewrite sk_grow_lookup_old by lia. by rewrite list_lookup_alter_ne.
Qed.

(** A chain of [j] levels: the root, and on each level [t] from 1 to [j] the
    two nodes [2 t - 1] and [2 t]; the first of them carries the next level,
    the second has no child. *)
Definition chain_tree (j : nat) (sk : list (nat * list nat)) : Prop :=
  length sk = 1 + 2 * j /\
  sk !! 0 = Some (0, if j =? 0 then [] else [1; 2]) /\
  forall t, 1 <= t <= j ->
    sk !! (2 * t - 1) = Some (t, if t <? j then [2 * t + 1; 2 * t + 2] else []) /\
    sk !! (2 * t) = Some (t, []).

(** The leaf at the end of the chain, and the node the loop stands on after
    the [j]-th expansion. *)
Definition chain_leaf (j : nat) : nat := if j =? 0 then 0 else 2 * j - 1.
Definition chain_cur (j : nat) : nat := if j <=? 1 then 0 else 2 * j - 3.

Lemma chain_tree_leaf (j : nat) (sk : list (nat * list nat)) :
  chain_tree j sk -> sk !! chain_leaf j = Some (j, []).
Proof.
  intros (Hlen & Hroot & Hlev). unfold chain_leaf.
  destruct (Nat.eqb_spec j 0) as [->|Hj]; [done|].
  destruct (Hlev j) as [H1 _]; [lia|]. by rewrite Nat.ltb_irrefl in H1.
Qed.

Lemma chain_first_leaf (j : nat) (sk : list (nat * list nat)) (cur : nat) :
  chain_tree j sk -> cur = chain_cur j \/ cur = chain_leaf j ->
  first_leaf (length sk) sk cur = chain_leaf j.
Proof.
  intros Hch Hcur. pose proof (chain_tree_leaf j sk Hch) as Hleaf.
  assert (Hstay : forall fuel, first_leaf fuel sk (chain_leaf j) = chain_leaf j).
  { intros [|fuel]; cbn [first_leaf]; by rewrite Hleaf. }
  destruct Hcur as [->| ->]; [|apply Hstay].
  destruct Hch as (Hlen & Hroot & Hlev). rewrite Hlen.
  unfold chain_cur. destruct (Nat.leb_spec j 1) as [Hj|Hj].
  - destruct j as [|[|j]]; [apply (Hstay (1 + 2 * 0)) | | lia].
    cbn [first_leaf Nat.add Nat.mul]. rewrite Hroot. cbn [Nat.eqb].
    apply (Hstay 2).
  - destruct (Hlev (j - 1)) as [H1 _]; [lia|].
    replace (2 * (j - 1) - 1) with (2 * j - 3) in H1 by lia.
    destruct (Nat.ltb_spec (j - 1) j); [|lia].
    cbn [first_leaf Nat.add]. rewrite H1.
    replace (2 * (j - 1) + 1) with (chain_leaf j)
      by (unfold chain_leaf; destruct (Nat.eqb_spec j 0); lia).
    apply Hstay.
Qed.

Lemma chain_step (D j : nat) (sk : list (nat * list nat)) (cur : nat) :
  chain_tree j sk -> cur = chain_cur j \/ cur = chain_leaf j ->
  exists sk' cur',
    sk_step D (sk, cur) = (sk', cur') /\
    if D <=? j then sk' = sk /\ cur' = chain_leaf j
    else chain_tree (S j) sk' /\ cur' = chain_cur (S j).
Proof.
  intros Hch Hcur. unfold sk_step. cbn [fst snd].
  rewrite (chain_first_leaf j sk cur Hch Hcur), (chain_tree_leaf j sk Hch).
  destruct (D <=? j); [by eexists _, _|].
  eexists _, _. split; [done|].
  destruct (sk_grow_twice sk (chain_leaf j) j [] (chain_tree_leaf j sk Hch))
    as (Hlen' & Hleaf' & Hn1 & Hn2 & Hold).
  destruct Hch as (Hlen & Hroot & Hlev). rewrite Hlen in *.
  split.
  - split; [lia|]. split.
    + unfold chain_leaf in *. destruct (Nat.eqb_spec j 0) as [->|Hj].
      * rewrite Hleaf'. done.
      * rewrite Hold by lia. rewrite Hroot.
        destruct (Nat.eqb_spec j 0); [lia | done].
    + intros t Ht. destruct (decide (t = S j)) as [->|Hne].
      * rewrite Nat.ltb_irrefl.
        replace (2 * S j - 1) with (1 + 2 * j) by lia.
        replace (2 * S j) with (S (1 + 2 * j)) by lia.
        replace (j + 1) with (S j) in * by lia. done.
      * destruct (Hlev t) as [H1 H2]; [lia|].
        assert (Hleafj : chain_leaf j = 2 * j - 1 /\ j <> 0).
        { unfold chain_leaf. destruct (Nat.eqb_spec j 0); lia. }
        destruct Hleafj as [Hleafj Hj0]. split.
        -- destruct (decide (t = j)) as [->|Hne'].
           ++ rewrite <- Hleafj, Hleaf'.
              destruct (Nat.ltb_spec j (S j)); [|lia]. cbn [app].
              do 3 f_equal; [lia|]. f_equal. lia.
           ++ rewrite Hold by lia. rewrite H1.
              destruct (Nat.ltb_spec t j), (Nat.ltb_spec t (S j)); (done || lia).
        -- rewrite Hold by lia. done.
  - unfold chain_leaf, chain_cur.
    destruct (Nat.eqb_spec j 0), (Nat.leb_spec (S j) 1); lia.
Qed.

Lemma chain_run (D n j : nat) (sk : list (nat * list nat)) (cur : nat) :
  chain_tree j sk -> cur = chain_cur j \/ cur = chain_leaf j -> j <= D ->
  chain_tree (Nat.min (j + n) D) (sk_run D n (sk, cur)).1.
Proof.
  revert j sk cur. induction n as [|n IH]; intros j sk cur Hch Hcur Hj.
  { cbn [sk_run fst]. by replace (Nat.min (j + 0) D) with j by lia. }
  cbn [sk_run].
  destruct (chain_step D j sk cur Hch Hcur) as (sk' & cur' & -> & Hstep).
  destruct (Nat.leb_spec D j) as [HD|HD].
  - destruct Hstep as [-> ->].
    replace (Nat.min (j + S n) D) with (Nat.min (j + n) D) by lia.
    apply IH; [done | by right | done].
  - destruct Hstep as [Hch' ->].
    replace (j + S n) with (S j + n) by lia.
    apply IH; [done | by left | lia].
Qed.

Lemma chain_tree_initial : chain_tree 0 [(0, [])].
Proof. split; [done|]. split; [done|]. intros t Ht. lia. Qed.

(** ** What the evaluator said of each node *)

(** The node was simulated when the engine had made [k] collaborator calls:
    its evaluation and its first reward sample are those of the evaluator's
    answer on the worker's code for the node's own state, and the submit
    signal of that answer was [b]. *)
Definition judged (E : Env) (k : nat) (b : bool) (n : Node) : Prop :=
  let s := solution_eval E (k + 1) (worker E k (py_str (state n))) in
  evaluation n = Some (simulate_evaluation s) /\
  (exists rs, reward_samples n = simulate_score s :: rs) /\
  to_submit_signal s = b.

Definition judged_at (E : Env) (h : heap) (i k : nat) (b : bool) : Prop :=
  exists n, h !! i = Some n /\ judged E k b n.

Definition fresh_at (h : heap) (i : nat) : Prop :=
  exists n, h !! i = Some n /\ fresh n.

(** What later writes keep of a node: its state, its evaluation and the
    samples it has. *)
Definition carried (n n' : Node) : Prop :=
  state n' = state n /\ evaluation n' = evaluation n /\
  exists rs, reward_samples n' = reward_samples n ++ rs.

Lemma carried_refl (n : Node) : carried n n.
Proof. split; [done|]. split; [done|]. exists []. by rewrite app_nil_r. Qed.

Lemma carried_trans (n1 n2 n3 : Node) : carried n1 n2 -> carried n2 n3 -> carried n1 n3.
Proof.
  intros (Hs1 & He1 & rs1 & Hr1) (Hs2 & He2 & rs2 & Hr2).
  split; [congruence|]. split; [congruence|].
  exists (rs1 ++ rs2). by rewrite Hr2, Hr1, app_assoc.
Qed.

Lemma carried_add_reward (r : Q) (n : Node) : carried n (add_reward r n).
Proof. split; [done|]. split; [done|]. by exists [r]. Qed.

Lemma judged_carried (E : Env) (k : nat) (b : bool) (n n' : Node) :
  judged E k b n -> carried n n' -> judged E k b n'.
Proof.
  unfold judged. intros (Hev & (rs & Hrs) & Hb) (Hs & He & rs' & Hr).
  rewrite Hs. split; [congruence|]. split; [|done].
  exists (rs ++ rs'). by rewrite Hr, Hrs.
Qed.

Lemma carried_grow (h : heap) (leaf i : nat) (out : string) (d : nat) (n : Node) :
  h !! i = Some n ->
  exists n', grow h leaf out d !! i = Some n' /\ carried n n'.
Proof.
  intros Hn. destruct (grow_lookup_old h leaf i out d n Hn)
    as (n' & Hn' & _ & _ & _ & Hst & Hev & Hrs & _).
  exists n'. split; [done|]. split; [done|]. split; [done|].
  exists []. by rewrite app_nil_r.
Qed.

(** One simulation of a fresh node: the node is judged at the engine's call
    count, two calls are made, and the other nodes keep what they carry. *)
Lemma simulate_judged (E : Env) (m : MCTS) (c : nat) (nc : Node) :
  links_wf (nodes m) -> nodes m !! c = Some nc -> fresh nc ->
  exists m',
    simulate E m c = Ok (m', to_submit_signal (simulate_outcome E m nc)) /\
    calls m' = calls m + 2 /\
    same_links (nodes m) (nodes m') /\
    judged_at E (nodes m') c (calls m) (to_submit_signal (simulate_outcome E m nc)) /\
    (forall i n, nodes m !! i = Some n ->
       exists n', nodes m' !! i = Some n' /\ (i <> c -> carried n n')
                  /\ (i ∉ path (nodes m) c -> n' = n)).
Proof.
  intros Hwf Hnc [Hev Hrs].
  pose proof (lookup_lt_Some _ _ _ Hnc) as Hc.
  rewrite (simulate_spec E m c nc Hwf Hnc). cbn zeta.
  set (s := simulate_outcome E m nc).
  eexists. split; [reflexivity|]. cbn [calls nodes].
  split; [done|]. split.
  { eapply same_links_trans; [apply same_links_alter | apply same_links_alter_all]; done. }
  split.
  - eexists. split.
    + rewrite alter_all_lookup_in; [|by apply path_NoDup|by apply path_self].
      by rewrite list_lookup_alter_eq, Hnc.
    + unfold judged. cbn [state add_reward set_evaluation evaluation reward_samples].
      fold (simulate_outcome E m nc). fold s. rewrite Hrs.
      split; [done|]. split; [by exists []|done].
  - intros i n Hn. destruct (decide (i ∈ path (nodes m) c)) as [Hin|Hnin].
    + rewrite alter_all_lookup_in; [|by apply path_NoDup|done].
      destruct (decide (i = c)) as [->|Hne].
      * rewrite list_lookup_alter_eq, Hn. eexists. by split.
      * rewrite list_lookup_alter_ne, Hn by done. eexists. split; [done|].
        split; [intros _; apply carried_add_reward | done].
    + rewrite alter_all_lookup_notin by done.
      rewrite list_lookup_alter_ne.
      * exists n. split; [done|]. split; [intros _; apply carried_refl | done].
      * intros ->. apply Hnin. by apply path_self.
Qed.

(** One iteration, node by node: the nodes that were there keep what they
    carry; at the depth limit nothing else happens; below it the two new
    nodes [L] and [L + 1] are simulated in this order, at the call counts
    that follow the generator's call, until one raises the signal. *)
Lemma iteration_judged (E : Env) (m : MCTS) (leaf : nat) (nl : Node)
    (m1 : MCTS) (n1 : Node) (m2 : MCTS) (found : option nat) :
  tree_ok (nodes m) -> simulated_except (fun _ => True) [] (nodes m) ->
  nodes m !! leaf = Some nl -> children nl = [] ->
  expand E m leaf = Ok m1 -> nodes m1 !! leaf = Some n1 ->
  simulate_children E m1 (children n1) = Ok (m2, found) ->
  let L := length (nodes m) in
  (forall i n, nodes m !! i = Some n ->
     exists n', nodes m2 !! i = Some n' /\ carried n n') /\
  if depth_limit m <=? depth nl then m2 = m /\ found = None
  else
    match found with
    | None =>
        calls m2 = calls m + 5 /\
        judged_at E (nodes m2) L (calls m + 1) false /\
        judged_at E (nodes m2) (S L) (calls m + 3) false
    | Some c =>
        (c = L /\ judged_at E (nodes m2) L (calls m + 1) true
         /\ fresh_at (nodes m2) (S L)) \/
        (c = S L /\ judged_at E (nodes m2) L (calls m + 1) false
         /\ judged_at E (nodes m2) (S L) (calls m + 3) true)
    end.
Proof.
  intros Hok Hsim Hnl Hleafcs He Hn1 Hs L.
  pose proof (lookup_lt_Some _ _ _ Hnl) as Hleaf.
  rewrite (expand_spec E m leaf nl Hnl) in He.
  destruct (depth_limit m <=? depth nl).
  { injection He as <-. rewrite Hnl in Hn1. injection Hn1 as <-.
    rewrite Hleafcs in Hs. cbn [simulate_children] in Hs. injection Hs as <- <-.
    split; [|done]. intros i n Hn. exists n. split; [done | apply carried_refl]. }
  rewrite (build_prompt_with_feedback_spec E _ leaf (ok_links _ Hok) Hleaf) in He.
  destruct (context_ok (fun _ => True) (nodes m) leaf Hok Hsim) as (_ & hist & Hhist).
  rewrite Hhist, bind_Ok in He. cbn zeta in He.
  set (msgs := _ :: rev hist ++ [closing_message]) in He.
  set (o0 := strip (mcts_openai_messages E (calls m) msgs 0)) in He.
  set (o1 := strip (mcts_openai_messages E (calls m) msgs 1)) in He.
  set (g1 := grow (nodes m) leaf o0 (depth nl + 1)) in He.
  set (g2 := grow g1 leaf o1 (depth nl + 1)) in He.
  injection He as <-. cbn [nodes tick with_nodes] in Hn1.
  assert (Hg1len : length g1 = S L) by apply grow_length.
  assert (Hg1leaf : g1 !! leaf = Some (set_children (children nl ++ [L]) nl))
    by (by apply grow_lookup_leaf).
  assert (Hok1 : tree_ok g1) by (by apply tree_ok_grow).
  assert (Hok2 : tree_ok g2).
  { subst g2. change (depth nl + 1) with
      (depth (set_children (children nl ++ [L]) nl) + 1). by apply tree_ok_grow. }
  assert (Hg2leaf : g2 !! leaf
                    = Some (set_children ((children nl ++ [L]) ++ [S L])
                              (set_children (children nl ++ [L]) nl))).
  { subst g2. rewrite (grow_lookup_leaf g1 leaf _ o1 _ Hg1leaf). by rewrite Hg1len. }
  assert (HL : g2 !! L = Some (Node_init (Some o0) (Some leaf) None (depth nl + 1))).
  { subst g2. rewrite grow_lookup_other by lia. apply grow_lookup_new. }
  assert (HSL : g2 !! S L = Some (Node_init (Some o1) (Some leaf) None (depth nl + 1))).
  { subst g2. rewrite <- Hg1len. apply grow_lookup_new. }
  rewrite Hg2leaf in Hn1. injection Hn1 as <-.
  cbn [children set_children] in Hs. rewrite Hleafcs in Hs. cbn [app] in Hs.
  assert (Hold : forall i n, nodes m !! i = Some n ->
                   exists n', g2 !! i = Some n' /\ carried n n').
  { intros i n Hn. destruct (carried_grow (nodes m) leaf i o0 (depth nl + 1) n Hn)
      as (n' & Hn' & Hc'). fold g1 in Hn'.
    destruct (carried_grow g1 leaf i o1 (depth nl + 1) n' Hn') as (n'' & Hn'' & Hc'').
    exists n''. split; [done | by eapply carried_trans]. }
  set (ma := tick 1 (with_nodes g2 m)) in *.
  assert (Hwfa : links_wf (nodes ma)) by apply (ok_links _ Hok2).
  destruct (simulate_judged E ma L _ Hwfa HL) as (mb & Hrunb & Hcb & Hsameb & Hjb & Hfrb).
  { done. }
  assert (HpathL : forall k, k ∈ path (nodes ma) L -> k = L \/ k <= leaf).
  { intros k Hk. rewrite (path_unfold _ L _ Hwfa HL) in Hk. cbn [parent Node_init] in Hk.
    apply elem_of_cons in Hk as [->|Hk]; [by left|]. right.
    by apply (path_le (nodes ma) leaf k Hwfa). }
  assert (HSLb : nodes mb !! S L = Some (Node_init (Some o1) (Some leaf) None (depth nl + 1))).
  { destruct (Hfrb (S L) _ HSL) as (n' & Hn' & _ & Heq). rewrite Hn'. f_equal.
    apply Heq. intros Hin. destruct (HpathL _ Hin); lia. }
  assert (Holdb : forall i n, nodes m !! i = Some n ->
                    exists n', nodes mb !! i = Some n' /\ carried n n').
  { intros i n Hn. destruct (Hold i n Hn) as (n' & Hn' & Hc').
    destruct (Hfrb i n' Hn') as (n'' & Hn'' & Hc'' & _).
    exists n''. split; [done|]. eapply carried_trans; [exact Hc'|]. apply Hc''.
    pose proof (lookup_lt_Some _ _ _ Hn). lia. }
  cbn [simulate_children] in Hs. rewrite Hrunb, bind_Ok in Hs. cbn beta iota in Hs.
  cbn [calls ma tick with_nodes] in Hjb, Hcb.
  destruct (to_submit_signal (simulate_outcome E ma _)) eqn:Hsig1.
  { injection Hs as <- <-. split; [exact Holdb|]. left.
    split; [done|]. split; [done|]. eexists. split; [exact HSLb | done]. }
  assert (Hwfb : links_wf (nodes mb)).
  { apply (ok_links _ (tree_ok_same_links _ _ Hsameb Hok2)). }
  destruct (simulate_judged E mb (S L) _ Hwfb HSLb) as (mc & Hrunc & Hcc & Hsamec & Hjc & Hfrc).
  { done. }
  assert (Holdc : forall i n, nodes m !! i = Some n ->
                    exists n', nodes mc !! i = Some n' /\ carried n n').
  { intros i n Hn. destruct (Holdb i n Hn) as (n' & Hn' & Hc').
    destruct (Hfrc i n' Hn') as (n'' & Hn'' & Hc'' & _).
    exists n''. split; [done|]. eapply carried_trans; [exact Hc'|]. apply Hc''.
    pose proof (lookup_lt_Some _ _ _ Hn). lia. }
  assert (HjL : judged_at E (nodes mc) L (calls m + 1) false).
  { destruct Hjb as (nb & Hnb & Hjb). destruct (Hfrc L nb Hnb) as (n' & Hn' & Hc' & _).
    exists n'. split; [done|]. eapply judged_carried; [exact Hjb|]. apply Hc'. lia. }
  rewrite Hcb in Hjc. replace (calls m + 1 + 2) with (calls m + 3) in Hjc by lia.
  cbn [simulate_children] in Hs. rewrite Hrunc, bind_Ok in Hs. cbn beta iota in Hs.
  destruct (to_submit_signal (simulate_outcome E mb _)) eqn:Hsig2.
  - injection Hs as <- <-. split; [exact Holdc|]. right. by repeat split.
  - injection Hs as <- <-. split; [exact Holdc|]. split; [lia|]. by split.
Qed.

(** The levels [1..t] of the chain were simulated without the signal: the
    first node of level [u] when the engine had made [c0 + 5 u - 4] calls,
    the second one two calls later. *)
Definition levels_judged (E : Env) (c0 t : nat) (h : heap) : Prop :=
  forall u, 1 <= u <= t ->
    judged_at E h (2 * u - 1) (c0 + 5 * u - 4) false /\
    judged_at E h (2 * u) (c0 + 5 * u - 2) false.

Lemma judged_at_carried (E : Env) (h h' : heap) (i k : nat) (b : bool) :
  (forall i n, h !! i = Some n -> exists n', h' !! i = Some n' /\ carried n n') ->
  judged_at E h i k b -> judged_at E h' i k b.
Proof.
  intros Hc (n & Hn & Hj). destruct (Hc i n Hn) as (n' & Hn' & Hc').
  exists n'. split; [done | by eapply judged_carried].
Qed.

Lemma levels_judged_carried (E : Env) (c0 t : nat) (h h' : heap) :
  (forall i n, h !! i = Some n -> exists n', h' !! i = Some n' /\ carried n n') ->
  levels_judged E c0 t h -> levels_judged E c0 t h'.
Proof.
  intros Hc Hl u Hu. destruct (Hl u Hu) as [H1 H2].
  split; by eapply judged_at_carried.
Qed.

Lemma chain_position (t : nat) (cur : nat) :
  cur = chain_cur t \/ cur = chain_leaf t -> cur < 1 + 2 * t.
Proof.
  unfold chain_cur, chain_leaf.
  destruct (Nat.leb_spec t 1), (Nat.eqb_spec t 0); lia.
Qed.

(** The whole loop, node by node.  [t] counts the expansions made so far. *)
Lemma mcts_loop_judged (E : Env) (c0 remaining step t : nat) (m : MCTS) (cur : nat) :
  tree_ok (nodes m) -> simulated_except (fun _ => True) [] (nodes m) ->
  chain_tree t (shape_of (nodes m)) -> cur = chain_cur t \/ cur = chain_leaf t ->
  t <= depth_limit m -> calls m = c0 + 5 * t ->
  levels_judged E c0 t (nodes m) ->
  exists m' res step',
    mcts_loop E remaining step m cur = Ok (m', res, step') /\
    step <= step' /\
    match res with
    | None =>
        step' = step + remaining /\
        levels_judged E c0 (Nat.min (t + remaining) (depth_limit m)) (nodes m')
    | Some c =>
        step' < step + remaining /\
        t + (step' - step) < depth_limit m /\
        levels_judged E c0 (t + (step' - step)) (nodes m') /\
        ((c = 2 * (t + (step' - step)) + 1
          /\ judged_at E (nodes m') c (c0 + 5 * (t + (step' - step)) + 1) true
          /\ fresh_at (nodes m') (2 * (t + (step' - step)) + 2)) \/
         (c = 2 * (t + (step' - step)) + 2
          /\ judged_at E (nodes m') (2 * (t + (step' - step)) + 1)
               (c0 + 5 * (t + (step' - step)) + 1) false
          /\ judged_at E (nodes m') c (c0 + 5 * (t + (step' - step)) + 3) true))
    end.
Proof.
  revert step t m cur.
  induction remaining as [|remaining IH];
    intros step t m cur Hok Hsim Hch Hcur Ht Hcalls Hlev.
  { exists m, None, step. split; [done|]. split; [lia|]. split; [lia|].
    by replace (Nat.min (t + 0) (depth_limit m)) with t by lia. }
  assert (Hlen : length (nodes m) = 1 + 2 * t).
  { destruct Hch as (Hlen & _). by rewrite shape_of_length in Hlen. }
  assert (Hcurlt : cur < length (nodes m)).
  { rewrite Hlen. by apply chain_position. }
  destruct (iteration_spec E (fun _ => True) (fun _ => True)
              (fun _ _ _ => I) (fun _ _ _ => I) m cur Hok Hsim Hcurlt)
    as (leaf & nl & m1 & n1 & m2 & found & Hd & Hnl & Hleafcs & He & Hn1 & Hs
        & Hok2 & HD & Hlt & Hsk & Hf).
  destruct (chain_step (depth_limit m) t _ cur Hch Hcur) as (sk' & cur' & Hstep & Hcase).
  rewrite Hstep in Hsk. injection Hsk as Hshape Hleaf.
  assert (Hleaf' : leaf = chain_leaf t).
  { rewrite Hleaf. destruct (depth_limit m <=? t); [by destruct Hcase|].
    destruct Hcase as [_ ->]. unfold chain_cur, chain_leaf.
    destruct (Nat.leb_spec (S t) 1), (Nat.eqb_spec t 0); lia. }
  assert (Hdepth : depth nl = t).
  { pose proof (shape_of_lookup _ _ _ Hnl) as H1.
    rewrite Hleaf', (chain_tree_leaf t _ Hch) in H1. by injection H1. }
  destruct (iteration_judged E m leaf nl m1 n1 m2 found Hok Hsim Hnl Hleafcs He Hn1 Hs)
    as (Hcarried & Hjudged).
  rewrite Hdepth in Hjudged.
  cbn [mcts_loop]. rewrite Hd, bind_Ok, He, bind_Ok.
  unfold get. rewrite Hn1. cbn [of_option]. rewrite bind_Ok, Hs, bind_Ok.
  cbn beta iota.
  destruct (Nat.leb_spec (depth_limit m) t) as [Hlim|Hlim].
  - destruct Hjudged as [-> ->]. destruct Hcase as [_ Hcur'].
    destruct (IH (S step) t m leaf Hok Hsim Hch) as (m' & res & step' & Hrun & Hle & Hres);
      [right; congruence | done | done | done |].
    exists m', res, step'. split; [done|]. split; [lia|].
    destruct res as [c|].
    + destruct Hres as (_ & Hbad & _). lia.
    + destruct Hres as [-> Hres]. split; [lia|].
      by replace (Nat.min (t + S remaining) (depth_limit m))
        with (Nat.min (t + remaining) (depth_limit m)) by lia.
  - destruct Hcase as [Hch' Hcur'].
    assert (Hlev2 : levels_judged E c0 t (nodes m2))
      by (by eapply levels_judged_carried).
    destruct found as [c|].
    + exists m2, (Some c), step. split; [done|]. split; [lia|].
      rewrite Nat.sub_diag, Nat.add_0_r. split; [lia|]. split; [lia|].
      split; [done|]. rewrite Hlen, Hcalls in Hjudged.
      replace (S (1 + 2 * t)) with (2 * t + 2) in Hjudged by lia.
      replace (1 + 2 * t) with (2 * t + 1) in Hjudged by lia.
      destruct Hjudged as [(-> & H1 & H2)|(-> & H1 & H2)]; [left | right]; done.
    + destruct Hjudged as (Hcalls2 & HjL & HjSL).
      rewrite Hlen, Hcalls in HjL, HjSL.
      destruct (IH (S step) (S t) m2 leaf Hok2 Hf) as (m' & res & step' & Hrun & Hle & Hres).
      * by rewrite Hshape.
      * left. congruence.
      * rewrite HD. lia.
      * lia.
      * intros u Hu. destruct (decide (u = S t)) as [->|Hne].
        -- replace (2 * S t - 1) with (1 + 2 * t) by lia.
           replace (c0 + 5 * S t - 4) with (c0 + 5 * t + 1) by lia.
           replace (2 * S t) with (S (1 + 2 * t)) by lia.
           replace (c0 + 5 * S t - 2) with (c0 + 5 * t + 3) by lia. done.
        -- apply Hlev2. lia.
      * exists m', res, step'. split; [done|]. split; [lia|].
        rewrite HD in Hres. destruct res as [c|].
        -- replace (S t + (step' - S step)) with (t + (step' - step)) in Hres by lia.
           destruct Hres as (H1 & H2). split; [lia | done].
        -- destruct Hres as [-> Hres]. split; [lia|].
           by replace (t + S remaining) with (S t + remaining) by lia.
Qed.

(** * The properties of the specification *)

(** ** Backpropagation and the two aggregates *)

(** A root with a chain of three descendants and a second child: node 3 is
    at depth 3, node 4 is a sibling branch. *)
Definition chain_heap : heap :=
  [set_children [1; 4] (Node_init (Some "r") None None 0);
   set_children [2] (Node_init (Some "a") (Some 0) None 1);
   set_children [3] (Node_init (Some "b") (Some 1) None 2);
   Node_init (Some "c") (Some 2) None 3;
   Node_init (Some "d") (Some 0) None 1].

(** C1. The engine's cycles append to [reward_samples] and never count a
    visit: after one iteration of the search (two simulations, each with its
    backpropagation) the root holds two reward samples and [visits = 0]. *)
Theorem reward_samples_outrun_visits :
  exists m' n,
    mcts_trial failing_env (MCTS_init default_depth_limit) 1 = Ok (m', None, 1) /\
    nodes m' !! 0 = Some n /\
    length (reward_samples n) = 2 /\ visits n = 0.
Proof. eexists _, _. split; [vm_compute; reflexivity|]. by vm_compute. Qed.

(** C2. [backpropagate] from the node of depth 3 with reward 0.5 appends the
    reward to the samples of the 4 nodes of the path and to no other node,
    but it changes neither [visits] nor [score] anywhere; the walk that adds
    the visit and the reward on those 4 nodes is [update_score], which the
    engine never calls. *)
Theorem backpropagate_counts_no_visit :
  exists h' h'',
    backpropagate chain_heap 3 0.5%Q = Ok h' /\
    visits <$> h' = [0; 0; 0; 0; 0] /\
    score <$> h' = [0%Q; 0%Q; 0%Q; 0%Q; 0%Q] /\
    reward_samples <$> h' = [[0.5%Q]; [0.5%Q]; [0.5%Q]; [0.5%Q]; []] /\
    update_score chain_heap 3 0.5%Q = Ok h'' /\
    visits <$> h'' = [1; 1; 1; 1; 0] /\
    score <$> h'' = [(0 + 0.5)%Q; (0 + 0.5)%Q; (0 + 0.5)%Q; (0 + 0.5)%Q; 0%Q].
Proof. eexists _, _. split; [vm_compute; reflexivity|]. by vm_compute. Qed.

(** Whatever the tree, a backpropagation pass leaves [visits] and [score] of
    every node as they were. *)
Lemma backpropagate_keeps_visits_and_score (h h' : heap) (i : nat) (r : Q) :
  backpropagate h i r = Ok h' ->
  forall k, visits <$> h' !! k = visits <$> h !! k
            /\ score <$> h' !! k = score <$> h !! k.
Proof.
  intros Hrun k. split.
  - by apply (backpropagate_proj visits h h' i r).
  - by apply (backpropagate_proj score h h' i r).
Qed.

(** At every loop head of a run no node has a visit. *)
Lemma engine_counts_no_visit (E : Env) (m0 m : MCTS) (cur i : nat) (n : Node) :
  loop_head E m0 m cur -> nodes m !! i = Some n -> visits n = 0.
Proof.
  intros Hhead Hn. destruct (loop_head_inv E m0 m cur Hhead) as (Hok & _).
  by apply (ok_visits _ Hok i).
Qed.

(** ** Reward shaping *)

Lemma links_wf_singleton (n : Node) : parent n = None -> links_wf [n].
Proof. intros Hp [|i] n' p Hn Hq; simpl in Hn; by simplify_eq. Qed.

Lemma simulate_reward_table_witness :
  exists m' nd',
    simulate failing_env (MCTS_init 5) 0 = Ok (m', false) /\
    nodes m' !! 0 = Some nd' /\ reward_samples nd' = [0.0%Q].
Proof.
  destruct (simulate_reward_table failing_env (MCTS_init 5) 0
              (Node_init None None None 0)
              (links_wf_singleton (Node_init None None None 0) eq_refl) eq_refl)
    as (m' & nd' & reward & Hrun & Hnd & Hrs & Hr & _).
  exists m', nd'. split; [exact Hrun|]. split; [exact Hnd|].
  rewrite Hrs, Hr. reflexivity.
Defined.

(** ** Selection *)


(** The same tree once the parent counts 3 visits. *)
Definition visited_parent : Node :=
  {| state := Some "P"; parent := None; children := [1; 2]; visits := 3;
     score := 0%Q; evaluation := None; reward_samples := []; Qval := 0%Q;
     depth := 0 |}.

Definition visited_parent_heap : heap :=
  [visited_parent; visited_child; unvisited_child].


(** ** The search loop *)

(** Modelled from the spec: the submit signal of [Solution] ([solution.py]
    is not under src/).  The specification calls a reward of exactly 1.0 the
    success signal: the signal is raised exactly when the reward is 1.0. *)
Definition signal_is_full_reward (E : Env) : Prop :=
  forall k code,
    to_submit_signal (solution_eval E k code) = true <->
    simulate_score (solution_eval E k code) = 1.0%Q.

(** An evaluator that accepts every candidate. *)
Definition passing_outcome : Outcome :=
  {| testreport_message := "all samples pass"; success_rate_number := 1.0%Q;
     fullreport_str := "ok"; fullreport_status := "ok";
     to_submit_signal := true |}.

Definition passing_env : Env :=
  {| problem_description := "P";
     mcts_openai_messages := fun _ _ _ => " candidate ";
     rag_retrieve := fun _ _ => "ref";
     worker := fun _ _ => "code";
     solution_eval := fun _ _ => passing_outcome |}.

(** C5. [mcts_trial] always returns, after at most [max_steps] (by default
    10) iterations.  Every iteration descends to the leaf at the end of the
    chain and expands it (until the depth limit is reached), so that after
    [j] expansions the tree is the chain of [j] levels; the two children of
    level [t] are simulated in creation order, the first one when the engine
    has made [5 t - 1] collaborator calls and the second one two calls
    later.  When a node is returned, it is a child of the leaf expanded in
    the last iteration and the first node of the whole run whose simulation
    raised the submit signal: every node created before it was simulated
    without the signal and its younger sibling is left unsimulated.  When no
    simulation raises the signal the answer is [None], after exactly
    [max_steps] iterations and with every node below the root simulated.
    With the signal that the specification describes (raised exactly on the
    reward 1.0) the returned node is the one with the reward 1.0 and all the
    other rewards differ from 1.0. *)
Theorem mcts_trial_outcome (E : Env) (m : MCTS) (max_steps : nat) :
  default_max_steps = 10 /\
  exists m' res steps,
    mcts_trial E m max_steps = Ok (m', res, steps) /\
    steps <= max_steps /\
    let iterations := match res with None => max_steps | Some _ => S steps end in
    let j := Nat.min iterations (depth_limit m) in
    chain_tree j (shape_of (nodes m')) /\
    match res with
    | None =>
        steps = max_steps /\
        forall t, 1 <= t <= j ->
          judged_at E (nodes m') (2 * t - 1) (calls m + 5 * t - 1) false /\
          judged_at E (nodes m') (2 * t) (calls m + 5 * t + 1) false
    | Some c =>
        steps < max_steps /\ steps < depth_limit m /\
        (forall t, 1 <= t <= steps ->
           judged_at E (nodes m') (2 * t - 1) (calls m + 5 * t - 1) false /\
           judged_at E (nodes m') (2 * t) (calls m + 5 * t + 1) false) /\
        ((c = 2 * steps + 1
          /\ judged_at E (nodes m') c (calls m + 5 * steps + 4) true
          /\ fresh_at (nodes m') (2 * steps + 2)) \/
         (c = 2 * steps + 2
          /\ judged_at E (nodes m') (2 * steps + 1) (calls m + 5 * steps + 4) false
          /\ judged_at E (nodes m') c (calls m + 5 * steps + 6) true))
    end /\
    (signal_is_full_reward E ->
     match res with
     | None => simulated_except (fun r => r <> 1.0%Q) [] (nodes m')
     | Some c =>
         returned_child (fun r => r <> 1.0%Q) (fun r => r = 1.0%Q) (nodes m') c
     end).
Proof.
  split; [done|]. unfold mcts_trial.
  set (m0 := zero_shot_initialization E m).
  assert (Hok0 : tree_ok (nodes m0)) by apply tree_ok_initial.
  destruct (mcts_loop_judged E (calls m + 3) max_steps 0 0 m0 (root m0))
    as (m' & res & steps & Hrun & _ & Hres).
  { done. }
  { apply simulated_except_initial. }
  { apply chain_tree_initial. }
  { by left. }
  { lia. }
  { simpl. lia. }
  { intros u Hu. lia. }
  exists m', res, steps. split; [exact Hrun|].
  assert (Hlevels : forall t' t, levels_judged E (calls m + 3) t' (nodes m') ->
            1 <= t <= t' ->
            judged_at E (nodes m') (2 * t - 1) (calls m + 5 * t - 1) false /\
            judged_at E (nodes m') (2 * t) (calls m + 5 * t + 1) false).
  { intros t' t Hl Ht. destruct (Hl t Ht) as [H1 H2].
    replace (calls m + 3 + 5 * t - 4) with (calls m + 5 * t - 1) in H1 by lia.
    replace (calls m + 3 + 5 * t - 2) with (calls m + 5 * t + 1) in H2 by lia.
    done. }
  split; [destruct res; lia|]. cbn zeta. split; [|split].
  - destruct (mcts_loop_shape E max_steps 0 m0 (root m0) Hok0)
      as (m1 & res1 & steps1 & Hrun1 & _ & Hshape).
    { apply simulated_except_initial. }
    { simpl. lia. }
    rewrite Hrun in Hrun1. injection Hrun1 as <- <- <-.
    rewrite Nat.sub_0_r in Hshape. rewrite Hshape.
    apply (chain_run (depth_limit m) _ 0 [(0, [])] 0);
      [apply chain_tree_initial | by left | lia].
  - destruct res as [c|].
    + rewrite Nat.sub_0_r in Hres. cbn [Nat.add] in Hres.
      destruct Hres as (Hlt & Hlim & Hlev & Hc).
      split; [lia|]. split; [exact Hlim|]. split; [intros t; by apply (Hlevels steps)|].
      replace (calls m + 3 + 5 * steps + 1) with (calls m + 5 * steps + 4) in Hc by lia.
      replace (calls m + 3 + 5 * steps + 3) with (calls m + 5 * steps + 6) in Hc by lia.
      exact Hc.
    + destruct Hres as [-> Hlev]. split; [done|]. intros t.
      by apply (Hlevels (Nat.min max_steps (depth_limit m))).
  - intros Hsig.
    destruct (mcts_loop_spec E (fun r => r <> 1.0%Q) (fun r => r = 1.0%Q))
      with (remaining := max_steps) (step := 0) (m := m0) (cur := root m0)
      as (m1 & res1 & steps1 & Hrun1 & _ & Hres1).
    + intros k code Hoff Hone. apply Hsig in Hone. congruence.
    + intros k code Hon. by apply Hsig.
    + done.
    + apply simulated_except_initial.
    + simpl. lia.
    + rewrite Hrun in Hrun1. injection Hrun1 as <- <- <-.
      destruct res; tauto.
Qed.

Lemma passing_env_signal : signal_is_full_reward passing_env.
Proof. intros k code. simpl. split; reflexivity. Defined.

(** With that evaluator the first child of the first batch is returned and
    the second one is abandoned. *)
Example first_success_is_returned :
  exists m' n1 n2,
    mcts_trial passing_env (MCTS_init default_depth_limit) default_max_steps
      = Ok (m', Some 1, 0) /\
    nodes m' !! 1 = Some n1 /\ reward_samples n1 = [1.0%Q] /\
    nodes m' !! 2 = Some n2 /\ evaluation n2 = None /\ reward_samples n2 = [].
Proof. eexists _, _, _. split; [vm_compute; reflexivity|]. by vm_compute. Qed.

(** An evaluator that accepts only the candidate it is given at its seventh
    call, the second child of the first batch: the first child is simulated
    before it, without the signal, and the second child is returned. *)
Definition second_child_env : Env :=
  {| problem_description := "P";
     mcts_openai_messages := fun _ _ _ => " candidate ";
     rag_retrieve := fun _ _ => "ref";
     worker := fun _ _ => "code";
     solution_eval := fun k _ => if k =? 7 then passing_outcome else failing_outcome |}.

Example second_success_is_returned :
  exists m' n1 n2,
    mcts_trial second_child_env (MCTS_init default_depth_limit) default_max_steps
      = Ok (m', Some 2, 0) /\
    nodes m' !! 1 = Some n1 /\ is_Some (evaluation n1) /\ reward_samples n1 = [0.0%Q] /\
    nodes m' !! 2 = Some n2 /\ is_Some (evaluation n2) /\ reward_samples n2 = [1.0%Q] /\
    length (nodes m') = 3.
Proof.
  eexists _, _, _. split; [vm_compute; reflexivity|].
  split; [vm_compute; reflexivity|]. split; [by eexists|].
  split; [vm_compute; reflexivity|]. split; [vm_compute; reflexivity|].
  split; [by eexists|]. split; vm_compute; reflexivity.
Qed.

Lemma mcts_trial_outcome_witness :
  exists m',
    mcts_trial passing_env (MCTS_init default_depth_limit) default_max_steps
      = Ok (m', Some 1, 0) /\
    chain_tree 1 (shape_of (nodes m')) /\
    judged_at passing_env (nodes m') 1 4 true /\
    fresh_at (nodes m') 2 /\
    returned_child (fun r => r <> 1.0%Q) (fun r => r = 1.0%Q) (nodes m') 1.
Proof.
  destruct (mcts_trial_outcome passing_env (MCTS_init default_depth_limit)
              default_max_steps)
    as (_ & m' & res & steps & Hrun & _ & Hch & Hres & Hsig).
  destruct first_success_is_returned as (m1 & _ & _ & Hrun1 & _).
  rewrite Hrun1 in Hrun. injection Hrun as <- <- <-.
  exists m1. split; [exact Hrun1|]. split; [exact Hch|].
  destruct Hres as (_ & _ & _ & [(_ & Hj & Hf)|(Hbad & _)]); [|discriminate Hbad].
  split; [exact Hj|]. split; [exact Hf|]. exact (Hsig passing_env_signal).
Defined.

(** ** Expansion *)

(** C6, as the code has it.  [expand] on a node at or beyond the depth limit
    (5 by default) returns the engine unchanged.  Below the limit, provided
    the context of the node can be built, it appends exactly two children to
    the node's children, in the order of the generator's completions, each
    the node [add_child] creates (parent the node, depth one more, no
    evaluation, no sample), and changes no other node. *)
Theorem expand_adds_two_children (E : Env) (m : MCTS) (leaf : nat) (n : Node) :
  links_wf (nodes m) -> nodes m !! leaf = Some n ->
  default_depth_limit = 5 /\
  (depth_limit m <= depth n -> expand E m leaf = Ok m) /\
  (depth n < depth_limit m ->
   forall hist,
     mapM (history_entry (nodes m)) (walked (nodes m) leaf) = Some hist ->
     exists m' msgs,
       build_prompt_with_feedback E (nodes m) leaf = Ok msgs /\
       expand E m leaf = Ok m' /\
       length (nodes m') = length (nodes m) + 2 /\
       nodes m' !! leaf
       = Some (set_children
                 (children n ++ [length (nodes m); S (length (nodes m))]) n) /\
       nodes m' !! length (nodes m)
       = Some (Node_init (Some (strip (mcts_openai_messages E (calls m) msgs 0)))
                 (Some leaf) None (depth n + 1)) /\
       nodes m' !! S (length (nodes m))
       = Some (Node_init (Some (strip (mcts_openai_messages E (calls m) msgs 1)))
                 (Some leaf) None (depth n + 1)) /\
       (forall k, k <> leaf -> k < length (nodes m) ->
                  nodes m' !! k = nodes m !! k)).
Proof.
  intros Hwf Hn. pose proof (lookup_lt_Some _ _ _ Hn) as Hleaf.
  split; [done|]. rewrite (expand_spec E m leaf n Hn). split.
  - intros Hd. by destruct (Nat.leb_spec (depth_limit m) (depth n)); [|lia].
  - intros Hd hist Hhist.
    destruct (Nat.leb_spec (depth_limit m) (depth n)); [lia|].
    rewrite (build_prompt_with_feedback_spec E _ leaf Hwf Hleaf), Hhist.
    eexists _, _. split; [done|]. rewrite bind_Ok. cbn zeta. split; [done|].
    cbn [nodes tick with_nodes].
    set (o0 := strip _). set (o1 := strip _).
    set (g1 := grow (nodes m) leaf o0 (depth n + 1)).
    assert (Hg1len : length g1 = S (length (nodes m))) by apply grow_length.
    assert (Hn1 : g1 !! leaf
                  = Some (set_children (children n ++ [length (nodes m)]) n))
      by (by apply grow_lookup_leaf).
    split; [rewrite grow_length; lia|]. split; [|split; [|split]].
    + rewrite (grow_lookup_leaf g1 leaf _ o1 _ Hn1), Hg1len.
      cbn [children set_children]. by rewrite <- app_assoc.
    + rewrite grow_lookup_other by lia. apply grow_lookup_new.
    + rewrite <- Hg1len. apply grow_lookup_new.
    + intros k Hk Hlt. rewrite grow_lookup_other by lia.
      by apply grow_lookup_other.
Qed.

Lemma expand_adds_two_children_witness :
  expand failing_env (MCTS_init 0) 0 = Ok (MCTS_init 0) /\
  exists m', expand failing_env (MCTS_init 5) 0 = Ok m' /\ length (nodes m') = 3.
Proof.
  split.
  - apply (expand_adds_two_children failing_env (MCTS_init 0) 0
             (Node_init None None None 0)
             (links_wf_singleton (Node_init None None None 0) eq_refl) eq_refl).
    simpl. lia.
  - destruct (expand_adds_two_children failing_env (MCTS_init 5) 0
                (Node_init None None None 0)
                (links_wf_singleton (Node_init None None None 0) eq_refl) eq_refl)
      as (_ & _ & Hgrow).
    destruct (Hgrow ltac:(simpl; lia) [] eq_refl) as (m' & msgs & _ & Hrun & Hlen & _).
    exists m'. split; [exact Hrun | exact Hlen].
Defined.

(** A node below the root that was never simulated. *)
Definition unsimulated_leaf_engine : MCTS :=
  {| nodes := [set_children [1] (Node_init (Some "root") None None 0);
               Node_init (Some "candidate") (Some 0) None 1];
     root := 0; depth_limit := default_depth_limit; sm := []; calls := 0 |}.

(** [expand] on it raises ([str + None]) and adds no child, although the
    node is a leaf of depth 1, below the depth limit 5. *)
Lemma expand_raises_on_unsimulated_leaf :
  nodes unsimulated_leaf_engine !! 1
    = Some (Node_init (Some "candidate") (Some 0) None 1) /\
  depth (Node_init (Some "candidate") (Some 0) None 1)
    < depth_limit unsimulated_leaf_engine /\
  expand failing_env unsimulated_leaf_engine 1 = Raise TypeError /\
  ~ (exists m', expand failing_env unsimulated_leaf_engine 1 = Ok m').
Proof.
  split; [reflexivity|]. split; [vm_compute; lia|]. split; [reflexivity|].
  intros [m' Hm']. discriminate Hm'.
Qed.

(** ** The context of the generator *)

(** C8, as the code has it.  The context of a leaf is the problem statement,
    then one message for each node of the path from the leaf up to, and
    without, the root (the nodes that have a parent), collected leaf first
    and reversed, then the closing request.  The message of a node is the
    summary of its candidate state followed by its whole evaluation.  The
    summary of a text of more than 100 characters is its first 100
    characters, "..." and its last 100 characters; a text of at most 100
    characters is its own summary. *)
Theorem context_walk_and_summary (E : Env) (h : heap) (leaf : nat) :
  links_wf h -> leaf < length h ->
  build_prompt_with_feedback E h leaf =
    match mapM (history_entry h) (walked h leaf) with
    | Some hist =>
        Ok (mkMessage "user" ("## Problem: " +:+ problem_description E)
              :: rev hist ++ [closing_message])
    | None => Raise TypeError
    end /\
  (forall i, i ∈ walked h leaf <-> i ∈ path h leaf /\ has_parent h i = true) /\
  (forall i n st ev,
     h !! i = Some n -> state n = Some st -> evaluation n = Some ev ->
     history_entry h i
     = Some (mkMessage "assistant" (summarize_evaluation st +:+ ev))) /\
  (forall t,
     (String.length t <= 100 -> summarize_evaluation t = t) /\
     (100 < String.length t ->
      exists first last rest front,
        summarize_evaluation t = first +:+ "..." +:+ last /\
        String.length first = 100 /\ String.length last = 100 /\
        t = first +:+ rest /\ t = front +:+ last)).
Proof.
  intros Hwf Hleaf. split; [by apply build_prompt_with_feedback_spec|].
  split; [|split].
  - intros i. unfold walked. rewrite !list_elem_of_In. apply filter_In.
  - intros i n st ev Hn Hst Hev. unfold history_entry.
    rewrite Hn. simpl. rewrite Hst. simpl. by rewrite Hev.
  - apply summarize_evaluation_spec.
Qed.

Fixpoint string_of_copies (k : nat) (c : ascii) : string :=
  match k with
  | 0 => EmptyString
  | S k' => String c (string_of_copies k' c)
  end.

(** An evaluation text of 300 characters. *)
Definition long_feedback : string := string_of_copies 300 "e".

Definition fed_back_heap : heap :=
  [set_children [1] (Node_init (Some "root candidate") None None 0);
   set_evaluation (Some long_feedback) (Node_init (Some "child candidate") (Some 0) None 1)].

Lemma links_wf_fed_back_heap : links_wf fed_back_heap.
Proof.
  intros [|[|i]] n p Hn Hp; simpl in Hn; simplify_eq; simpl in Hp; simplify_eq. lia.
Defined.

Lemma context_walk_and_summary_witness :
  build_prompt_with_feedback failing_env fed_back_heap 1 =
    match mapM (history_entry fed_back_heap) (walked fed_back_heap 1) with
    | Some hist =>
        Ok (mkMessage "user" ("## Problem: " +:+ problem_description failing_env)
              :: rev hist ++ [closing_message])
    | None => Raise TypeError
    end.
Proof.
  refine (proj1 (context_walk_and_summary failing_env fed_back_heap 1
                   links_wf_fed_back_heap _)).
  simpl. lia.
Defined.

(** The 300 characters of the child's evaluation reach the generator whole:
    nothing of the evaluation is cut, and the root, though on the walk, is
    not collected. *)
Lemma long_evaluation_reaches_the_generator_whole :
  String.length long_feedback = 300 /\
  build_prompt_with_feedback failing_env fed_back_heap 1
    = Ok [mkMessage "user" "## Problem: P";
          mkMessage "assistant" ("child candidate" +:+ long_feedback);
          closing_message] /\
  "child candidate" +:+ long_feedback
    <> "child candidate" +:+ summarize_evaluation long_feedback.
Proof.
  split; [reflexivity|]. split; [vm_compute; reflexivity|].
  intros Heq. apply (f_equal String.length) in Heq. vm_compute in Heq. discriminate Heq.
Qed.

(** C10. A run of [mcts_trial] never raises; at every loop head of a run,
    the descent reaches a leaf, every node that the walk of
    [build_prompt_with_feedback] collects from that leaf (the nodes of its
    path that have a parent) has a state and an evaluation, and the context
    is built without an exception. *)
Theorem walk_reads_only_evaluated_nodes (E : Env) (m0 : MCTS) :
  (forall max_steps, exists result, mcts_trial E m0 max_steps = Ok result) /\
  (forall m cur,
     loop_head E m0 m cur ->
     exists leaf,
       descend (length (nodes m)) (nodes m) cur = Ok leaf /\
       Forall (fun i => exists n st ev,
                 nodes m !! i = Some n /\ is_Some (parent n) /\
                 state n = Some st /\ evaluation n = Some ev)
              (walked (nodes m) leaf) /\
       exists msgs, build_prompt_with_feedback E (nodes m) leaf = Ok msgs).
Proof.
  split.
  { intros max_steps. unfold mcts_trial.
    destruct (mcts_loop_spec E (fun _ => True) (fun _ => True)
                (fun _ _ _ => I) (fun _ _ _ => I) max_steps 0
                (zero_shot_initialization E m0)
                (root (zero_shot_initialization E m0)))
      as (m' & res & steps & Hrun & _).
    - apply tree_ok_initial.
    - apply simulated_except_initial.
    - simpl. lia.
    - by eexists. }
  intros m cur Hhead.
  destruct (loop_head_inv E m0 m cur Hhead) as (Hok & Hsim & Hcur).
  destruct (descend_spec (length (nodes m)) (nodes m) cur Hok Hcur)
    as (leaf & nl & Hdesc & Hnl & _); [lia|].
  exists leaf. split; [done|].
  destruct (context_ok (fun _ => True) (nodes m) leaf Hok Hsim) as (Hall & hist & Hhist).
  split; [done|].
  rewrite (build_prompt_with_feedback_spec E _ leaf (ok_links _ Hok)), Hhist.
  - by eexists.
  - by eapply lookup_lt_Some.
Qed.

(** The engine after one iteration under [failing_env]. *)
Definition engine_after_one_step : MCTS :=
  Eval vm_compute in
    match mcts_loop failing_env 1 0
            (zero_shot_initialization failing_env (MCTS_init default_depth_limit)) 0 with
    | Ok (m, _, _) => m
    | Raise _ => MCTS_init default_depth_limit
    end.

Lemma loop_head_after_one_step :
  loop_head failing_env (MCTS_init default_depth_limit) engine_after_one_step 0.
Proof.
  eapply head_next.
  - apply head_first.
  - reflexivity.
  - reflexivity.
  - reflexivity.
  - vm_compute. reflexivity.
Defined.

Lemma walk_reads_only_evaluated_nodes_witness :
  exists leaf,
    descend (length (nodes engine_after_one_step)) (nodes engine_after_one_step) 0
      = Ok leaf /\
    Forall (fun i => exists n st ev,
              nodes engine_after_one_step !! i = Some n /\ is_Some (parent n) /\
              state n = Some st /\ evaluation n = Some ev)
           (walked (nodes engine_after_one_step) leaf) /\
    exists msgs,
      build_prompt_with_feedback failing_env (nodes engine_after_one_step) leaf
        = Ok msgs.
Proof.
  exact (proj2 (walk_reads_only_evaluated_nodes failing_env
                  (MCTS_init default_depth_limit)) engine_after_one_step 0
           loop_head_after_one_step).
Defined.

(** ** A run without a solution *)

(** The depths of the nodes that have no child. *)
Definition leaf_depths (sk : list (nat * list nat)) : list nat :=
  fst <$> List.filter (fun s => match s.2 with [] => true | _ => false end) sk.

(** An evaluator that reports no passing sample and a plain failure never
    raises the submit signal. *)
Lemma failure_raises_no_signal (E : Env) :
  signal_is_full_reward E ->
  (forall k code,
     (success_rate_number (solution_eval E k code) == 0.0)%Q /\
     fullreport_status (solution_eval E k code) = "other-failure") ->
  forall k code, to_submit_signal (solution_eval E k code) = false.
Proof.
  intros Hsig Hfail k code.
  destruct (to_submit_signal (solution_eval E k code)) eqn:Hs; [|done].
  apply Hsig in Hs. destruct (Hfail k code) as [Hrate Hstatus].
  unfold simulate_score in Hs. rewrite Hstatus in Hs. simpl in Hs.
  destruct (Qeq_bool (success_rate_number (solution_eval E k code)) 1.0) eqn:Hq.
  - apply Qeq_bool_iff in Hq. rewrite Hrate in Hq. discriminate Hq.
  - rewrite Hs in Hrate. discriminate Hrate.
Qed.

(** C9, as the code has it.  When every candidate evaluates to the sample
    success rate 0.0 with the full status other-failure, a run of 3 steps
    with a depth limit above 1 returns [None] after exactly 3 iterations.
    Every iteration expands the first child created by the one before: with
    a depth limit of 3 or more the tree ends with 3 * 2 nodes below the root,
    two at each of the depths 1, 2 and 3, and its leaves are at the depths
    1, 2, 3 and 3; with the depth limit 2 it ends with two nodes at each of
    the depths 1 and 2. *)
Theorem unsolved_run_grows_a_chain (E : Env) (m : MCTS) :
  signal_is_full_reward E ->
  (forall k code,
     (success_rate_number (solution_eval E k code) == 0.0)%Q /\
     fullreport_status (solution_eval E k code) = "other-failure") ->
  1 < depth_limit m ->
  exists m',
    mcts_trial E m 3 = Ok (m', None, 3) /\
    shape_of (nodes m') =
      (if depth_limit m =? 2
       then [(0, [1; 2]); (1, [3; 4]); (1, []); (2, []); (2, [])]
       else [(0, [1; 2]); (1, [3; 4]); (1, []); (2, [5; 6]); (2, []);
             (3, []); (3, [])]) /\
    leaf_depths (shape_of (nodes m')) =
      (if depth_limit m =? 2 then [1; 2; 2] else [1; 2; 3; 3]).
Proof.
  intros Hsig Hfail HD.
  pose proof (failure_raises_no_signal E Hsig Hfail) as Hoff.
  destruct (mcts_loop_unsolved E Hoff 3 0 (zero_shot_initialization E m) 0)
    as (m' & Hrun & Hshape).
  - apply tree_ok_initial.
  - apply simulated_except_initial.
  - simpl. lia.
  - exists m'. split; [exact Hrun|].
    assert (Hsk : shape_of (nodes m') =
              if depth_limit m =? 2
              then [(0, [1; 2]); (1, [3; 4]); (1, []); (2, []); (2, [])]
              else [(0, [1; 2]); (1, [3; 4]); (1, []); (2, [5; 6]); (2, []);
                    (3, []); (3, [])]).
    { rewrite Hshape. cbn [depth_limit zero_shot_initialization].
      change (shape_of (nodes (zero_shot_initialization E m))) with [(0, @nil nat)].
      destruct (depth_limit m) as [|[|[|D]]]; [lia | lia | reflexivity | reflexivity]. }
    split; [exact Hsk|]. rewrite Hsk.
    by destruct (depth_limit m =? 2).
Qed.

Lemma failing_env_signal : signal_is_full_reward failing_env.
Proof.
  intros k code. simpl. split; [discriminate|].
  intros H. vm_compute in H. discriminate H.
Defined.

Lemma unsolved_run_grows_a_chain_witness :
  exists m',
    mcts_trial failing_env (MCTS_init default_depth_limit) 3 = Ok (m', None, 3) /\
    shape_of (nodes m') =
      [(0, [1; 2]); (1, [3; 4]); (1, []); (2, [5; 6]); (2, []); (3, []); (3, [])] /\
    leaf_depths (shape_of (nodes m')) = [1; 2; 3; 3].
Proof.
  refine (unsolved_run_grows_a_chain failing_env (MCTS_init default_depth_limit)
            failing_env_signal _ _).
  - intros k code. simpl. split; reflexivity.
  - simpl. unfold default_depth_limit. lia.
Defined.

(** With the default depth limit and the branching factor 2, the run of 3
    steps ends with 4 leaves, not 3 * 2, and only one of them is at depth
    1. *)
Lemma unsolved_run_leaves_are_not_all_at_depth_1 :
  (success_rate_number failing_outcome == 0.0)%Q /\
  fullreport_status failing_outcome = "other-failure" /\
  exists m',
    mcts_trial failing_env (MCTS_init default_depth_limit) 3 = Ok (m', None, 3) /\
    leaf_depths (shape_of (nodes m')) = [1; 2; 3; 3] /\
    length (leaf_depths (shape_of (nodes m'))) <> 3 * 2 /\
    ~ Forall (fun d => d = 1) (leaf_depths (shape_of (nodes m'))).
Proof.
  split; [reflexivity|]. split; [reflexivity|].
  eexists. split; [vm_compute; reflexivity|].
  split; [vm_compute; reflexivity|]. split; [vm_compute; lia|].
  vm_compute. intros H. inversion H as [|? ? _ H']. inversion H' as [|? ? Hd _].
  discriminate Hd.
Qed.

(** * Further properties of the code *)

From Stdlib Require Lqa.

(** ** The range of the reward *)

(** X1. For a sample success rate between 0 and 1, the reward of [simulate]
    lies between -0.2 and 1; it is 1 exactly when all samples pass and the
    full run does not time out, and it is -0.2 on every timeout. *)
Theorem simulate_score_range (s : Outcome) :
  (0 <= success_rate_number s)%Q -> (success_rate_number s <= 1)%Q ->
  (-0.2 <= simulate_score s)%Q /\ (simulate_score s <= 1)%Q /\
  ((simulate_score s == 1)%Q <->
   (success_rate_number s == 1)%Q /\ fullreport_status s <> "timeout") /\
  (fullreport_status s = "timeout" -> simulate_score s = (-0.2)%Q).
Proof.
  intros Hlo Hhi. unfold simulate_score.
  destruct (Qeq_bool (success_rate_number s) 1.0) eqn:Hrate;
    [apply Qeq_bool_iff in Hrate | apply Qeq_bool_neq in Hrate];
    (destruct (String.eqb (fullreport_status s) "timeout") eqn:Hst;
      [apply String.eqb_eq in Hst | apply String.eqb_neq in Hst]).
  - split; [done|]. split; [done|]. split; [|done].
    split; [intros H; discriminate H | intros [_ H]; done].
  - split; [done|]. split; [done|]. split; [|done].
    split; [intros _; split; [|done] | done].
    rewrite Hrate. reflexivity.
  - split; [done|]. split; [done|]. split; [|done].
    split; [intros H; discriminate H | intros [_ H]; done].
  - split; [Lqa.lra|]. split; [done|]. split; [|done].
    split; [intros H; destruct Hrate; rewrite H; reflexivity | intros [H _]].
    destruct Hrate. rewrite H. reflexivity.
Qed.

Lemma simulate_score_range_witness :
  (-0.2 <= simulate_score failing_outcome)%Q /\ (simulate_score failing_outcome <= 1)%Q.
Proof.
  destruct (simulate_score_range failing_outcome) as (H1 & H2 & _).
  - simpl. Lqa.lra.
  - simpl. Lqa.lra.
  - split; [exact H1 | exact H2].
Defined.

(** ** The summary of a text *)

(** X3. The summary of a text of more than 100 characters has exactly 203
    characters, whatever the length of the text; no summary is longer than
    203 characters, and a text of 101 to 202 characters has a summary longer
    than itself.  A text of at most 100 characters is its own summary. *)
Theorem summarize_evaluation_length (t : string) :
  String.length (summarize_evaluation t)
    = (if 100 <? String.length t then 203 else String.length t) /\
  String.length (summarize_evaluation t) <= 203 /\
  (100 < String.length t < 203 ->
   String.length t < String.length (summarize_evaluation t)) /\
  (String.length t <= 100 -> summarize_evaluation t = t).
Proof.
  assert (Hlen : String.length (summarize_evaluation t)
                 = if 100 <? String.length t then 203 else String.length t).
  { unfold summarize_evaluation.
    destruct (Nat.ltb_spec 100 (String.length t)) as [Hlt|Hge]; [|done].
    rewrite !string_length_app, !substring_length by lia. reflexivity. }
  split; [exact Hlen|]. rewrite Hlen.
  split; [|split; [|apply summarize_evaluation_spec]];
    destruct (Nat.ltb_spec 100 (String.length t)); lia.
Qed.

(** ** The two walks to the root *)

Lemma links_wf_alter_all (f : Node -> Node) (js : list nat) (h : heap) :
  (forall n, parent (f n) = parent n) ->
  links_wf h -> links_wf (alter_all f js h).
Proof.
  intros Hf. unfold alter_all. revert h.
  induction js as [|j js IH]; intros h Hwf; cbn [fold_left]; [done|].
  apply IH. by apply links_wf_alter.
Qed.

Lemma path_alter_all (f : Node -> Node) (js : list nat) (h : heap) (i : nat) :
  (forall n, parent (f n) = parent n) ->
  path (alter_all f js h) i = path h i.
Proof.
  intros Hf. unfold alter_all. revert h.
  induction js as [|j js IH]; intros h; cbn [fold_left]; [done|].
  rewrite IH. by apply path_alter.
Qed.

(** X4. [update_score] on a node of depth [d] of a well-formed tree returns;
    it adds one visit and the value to the score of the [d + 1] nodes of the
    path from the node to the root, writes no other field of them, and
    leaves every other node as it was. *)
Theorem update_score_adds_on_path (h : heap) (i : nat) (n : Node) (v : Q) :
  links_wf h -> depth_wf h -> h !! i = Some n ->
  exists h',
    update_score h i v = Ok h' /\
    length h' = length h /\
    length (path h i) = depth n + 1 /\
    (forall k m, k ∈ path h i -> h !! k = Some m -> h' !! k = Some (bump_score v m)) /\
    (forall k, k ∉ path h i -> h' !! k = h !! k).
Proof.
  intros Hwf Hd Hn.
  assert (Hi : i < length h) by (eapply lookup_lt_Some; eauto).
  exists (alter_all (bump_score v) (path h i) h).
  split; [unfold update_score; by apply update_score_rec_spec|].
  split; [apply alter_all_length|]. split; [by apply path_length|]. split.
  - intros k m Hk Hm.
    rewrite alter_all_lookup_in; [by rewrite Hm | by apply path_NoDup | done].
  - intros k Hk. by apply alter_all_lookup_notin.
Qed.

Lemma links_wf_chain_heap : links_wf chain_heap.
Proof.
  intros [|[|[|[|[|i]]]]] n p Hn Hp; simpl in Hn; simplify_eq; simpl in Hp;
    simplify_eq; lia.
Defined.

Lemma depth_wf_chain_heap : depth_wf chain_heap.
Proof.
  intros [|[|[|[|[|i]]]]] n Hn; simpl in Hn; simplify_eq; simpl;
    try done; eexists; (split; [reflexivity|reflexivity]).
Defined.

Lemma update_score_adds_on_path_witness :
  exists h',
    update_score chain_heap 3 0.5%Q = Ok h' /\
    length h' = length chain_heap /\
    length (path chain_heap 3) = 3 + 1 /\
    (forall k m, k ∈ path chain_heap 3 -> chain_heap !! k = Some m ->
                 h' !! k = Some (bump_score 0.5%Q m)) /\
    (forall k, k ∉ path chain_heap 3 -> h' !! k = chain_heap !! k).
Proof.
  exact (update_score_adds_on_path chain_heap 3 (Node_init (Some "c") (Some 2) None 3)
           0.5%Q links_wf_chain_heap depth_wf_chain_heap eq_refl).
Defined.

(** X5. [backpropagate] from a node of depth [d] of a well-formed tree
    returns; it applies [add_reward] (the reward appended to the samples, [Q]
    recomputed, no other field written) to the [d + 1] nodes of the path from
    the node to the root and leaves every other node as it was. *)
Theorem backpropagate_appends_on_path (h : heap) (i : nat) (n : Node) (r : Q) :
  links_wf h -> depth_wf h -> h !! i = Some n ->
  exists h',
    backpropagate h i r = Ok h' /\
    length h' = length h /\
    length (path h i) = depth n + 1 /\
    (forall k m, k ∈ path h i -> h !! k = Some m -> h' !! k = Some (add_reward r m)) /\
    (forall k, k ∉ path h i -> h' !! k = h !! k).
Proof.
  intros Hwf Hd Hn.
  assert (Hi : i < length h) by (eapply lookup_lt_Some; eauto).
  exists (alter_all (add_reward r) (path h i) h).
  split; [by apply backpropagate_spec|].
  split; [apply alter_all_length|]. split; [by apply path_length|]. split.
  - intros k m Hk Hm.
    rewrite alter_all_lookup_in; [by rewrite Hm | by apply path_NoDup | done].
  - intros k Hk. by apply alter_all_lookup_notin.
Qed.

Lemma backpropagate_appends_on_path_witness :
  exists h',
    backpropagate chain_heap 3 0.5%Q = Ok h' /\
    length h' = length chain_heap /\
    length (path chain_heap 3) = 3 + 1 /\
    (forall k m, k ∈ path chain_heap 3 -> chain_heap !! k = Some m ->
                 h' !! k = Some (add_reward 0.5%Q m)) /\
    (forall k, k ∉ path chain_heap 3 -> h' !! k = chain_heap !! k).
Proof.
  exact (backpropagate_appends_on_path chain_heap 3
           (Node_init (Some "c") (Some 2) None 3)
           0.5%Q links_wf_chain_heap depth_wf_chain_heap eq_refl).
Defined.

Lemma alter_all_comm (f g : Node -> Node) (js : list nat) (h : heap) :
  NoDup js -> (forall n, f (g n) = g (f n)) ->
  alter_all f js (alter_all g js h) = alter_all g js (alter_all f js h).
Proof.
  intros Hnd Hfg. apply list_eq. intros k.
  destruct (decide (k ∈ js)) as [Hin|Hnin].
  - rewrite !alter_all_lookup_in by done.
    destruct (h !! k) as [n|]; simpl; [|done]. by rewrite Hfg.
  - by rewrite !alter_all_lookup_notin.
Qed.

(** X6. On a well-formed tree the two walks commute: [update_score] followed
    by [backpropagate] from the same node gives the same tree as
    [backpropagate] followed by [update_score].  Node by node, the two walks
    add the same number to the reward samples and to the visits (one on the
    path, none elsewhere): a node that had as many reward samples as visits
    before has as many after, whatever holds of the other nodes. *)
Theorem both_walks_keep_lockstep (h : heap) (i : nat) (r : Q) :
  links_wf h -> i < length h ->
  exists h1 h2 h',
    update_score h i r = Ok h1 /\ backpropagate h1 i r = Ok h' /\
    backpropagate h i r = Ok h2 /\ update_score h2 i r = Ok h' /\
    length h' = length h /\
    (forall k m, h !! k = Some m ->
       exists m', h' !! k = Some m' /\
         length (reward_samples m') + visits m
         = length (reward_samples m) + visits m' /\
         (length (reward_samples m) = visits m ->
          length (reward_samples m') = visits m')) /\
    ((forall k m, h !! k = Some m -> length (reward_samples m) = visits m) ->
     forall k m', h' !! k = Some m' -> length (reward_samples m') = visits m').
Proof.
  intros Hwf Hi.
  set (js := path h i).
  exists (alter_all (bump_score r) js h), (alter_all (add_reward r) js h),
         (alter_all (add_reward r) js (alter_all (bump_score r) js h)).
  split; [unfold update_score; by apply update_score_rec_spec|]. split.
  { rewrite backpropagate_spec.
    - by rewrite path_alter_all.
    - by apply links_wf_alter_all.
    - by rewrite alter_all_length. }
  split; [by apply backpropagate_spec|]. split.
  { unfold update_score. rewrite update_score_rec_spec.
    - rewrite path_alter_all by done. fold js.
      by rewrite (alter_all_comm (bump_score r) (add_reward r)) by (done || by apply path_NoDup).
    - by apply links_wf_alter_all.
    - by rewrite alter_all_length.
    - by rewrite alter_all_length. }
  split; [by rewrite !alter_all_length|].
  assert (Hnode : forall k m, h !! k = Some m ->
            exists m', alter_all (add_reward r) js (alter_all (bump_score r) js h) !! k
                       = Some m' /\
              length (reward_samples m') + visits m
              = length (reward_samples m) + visits m').
  { intros k m Hm. destruct (decide (k ∈ js)) as [Hin|Hnin].
    - rewrite !alter_all_lookup_in by (done || by apply path_NoDup).
      rewrite Hm. eexists. split; [reflexivity|].
      cbn [reward_samples visits add_reward bump_score].
      rewrite length_app. cbn [length]. lia.
    - rewrite !alter_all_lookup_notin by done. exists m. split; [done | lia]. }
  split.
  - intros k m Hm. destruct (Hnode k m Hm) as (m' & Hm' & Heq).
    exists m'. split; [done|]. split; [done | lia].
  - intros Hlock k m' Hk.
    assert (Hlt : k < length h).
    { apply lookup_lt_Some in Hk. by rewrite !alter_all_length in Hk. }
    destruct (lookup_lt_is_Some_2 h k Hlt) as [m Hm].
    destruct (Hnode k m Hm) as (m1 & Hm1 & Heq).
    rewrite Hk in Hm1. injection Hm1 as <-.
    specialize (Hlock k m Hm). lia.
Qed.

Lemma both_walks_keep_lockstep_witness :
  exists h1 h2 h',
    update_score chain_heap 3 0.5%Q = Ok h1 /\ backpropagate h1 3 0.5%Q = Ok h' /\
    backpropagate chain_heap 3 0.5%Q = Ok h2 /\ update_score h2 3 0.5%Q = Ok h' /\
    (forall k m, chain_heap !! k = Some m ->
       exists m', h' !! k = Some m' /\
         length (reward_samples m') + visits m
         = length (reward_samples m) + visits m').
Proof.
  destruct (both_walks_keep_lockstep chain_heap 3 0.5%Q links_wf_chain_heap)
    as (h1 & h2 & h' & H1 & H2 & H3 & H4 & _ & Hnode & _).
  - simpl. lia.
  - exists h1, h2, h'. repeat (split; [done|]).
    intros k m Hm. destruct (Hnode k m Hm) as (m' & Hm' & Heq & _).
    exists m'. by split.
Defined.

(** ** Growing the tree *)

Lemma add_child_is_grow (h : heap) (self : nat) (n : Node) (st : string) :
  h !! self = Some n ->
  add_child h self st = Ok (grow h self st (depth n + 1), length h).
Proof.
  intros Hn. unfold add_child, get, grow. rewrite Hn. cbn [of_option].
  rewrite bind_Ok. pose proof (lookup_lt_Some _ _ _ Hn) as Hlt.
  by rewrite alter_app_l.
Qed.

Lemma links_wf_grow (h : heap) (leaf : nat) (out : string) (d : nat) :
  links_wf h -> leaf < length h -> links_wf (grow h leaf out d).
Proof.
  intros Hwf Hleaf i n' p Hi Hp.
  apply grow_lookup_inv in Hi as [[-> ->]|[[Hne Hi]|[-> (n0 & Hn0 & ->)]]].
  - simpl in Hp. by simplify_eq.
  - eauto.
  - simpl in Hp. eauto.
Qed.

Lemma depth_wf_grow (h : heap) (leaf : nat) (n : Node) (out : string) :
  depth_wf h -> h !! leaf = Some n -> depth_wf (grow h leaf out (depth n + 1)).
Proof.
  intros Hd Hn i n' Hi.
  apply grow_lookup_inv in Hi as [[-> ->]|[[Hne Hi]|[-> (n0 & Hn0 & ->)]]].
  - simpl. destruct (grow_lookup_old h leaf leaf out (depth n + 1) n Hn)
      as (n1 & Hn1 & _ & Hd1 & _).
    exists n1. split; [done | lia].
  - specialize (Hd i n' Hi). destruct (parent n') as [p|]; [|done].
    destruct Hd as (pn & Hpn & Hdp).
    destruct (grow_lookup_old h leaf p out (depth n + 1) pn Hpn)
      as (n1 & Hn1 & _ & Hd1 & _).
    exists n1. split; [done | lia].
  - simpl. specialize (Hd leaf n0 Hn0). destruct (parent n0) as [p|]; [|done].
    destruct Hd as (pn & Hpn & Hdp).
    destruct (grow_lookup_old h leaf p out (depth n + 1) pn Hpn)
      as (n1 & Hn1 & _ & Hd1 & _).
    exists n1. split; [done | lia].
Qed.

(** X7. [add_child] on a node of a well-formed tree returns a reference that
    was not in use; the new node has the given state, the node as parent,
    one more than its depth, no child, no visit, no evaluation and no sample;
    its reference is appended last to the node's children; no other node
    changes; and the tree stays well-formed (parents before children, depth
    one more than the parent's). *)
Theorem add_child_extends_tree (h : heap) (self : nat) (n : Node) (st : string) :
  links_wf h -> depth_wf h -> h !! self = Some n ->
  exists h',
    add_child h self st = Ok (h', length h) /\
    length h' = S (length h) /\
    h' !! self = Some (set_children (children n ++ [length h]) n) /\
    h' !! length h = Some (Node_init (Some st) (Some self) None (depth n + 1)) /\
    (forall k, k <> self -> k < length h -> h' !! k = h !! k) /\
    links_wf h' /\ depth_wf h'.
Proof.
  intros Hwf Hd Hn. pose proof (lookup_lt_Some _ _ _ Hn) as Hlt.
  exists (grow h self st (depth n + 1)).
  split; [by apply add_child_is_grow|]. split; [apply grow_length|].
  split; [by apply grow_lookup_leaf|]. split; [apply grow_lookup_new|].
  split; [intros k Hk Hkl; by apply grow_lookup_other|].
  split; [by apply links_wf_grow | by apply depth_wf_grow].
Qed.

Lemma add_child_extends_tree_witness :
  exists h',
    add_child chain_heap 4 "e" = Ok (h', 5) /\
    length h' = 6 /\
    h' !! 4 = Some (set_children [5] (Node_init (Some "d") (Some 0) None 1)) /\
    h' !! 5 = Some (Node_init (Some "e") (Some 4) None 2) /\
    (forall k, k <> 4 -> k < 5 -> h' !! k = chain_heap !! k) /\
    links_wf h' /\ depth_wf h'.
Proof.
  exact (add_child_extends_tree chain_heap 4 (Node_init (Some "d") (Some 0) None 1)
           "e" links_wf_chain_heap depth_wf_chain_heap eq_refl).
Defined.

(** ** What a simulation writes *)

(** X8. [simulate] on a node of a well-formed tree returns the evaluator's
    submit signal.  It sets the node's evaluation (the fixed timeout notice
    when all samples pass but the full run times out, the two reports
    otherwise), keeps the evaluation of every other node, keeps parent,
    children, visits, score, state and depth of every node, and registers
    exactly one solution, the worker's code, whatever the score. *)
Theorem simulate_writes_one_evaluation (E : Env) (m : MCTS) (node : nat) (nd : Node) :
  links_wf (nodes m) -> nodes m !! node = Some nd ->
  let s := simulate_outcome E m nd in
  exists m',
    simulate E m node = Ok (m', to_submit_signal s) /\
    evaluation <$> nodes m' !! node = Some (Some (simulate_evaluation s)) /\
    (Qeq_bool (success_rate_number s) 1.0 = true ->
     fullreport_status s = "timeout" ->
     simulate_evaluation s
     = "The solution is correct but the algorithm TIMEOUT!!!! Try a faster solution@!!!!") /\
    (forall k, k <> node ->
       evaluation <$> nodes m' !! k = evaluation <$> nodes m !! k) /\
    (forall k,
       parent <$> nodes m' !! k = parent <$> nodes m !! k /\
       children <$> nodes m' !! k = children <$> nodes m !! k /\
       visits <$> nodes m' !! k = visits <$> nodes m !! k /\
       score <$> nodes m' !! k = score <$> nodes m !! k /\
       state <$> nodes m' !! k = state <$> nodes m !! k /\
       depth <$> nodes m' !! k = depth <$> nodes m !! k) /\
    sm m' = sm m ++ [worker E (calls m) (py_str (state nd))] /\
    depth_limit m' = depth_limit m.
Proof.
  intros Hwf Hnd s. eexists. split; [by apply simulate_spec|].
  cbn [nodes sm depth_limit]. fold s.
  split.
  { rewrite alter_all_proj by done. by rewrite list_lookup_alter_eq, Hnd. }
  split.
  { intros Hr Hs. unfold simulate_evaluation. rewrite Hr, Hs. reflexivity. }
  split.
  { intros k Hk. rewrite alter_all_proj by done. by rewrite list_lookup_alter_ne. }
  split; [|done].
  intros k. repeat split; (rewrite alter_all_proj by done; by apply alter_proj).
Qed.

Lemma simulate_writes_one_evaluation_witness :
  exists m',
    simulate failing_env (MCTS_init 5) 0 = Ok (m', false) /\
    evaluation <$> nodes m' !! 0
    = Some (Some ("Sample test results: wrong answer" +:+ nl
                  +:+ "The full test cases: failed")) /\
    sm m' = ["code"].
Proof.
  destruct (simulate_writes_one_evaluation failing_env (MCTS_init 5) 0
              (Node_init None None None 0)
              (links_wf_singleton (Node_init None None None 0) eq_refl) eq_refl)
    as (m' & Hrun & Hev & _ & _ & _ & Hsm & _).
  exists m'. split; [exact Hrun|]. split; [exact Hev | exact Hsm].
Defined.

(** ** The size and the failures of the context *)

Lemma walked_length (h : heap) (i : nat) (n : Node) :
  links_wf h -> depth_wf h -> h !! i = Some n -> length (walked h i) = depth n.
Proof.
  intros Hwf Hd. revert n. induction i as [i IH] using lt_wf_ind.
  intros n Hn. rewrite (walked_unfold h i n Hwf Hn).
  pose proof (Hd i n Hn) as Hdn.
  destruct (parent n) as [p|] eqn:Hp.
  - destruct Hdn as (pn & Hpn & ->). cbn [length].
    rewrite (IH p (Hwf i n p Hn Hp) pn Hpn). lia.
  - by rewrite Hdn.
Qed.

Lemma walked_has_parent (h : heap) (leaf i : nat) :
  i ∈ walked h leaf -> exists n p, h !! i = Some n /\ parent n = Some p.
Proof.
  intros Hi. unfold walked in Hi. apply list_elem_of_In, filter_In in Hi as [_ Hpar].
  unfold has_parent in Hpar. destruct (h !! i) as [n|]; [|done].
  destruct (parent n) as [p|] eqn:Hp; [|done]. by exists n, p.
Qed.

Lemma history_entry_None (h : heap) (i : nat) (n : Node) :
  h !! i = Some n ->
  history_entry h i = None <-> state n = None \/ evaluation n = None.
Proof.
  intros Hn. unfold history_entry. rewrite Hn. simpl.
  destruct (state n) as [st|]; simpl; [|by split; [left|]].
  destruct (evaluation n) as [ev|]; simpl; [|by split; [right|]].
  split; [done | by intros [|]].
Qed.

Lemma history_entry_role (h : heap) (i : nat) (msg : message) :
  history_entry h i = Some msg -> role msg = "assistant".
Proof.
  unfold history_entry. destruct (h !! i) as [n|]; simpl; [|done].
  destruct (state n) as [st|]; simpl; [|done].
  destruct (evaluation n) as [ev|]; simpl; [|done].
  intros Heq. by simplify_eq.
Qed.

(** X9. On a well-formed tree, when every node of the leaf's path below the
    root has a state and an evaluation, the context of a leaf of depth [d]
    has [d + 2] messages: the problem statement from the user, [d] assistant
    messages and the closing request from the user.  The context of the root
    has 2 messages. *)
Theorem context_has_one_message_per_level (E : Env) (h : heap) (leaf : nat) (n : Node) :
  links_wf h -> depth_wf h -> h !! leaf = Some n ->
  (forall i m, i ∈ walked h leaf -> h !! i = Some m ->
               is_Some (state m) /\ is_Some (evaluation m)) ->
  exists hist,
    build_prompt_with_feedback E h leaf
      = Ok (mkMessage "user" ("## Problem: " +:+ problem_description E)
              :: rev hist ++ [closing_message]) /\
    length hist = depth n /\
    Forall (fun msg => role msg = "assistant") hist /\
    length (mkMessage "user" ("## Problem: " +:+ problem_description E)
              :: rev hist ++ [closing_message]) = depth n + 2.
Proof.
  intros Hwf Hd Hn Hall.
  pose proof (lookup_lt_Some _ _ _ Hn) as Hleaf.
  destruct (mapM (history_entry h) (walked h leaf)) as [hist|] eqn:Hhist.
  - exists hist. rewrite (build_prompt_with_feedback_spec E h leaf Hwf Hleaf), Hhist.
    split; [done|].
    assert (Hlen : length hist = depth n).
    { rewrite <- (length_mapM _ _ _ Hhist). by apply walked_length. }
    split; [done|]. split.
    + apply mapM_Some_1 in Hhist. apply Forall_forall. intros msg Hmsg.
      apply list_elem_of_lookup in Hmsg as [k Hk].
      destruct (Forall2_lookup_r _ _ _ _ _ Hhist Hk) as (i & _ & Hentry).
      by eapply history_entry_role.
    + cbn [length]. rewrite length_app, length_rev. cbn [length]. lia.
  - apply mapM_None_1, Exists_exists in Hhist as (i & Hi & Hnone).
    destruct (walked_has_parent h leaf i Hi) as (m & p & Hm & _).
    apply (history_entry_None h i m Hm) in Hnone.
    destruct (Hall i m Hi Hm) as [[st Hst] [ev Hev]].
    destruct Hnone; congruence.
Qed.

Lemma context_has_one_message_per_level_witness :
  exists hist,
    build_prompt_with_feedback failing_env fed_back_heap 1
      = Ok (mkMessage "user" ("## Problem: " +:+ problem_description failing_env)
              :: rev hist ++ [closing_message]) /\
    length hist = 1.
Proof.
  destruct (context_has_one_message_per_level failing_env fed_back_heap 1
              (set_evaluation (Some long_feedback)
                 (Node_init (Some "child candidate") (Some 0) None 1))
              links_wf_fed_back_heap)
    as (hist & Hrun & Hlen & _).
  - intros [|[|i]] n Hn; simpl in Hn; simplify_eq; simpl; [done|].
    eexists. split; reflexivity.
  - reflexivity.
  - intros i m Hi Hm. vm_compute in Hi.
    apply list_elem_of_singleton in Hi as ->. simpl in Hm. simplify_eq.
    split; by eexists.
  - exists hist. split; [exact Hrun | exact Hlen].
Defined.

(** X10. On a well-formed tree [build_prompt_with_feedback] either returns
    or raises TypeError, and it raises exactly when some node of the leaf's
    path below the root lacks a state or an evaluation.  Below the depth
    limit [expand] raises in exactly the same case. *)
Theorem context_fails_on_an_unevaluated_node (E : Env) (m : MCTS) (leaf : nat) (n : Node) :
  links_wf (nodes m) -> nodes m !! leaf = Some n ->
  let bad := exists i nd, i ∈ walked (nodes m) leaf /\ nodes m !! i = Some nd /\
                          (state nd = None \/ evaluation nd = None) in
  (build_prompt_with_feedback E (nodes m) leaf = Raise TypeError <-> bad) /\
  (~ bad -> exists msgs, build_prompt_with_feedback E (nodes m) leaf = Ok msgs) /\
  (depth n < depth_limit m ->
   (expand E m leaf = Raise TypeError <-> bad) /\
   (~ bad -> exists m', expand E m leaf = Ok m')).
Proof.
  intros Hwf Hn bad. pose proof (lookup_lt_Some _ _ _ Hn) as Hleaf.
  rewrite (expand_spec E m leaf n Hn).
  rewrite (build_prompt_with_feedback_spec E _ leaf Hwf Hleaf).
  assert (Hbad : mapM (history_entry (nodes m)) (walked (nodes m) leaf) = None <-> bad).
  { rewrite mapM_None, Exists_exists. split.
    - intros (i & Hi & Hnone).
      destruct (walked_has_parent _ leaf i Hi) as (nd & p & Hnd & _).
      exists i, nd. split; [done|]. split; [done|].
      by apply (history_entry_None _ i nd Hnd).
    - intros (i & nd & Hi & Hnd & Hnone). exists i. split; [done|].
      by apply (history_entry_None _ i nd Hnd). }
  destruct (mapM (history_entry (nodes m)) (walked (nodes m) leaf)) as [hist|].
  - assert (Hgood : ~ bad) by (intros Hb; by apply Hbad in Hb).
    split; [split; [done | intros Hb; by destruct Hgood]|].
    split; [intros _; by eexists|].
    intros Hd. destruct (Nat.leb_spec (depth_limit m) (depth n)); [lia|].
    rewrite bind_Ok. cbn zeta.
    split; [split; [done | intros Hb; by destruct Hgood] | intros _; by eexists].
  - assert (Hb : bad) by (by apply Hbad).
    split; [by split|]. split; [intros Hg; by destruct Hg|].
    intros Hd. destruct (Nat.leb_spec (depth_limit m) (depth n)); [lia|].
    rewrite bind_Raise. split; [by split | intros Hg; by destruct Hg].
Qed.

Lemma context_fails_on_an_unevaluated_node_witness :
  expand failing_env unsimulated_leaf_engine 1 = Raise TypeError <->
  exists i nd, i ∈ walked (nodes unsimulated_leaf_engine) 1 /\
               nodes unsimulated_leaf_engine !! i = Some nd /\
               (state nd = None \/ evaluation nd = None).
Proof.
  destruct (context_fails_on_an_unevaluated_node failing_env unsimulated_leaf_engine 1
              (Node_init (Some "candidate") (Some 0) None 1)) as (_ & _ & Hexp).
  - intros [|[|i]] n p Hn Hp; simpl in Hn; simplify_eq; simpl in Hp; simplify_eq. lia.
  - reflexivity.
  - apply Hexp. simpl. unfold default_depth_limit. lia.
Defined.

(** ** The tree of any run *)

(** X11. Whatever the generator and the evaluator answer, [mcts_trial]
    builds a single chain.  With [j] the smaller of the number of iterations
    entered and the depth limit, the final tree has [1 + 2 j] nodes: the
    root and, on each level [t] from 1 to [j], the nodes [2 t - 1] and
    [2 t] of depth [t]; the first child of each expansion carries the next
    level and the second child is never expanded.  No node is deeper than the
    depth limit. *)
Theorem run_grows_one_chain (E : Env) (m : MCTS) (max_steps : nat) :
  exists m' res steps,
    mcts_trial E m max_steps = Ok (m', res, steps) /\
    let iterations := match res with None => max_steps | Some _ => S steps end in
    let j := Nat.min iterations (depth_limit m) in
    chain_tree j (shape_of (nodes m')) /\
    length (nodes m') = 1 + 2 * j /\
    (forall i n, nodes m' !! i = Some n -> depth n <= depth_limit m).
Proof.
  unfold mcts_trial.
  destruct (mcts_loop_shape E max_steps 0 (zero_shot_initialization E m)
              (root (zero_shot_initialization E m)))
    as (m' & res & steps & Hrun & _ & Hshape).
  { apply tree_ok_initial. }
  { apply simulated_except_initial. }
  { simpl. lia. }
  exists m', res, steps. split; [exact Hrun|]. cbn zeta.
  rewrite Nat.sub_0_r in Hshape.
  set (iterations := match res with None => max_steps | Some _ => S steps end) in *.
  assert (Hch : chain_tree (Nat.min iterations (depth_limit m)) (shape_of (nodes m'))).
  { rewrite Hshape. cbn [depth_limit zero_shot_initialization root].
    apply (chain_run (depth_limit m) iterations 0 [(0, [])] 0);
      [apply chain_tree_initial | by left | lia]. }
  split; [exact Hch|]. destruct Hch as (Hlen & Hroot & Hlev).
  rewrite shape_of_length in Hlen. split; [exact Hlen|].
  intros i n Hn. pose proof (lookup_lt_Some _ _ _ Hn) as Hi.
  pose proof (shape_of_lookup _ _ _ Hn) as Hsh.
  destruct (decide (i = 0)) as [->|Hi0].
  { rewrite Hroot in Hsh. simplify_eq. lia. }
  destruct (Nat.Even_or_Odd i) as [[t ->]|[t ->]].
  - destruct (Hlev t) as [_ H2]; [lia|]. rewrite H2 in Hsh. simplify_eq. lia.
  - destruct (Hlev (S t)) as [H1 _]; [lia|].
    replace (2 * S t - 1) with (2 * t + 1) in H1 by lia.
    rewrite H1 in Hsh. simplify_eq. lia.
Qed.

(** X12. At every loop head of a run the tree is well-formed: the path from
    a node to the root has as many nodes as the node's depth plus one; the
    root has depth 0 and every other node comes after its parent and is one
    deeper; every reference in a node's children is a node whose parent is
    that node. *)
Theorem engine_tree_is_well_formed (E : Env) (m0 m : MCTS) (cur : nat) :
  loop_head E m0 m cur ->
  forall i n, nodes m !! i = Some n ->
    length (path (nodes m) i) = depth n + 1 /\
    match parent n with
    | None => depth n = 0
    | Some p => p < i /\ exists pn, nodes m !! p = Some pn /\ depth n = depth pn + 1
    end /\
    (forall c, c ∈ children n ->
       exists cn, nodes m !! c = Some cn /\ parent cn = Some i
                  /\ depth cn = depth n + 1).
Proof.
  intros Hhead i n Hn.
  destruct (loop_head_inv E m0 m cur Hhead) as ([Hwf Hd Hch _ _] & _).
  split; [by apply path_length|]. split.
  - pose proof (Hd i n Hn) as Hdn. destruct (parent n) as [p|] eqn:Hp; [|done].
    split; [by eapply Hwf | done].
  - intros c Hc. destruct (Hch i n c Hn Hc) as (_ & cn & Hcn & Hpar).
    exists cn. split; [done|]. split; [done|].
    pose proof (Hd c cn Hcn) as Hdc. rewrite Hpar in Hdc.
    destruct Hdc as (pn & Hpn & Hdp). by simplify_eq.
Qed.

Lemma engine_tree_is_well_formed_witness :
  length (path (nodes engine_after_one_step) 1) = 2.
Proof.
  destruct (engine_tree_is_well_formed failing_env (MCTS_init default_depth_limit)
              engine_after_one_step 0 loop_head_after_one_step 1 _ eq_refl)
    as [Hlen _].
  exact Hlen.
Defined.

(** ** Refinement of one node *)

(** [MCTS_v2.self_refine]: one completion, taken as it comes, becomes a
    child of [node] and is simulated; there is no test of the depth limit. *)
Definition self_refine (E : Env) (m : MCTS) (node : nat) : result (MCTS * nat) :=
  messages ← build_prompt_with_feedback E (nodes m) node;
  let refined_solution := mcts_openai_messages E (calls m) messages 0 in
  '(h, refined_node) ← add_child (nodes m) node refined_solution;
  '(m', _) ← simulate E (tick 1 (with_nodes h m)) refined_node;
  Ok (m', refined_node).

(** A node whose context can be built in a well-formed tree. *)
Definition refinable (h : heap) (node : nat) : Prop :=
  links_wf h /\ depth_wf h /\
  forall i nd, i ∈ walked h node -> h !! i = Some nd ->
               is_Some (state nd) /\ is_Some (evaluation nd).

Lemma refinable_context (h : heap) (node : nat) :
  refinable h node ->
  exists hist, mapM (history_entry h) (walked h node) = Some hist.
Proof.
  intros (_ & _ & Hall).
  destruct (mapM (history_entry h) (walked h node)) as [hist|] eqn:Hhist; [by eexists|].
  apply mapM_None_1, Exists_exists in Hhist as (i & Hi & Hnone).
  destruct (walked_has_parent h node i Hi) as (nd & p & Hnd & _).
  apply (history_entry_None h i nd Hnd) in Hnone.
  destruct (Hall i nd Hi Hnd) as [[st Hst] [ev Hev]].
  destruct Hnone; congruence.
Qed.

Lemma walked_grow_old (h : heap) (leaf i : nat) (out : string) (d : nat) :
  links_wf h -> leaf < length h -> i < length h ->
  walked (grow h leaf out d) i = walked h i.
Proof.
  intros Hwf Hleaf. pose proof (links_wf_grow h leaf out d Hwf Hleaf) as Hwf'.
  induction i as [i IH] using lt_wf_ind. intros Hi.
  destruct (lookup_lt_is_Some_2 h i Hi) as [n Hn].
  destruct (grow_lookup_old h leaf i out d n Hn) as (n' & Hn' & Hp & _).
  rewrite (walked_unfold _ i n' Hwf' Hn'), (walked_unfold _ i n Hwf Hn), Hp.
  destruct (parent n) as [p|] eqn:Hpar; [|done].
  pose proof (Hwf i n p Hn Hpar) as Hlt. f_equal. apply IH; lia.
Qed.

Lemma same_links_walked (h h' : heap) (i : nat) :
  same_links h h' -> walked h' i = walked h i.
Proof.
  intros Hs. unfold walked. rewrite (same_links_path h h' i Hs).
  apply filter_ext. intros k. unfold has_parent.
  specialize (Hs k). destruct (h !! k) as [n|], (h' !! k) as [n'|]; simpl in Hs; try done.
  unfold links in Hs. injection Hs as Hp _ _ _ _. by rewrite Hp.
Qed.

Lemma depth_wf_same_links (h h' : heap) : same_links h h' -> depth_wf h -> depth_wf h'.
Proof.
  intros Hs Hd i n' Hn'.
  destruct (same_links_lookup _ _ _ _ (same_links_sym _ _ Hs) Hn')
    as (n & Hn & Hpar & _ & _ & Hdn & _).
  specialize (Hd i n Hn). rewrite <- Hpar. destruct (parent n) as [p|]; [|congruence].
  destruct Hd as (pn & Hpn & Hdp).
  destruct (same_links_lookup _ _ _ _ Hs Hpn) as (pn' & Hpn' & _ & _ & _ & Hd' & _).
  exists pn'. split; [done | congruence].
Qed.

(** X13. [self_refine] on a node of a well-formed tree whose context can be
    built returns a new node: a child of the node, one level deeper (also at
    or beyond the depth limit, which is not tested), appended last to the
    node's children, holding the generator's first completion as it comes,
    simulated once (an evaluation and one reward sample).  The new node can
    be refined in its turn. *)
Theorem self_refine_adds_a_simulated_child (E : Env) (m : MCTS) (node : nat) (n : Node) :
  refinable (nodes m) node -> nodes m !! node = Some n ->
  exists m' msgs nd' pn',
    build_prompt_with_feedback E (nodes m) node = Ok msgs /\
    self_refine E m node = Ok (m', length (nodes m)) /\
    length (nodes m') = S (length (nodes m)) /\
    nodes m' !! length (nodes m) = Some nd' /\
    parent nd' = Some node /\ depth nd' = depth n + 1 /\ children nd' = [] /\
    state nd' = Some (mcts_openai_messages E (calls m) msgs 0) /\
    is_Some (evaluation nd') /\ length (reward_samples nd') = 1 /\
    nodes m' !! node = Some pn' /\
    children pn' = children n ++ [length (nodes m)] /\
    refinable (nodes m') (length (nodes m)).
Proof.
  intros Href Hn. pose proof Href as (Hwf & Hd & Hall).
  pose proof (lookup_lt_Some _ _ _ Hn) as Hnode.
  destruct (refinable_context _ _ Href) as [hist Hhist].
  unfold self_refine.
  rewrite (build_prompt_with_feedback_spec E _ node Hwf Hnode), Hhist, bind_Ok.
  set (msgs := _ :: rev hist ++ [closing_message]).
  set (sol := mcts_openai_messages E (calls m) msgs 0).
  rewrite (add_child_is_grow _ node n sol Hn), bind_Ok. cbn beta iota.
  set (L := length (nodes m)).
  set (h1 := grow (nodes m) node sol (depth n + 1)).
  set (child := Node_init (Some sol) (Some node) None (depth n + 1)).
  assert (Hwf1 : links_wf h1) by (by apply links_wf_grow).
  assert (Hd1 : depth_wf h1) by (by apply depth_wf_grow).
  assert (Hc1 : h1 !! L = Some child) by apply grow_lookup_new.
  rewrite (simulate_spec E (tick 1 (with_nodes h1 m)) L child Hwf1 Hc1), bind_Ok.
  cbn beta iota. cbn [nodes tick with_nodes].
  set (s := simulate_outcome E (tick 1 (with_nodes h1 m)) child).
  set (r := simulate_score s). set (ev := simulate_evaluation s).
  set (h2 := alter_all (add_reward r) (path h1 L) (alter (set_evaluation (Some ev)) L h1)).
  assert (Hsame : same_links h1 h2).
  { eapply same_links_trans; [apply same_links_alter | apply same_links_alter_all]; done. }
  assert (Hlen2 : length h2 = S L).
  { rewrite <- (same_links_length _ _ Hsame). apply grow_length. }
  assert (Hc2 : h2 !! L = Some (add_reward r (set_evaluation (Some ev) child))).
  { unfold h2. rewrite alter_all_lookup_in;
      [by rewrite list_lookup_alter_eq, Hc1 | by apply path_NoDup |].
    apply path_self; [done|]. unfold h1. rewrite grow_length. lia. }
  destruct (same_links_lookup _ _ _ _ Hsame
              (grow_lookup_leaf (nodes m) node n sol (depth n + 1) Hn))
    as (pn' & Hpn' & _ & Hcs' & _).
  eexists _, msgs, _, pn'. cbn [nodes].
  split; [done|]. split; [done|]. split; [exact Hlen2|].
  split; [exact Hc2|]. do 4 (split; [done|]). split; [by eexists|].
  split; [done|]. split; [exact Hpn'|]. split; [exact Hcs'|].
  split; [|split].
  - unfold h2. apply links_wf_alter_all; [done|]. by apply links_wf_alter.
  - by apply (depth_wf_same_links h1 h2).
  - intros i nd Hi Hnd. cbn [nodes] in Hi, Hnd.
    rewrite (same_links_walked _ _ _ Hsame) in Hi.
    rewrite (walked_unfold h1 L child Hwf1 Hc1) in Hi. cbn [parent child Node_init] in Hi.
    apply elem_of_cons in Hi as [->|Hi].
    { rewrite Hc2 in Hnd. simplify_eq. split; by eexists. }
    unfold h1 in Hi. rewrite walked_grow_old in Hi by done.
    destruct (walked_has_parent _ _ _ Hi) as (nd0 & p & Hnd0 & _).
    destruct (Hall i nd0 Hi Hnd0) as [Hst Hev].
    pose proof (lookup_lt_Some _ _ _ Hnd0) as Hlt.
    destruct (grow_lookup_old (nodes m) node i sol (depth n + 1) nd0 Hnd0)
      as (nd1 & Hnd1 & _ & _ & _ & Hst1 & Hev1 & _).
    assert (Hst2 : state <$> h2 !! i = state <$> h1 !! i).
    { unfold h2. rewrite alter_all_proj by done. by apply alter_proj. }
    assert (Hev2 : evaluation <$> h2 !! i = evaluation <$> h1 !! i).
    { unfold h2. rewrite alter_all_proj by done.
      rewrite list_lookup_alter_ne; [done|]. subst L. lia. }
    fold h1 in Hnd1. rewrite Hnd, Hnd1 in Hst2, Hev2. simpl in Hst2, Hev2.
    simplify_eq. rewrite Hst2, Hst1, Hev2, Hev1. done.
Qed.

Lemma refinable_initial_root : refinable (nodes (MCTS_init 0)) 0.
Proof.
  split; [apply links_wf_singleton; reflexivity|]. split.
  - intros [|i] n Hn; simpl in Hn; simplify_eq. reflexivity.
  - intros i nd Hi. vm_compute in Hi. by apply elem_of_nil in Hi.
Defined.

Lemma self_refine_adds_a_simulated_child_witness :
  exists m' nd',
    self_refine failing_env (MCTS_init 0) 0 = Ok (m', 1) /\
    length (nodes m') = 2 /\
    nodes m' !! 1 = Some nd' /\ depth nd' = 1 /\ length (reward_samples nd') = 1.
Proof.
  destruct (self_refine_adds_a_simulated_child failing_env (MCTS_init 0) 0
              (Node_init None None None 0) refinable_initial_root eq_refl)
    as (m' & msgs & nd' & pn' & _ & Hrun & Hlen & Hnd & _ & Hd & _ & _ & _ & Hrs & _).
  exists m', nd'. split; [exact Hrun|]. split; [exact Hlen|].
  split; [exact Hnd|]. split; [exact Hd | exact Hrs].
Defined.

(** ** What selection returns and when it raises *)

Lemma max_by_ucb1_result (h : heap) (rest : list nat) (best : nat) (k : xreal) :
  (forall c, max_by_ucb1 h best k rest = Ok c -> c ∈ best :: rest) /\
  ((exists c, max_by_ucb1 h best k rest = Ok c) <->
   forall c', c' ∈ rest -> exists k', ucb1 h c' = Ok k').
Proof.
  revert best k. induction rest as [|c1 rest IH]; intros best k.
  { split.
    - intros c Hc. simpl in Hc. simplify_eq. apply elem_of_cons. by left.
    - split; [intros _ c' Hc'; by apply elem_of_nil in Hc' | intros _; by eexists]. }
  cbn [max_by_ucb1]. destruct (ucb1 h c1) as [k1|e] eqn:Hk1.
  - rewrite bind_Ok.
    assert (Hrest : (forall c', c' ∈ rest -> exists k', ucb1 h c' = Ok k') <->
                    (forall c', c' ∈ c1 :: rest -> exists k', ucb1 h c' = Ok k')).
    { split.
      - intros H c' Hc'. apply elem_of_cons in Hc' as [->|Hc']; [by eexists | by apply H].
      - intros H c' Hc'. apply H, elem_of_cons. by right. }
    destruct (xgt k1 k).
    + destruct (IH c1 k1) as [H1 H2]. split.
      * intros c Hc. apply H1 in Hc. apply elem_of_cons. right. exact Hc.
      * by rewrite H2.
    + destruct (IH best k) as [H1 H2]. split.
      * intros c Hc. apply H1 in Hc. apply elem_of_cons in Hc as [->|Hc].
        -- apply elem_of_cons. by left.
        -- apply elem_of_cons. right. apply elem_of_cons. by right.
      * by rewrite H2.
  - rewrite bind_Raise. split; [done|]. split.
    + intros [c Hc]. discriminate Hc.
    + intros H. destruct (H c1) as [k' Hk']; [apply elem_of_cons; by left|].
      congruence.
Qed.

(** X14. Whatever the tree, [select] on a node returns only one of the
    node's children; it returns exactly when the node has a child and [ucb1]
    returns on every child; on a node without children it raises ValueError
    ([max] of an empty list). *)
Theorem select_returns_a_child (h : heap) (i : nat) (n : Node) :
  h !! i = Some n ->
  (children n = [] -> select h i = Raise ValueError) /\
  (forall c, select h i = Ok c -> c ∈ children n) /\
  ((exists c, select h i = Ok c) <->
   children n <> [] /\ forall c', c' ∈ children n -> exists k, ucb1 h c' = Ok k).
Proof.
  intros Hn. unfold select, get. rewrite Hn. cbn [of_option]. rewrite bind_Ok.
  destruct (children n) as [|c0 rest]; [split; [done|]; split|split; [done|]].
  - intros c Hc. discriminate Hc.
  - split; [intros [c Hc]; discriminate Hc | intros [Hne _]; done].
  - destruct (ucb1 h c0) as [k0|e] eqn:Hk0.
    + rewrite bind_Ok. destruct (max_by_ucb1_result h rest c0 k0) as [H1 H2].
      split; [exact H1|]. rewrite H2. split.
      * intros H. split; [done|]. intros c' Hc'.
        apply elem_of_cons in Hc' as [->|Hc']; [by eexists | by apply H].
      * intros [_ H] c' Hc'. apply H, elem_of_cons. by right.
    + rewrite bind_Raise. split; [intros c Hc; discriminate Hc|]. split.
      * intros [c Hc]. discriminate Hc.
      * intros [_ H]. destruct (H c0) as [k Hk]; [apply elem_of_cons; by left|].
        congruence.
Qed.

Lemma select_returns_a_child_witness :
  exists c, select visited_parent_heap 0 = Ok c /\ c ∈ children visited_parent.
Proof.
  destruct (select_returns_a_child visited_parent_heap 0 visited_parent eq_refl)
    as (_ & Hin & Hiff).
  destruct (proj2 Hiff) as [c Hc].
  - split; [discriminate|]. intros c' Hc'.
    apply elem_of_cons in Hc' as [->|Hc'];
      [|apply list_elem_of_singleton in Hc' as ->]; eexists; reflexivity.
  - exists c. split; [exact Hc | exact (Hin c Hc)].
Defined.

(** ** Visits kept by [update_score], and the descent *)

(** Every visited node has a visited parent. *)
Definition visits_ok (h : heap) : Prop :=
  forall i n p pn, h !! i = Some n -> parent n = Some p -> h !! p = Some pn ->
                   visits n <> 0 -> 1 <= visits pn.

(** Every reference in a node's children is a later node whose parent is
    that node. *)
Definition children_ok (h : heap) : Prop :=
  forall i n c, h !! i = Some n -> c ∈ children n ->
    i < c /\ exists cn, h !! c = Some cn /\ parent cn = Some i.

Lemma path_parent_closed (h : heap) (i k : nat) (n : Node) (p : nat) :
  links_wf h -> k ∈ path h i -> h !! k = Some n -> parent n = Some p ->
  p < length h -> p ∈ path h i.
Proof.
  intros Hwf. induction i as [i IH] using lt_wf_ind. intros Hk Hn Hp Hlt.
  destruct (h !! i) as [ni|] eqn:Hni.
  - rewrite (path_unfold h i ni Hwf Hni) in Hk |- *.
    apply elem_of_cons in Hk as [->|Hk].
    + simplify_eq. rewrite Hp. apply elem_of_cons. right. by apply path_self.
    + destruct (parent ni) as [q|] eqn:Hq; [|by apply elem_of_nil in Hk].
      apply elem_of_cons. right. apply (IH q); [by eapply Hwf | done..].
  - rewrite path_dangling in Hk by done. by apply elem_of_nil in Hk.
Qed.

(** X15. [update_score] keeps the trees on which UCB1 is defined: if every
    visited node has a visited parent before the walk, so it is after it,
    and the walk changes neither a parent link nor a children list. *)
Theorem update_score_keeps_visits_ok (h : heap) (i : nat) (v : Q) :
  links_wf h -> children_ok h -> visits_ok h -> i < length h ->
  exists h',
    update_score h i v = Ok h' /\
    links_wf h' /\ children_ok h' /\ visits_ok h' /\ length h' = length h /\
    (forall k, parent <$> h' !! k = parent <$> h !! k /\
               children <$> h' !! k = children <$> h !! k).
Proof.
  intros Hwf Hch Hvis Hi.
  set (h' := alter_all (bump_score v) (path h i) h).
  assert (Hlook : forall k n', h' !! k = Some n' ->
            exists n, h !! k = Some n /\ parent n' = parent n /\ children n' = children n
                      /\ ((k ∈ path h i /\ visits n' = visits n + 1)
                          \/ (n' = n /\ k ∉ path h i))).
  { intros k n' Hk. unfold h' in Hk. destruct (decide (k ∈ path h i)) as [Hin|Hnin].
    - rewrite alter_all_lookup_in in Hk; [|by apply path_NoDup|done].
      destruct (h !! k) as [n|]; simpl in Hk; [|done]. simplify_eq.
      exists n. split; [done|]. split; [done|]. split; [done|]. by left.
    - rewrite alter_all_lookup_notin in Hk by done. exists n'.
      split; [done|]. split; [done|]. split; [done|]. by right. }
  assert (Hfwd : forall k n, h !! k = Some n ->
            exists n', h' !! k = Some n' /\ parent n' = parent n).
  { intros k n Hn. unfold h'. destruct (decide (k ∈ path h i)) as [Hin|Hnin].
    - rewrite alter_all_lookup_in; [|by apply path_NoDup|done].
      rewrite Hn. by eexists.
    - rewrite alter_all_lookup_notin by done. by eexists. }
  exists h'. split; [unfold update_score; by apply update_score_rec_spec|].
  split; [by apply links_wf_alter_all|].
  split; [|split; [|split; [apply alter_all_length|]]].
  3: { intros k. unfold h'. split; by apply alter_all_proj. }
  - intros k n' c Hk Hc. destruct (Hlook k n' Hk) as (n & Hn & _ & Hcs & _).
    rewrite Hcs in Hc. destruct (Hch k n c Hn Hc) as (Hlt & cn & Hcn & Hpar).
    split; [done|]. destruct (Hfwd c cn Hcn) as (cn' & Hcn' & Hpar').
    exists cn'. split; [done | congruence].
  - intros k n' p pn' Hk Hp Hpn' Hv.
    destruct (Hlook k n' Hk) as (n & Hn & Hpar & _ & Hcase).
    destruct (Hlook p pn' Hpn') as (pn & Hpn & _ & _ & Hpcase).
    destruct Hpcase as [[_ Hpv]|[-> Hpnin]]; [lia|].
    destruct Hcase as [[Hkin _]|[-> _]].
    + destruct Hpnin. apply (path_parent_closed h i k n p Hwf Hkin Hn); [congruence|].
      by eapply lookup_lt_Some.
    + by apply (Hvis k n p pn).
Qed.

Lemma children_ok_chain_heap : children_ok chain_heap.
Proof.
  intros [|[|[|[|[|i]]]]] n c Hn Hc; simpl in Hn; simplify_eq; simpl in Hc;
    repeat (apply elem_of_cons in Hc as [->|Hc];
            [split; [lia|]; eexists; split; reflexivity|]);
    by apply elem_of_nil in Hc.
Defined.

Lemma visits_ok_chain_heap : visits_ok chain_heap.
Proof.
  intros [|[|[|[|[|i]]]]] n p pn Hn Hp Hpn Hv; simpl in Hn; simplify_eq;
    simpl in Hv; done.
Defined.

Lemma update_score_keeps_visits_ok_witness :
  exists h',
    update_score chain_heap 3 0.5%Q = Ok h' /\
    links_wf h' /\ children_ok h' /\ visits_ok h' /\ length h' = length chain_heap.
Proof.
  destruct (update_score_keeps_visits_ok chain_heap 3 0.5%Q links_wf_chain_heap
              children_ok_chain_heap visits_ok_chain_heap)
    as (h' & H1 & H2 & H3 & H4 & H5 & _).
  - simpl. lia.
  - exists h'. by repeat (split; [done|]).
Defined.

(** X16. On a tree where every visited node has a visited parent, the
    descent of [mcts_trial] from any node returns, without a math domain
    error: it ends on a node without children that is the start or one of
    its descendants. *)
Theorem descend_reaches_a_leaf (h : heap) (i : nat) :
  links_wf h -> children_ok h -> visits_ok h -> i < length h ->
  exists leaf n,
    descend (length h) h i = Ok leaf /\ h !! leaf = Some n /\ children n = [] /\
    i ∈ path h leaf.
Proof.
  intros Hwf Hch Hvis.
  assert (Hgen : forall fuel i, i < length h -> length h - i <= fuel ->
            exists leaf n, descend fuel h i = Ok leaf /\ h !! leaf = Some n
                           /\ children n = [] /\ i ∈ path h leaf).
  { induction fuel as [|fuel IH]; intros j Hj Hfuel; [lia|].
    destruct (lookup_lt_is_Some_2 h j Hj) as [n Hn].
    cbn [descend]. unfold get. rewrite Hn. cbn [of_option]. rewrite bind_Ok.
    destruct (children n) as [|c0 rest] eqn:Hcs.
    { exists j, n. split; [done|]. split; [done|]. split; [done|]. by apply path_self. }
    destruct (select_spec h j n Hn) as (_ & pre & c & post & Heq & Hsel & _).
    - by rewrite Hcs.
    - intros c Hc. destruct (Hch j n c Hn Hc) as (_ & cn & Hcn & Hp). by exists cn.
    - destruct (visits n) as [|v] eqn:Hv; [right | left; lia].
      intros c cn Hc Hcn. destruct (Hch j n c Hn Hc) as (_ & cn' & Hcn' & Hp).
      simplify_eq. destruct (visits cn) as [|vc] eqn:Hvc; [done|].
      pose proof (Hvis c cn j n Hcn Hp Hn) as Hbad. rewrite Hvc, Hv in Hbad.
      specialize (Hbad ltac:(lia)). lia.
    - rewrite Hsel, bind_Ok.
      assert (Hc : c ∈ children n).
      { rewrite Heq. apply elem_of_app. right. apply elem_of_cons. by left. }
      destruct (Hch j n c Hn Hc) as (Hlt & cn & Hcn & Hp).
      pose proof (lookup_lt_Some _ _ _ Hcn) as Hclt.
      destruct (IH c Hclt) as (leaf & nl & Hrun & Hnl & Hleaf & Hin); [lia|].
      exists leaf, nl. split; [done|]. split; [done|]. split; [done|].
      by apply (path_parent_closed h leaf c cn j Hwf Hin Hcn Hp). }
  intros Hi. apply Hgen; [done | lia].
Qed.

Lemma descend_reaches_a_leaf_witness :
  exists leaf n,
    descend (length chain_heap) chain_heap 0 = Ok leaf /\
    chain_heap !! leaf = Some n /\ children n = [] /\ 0 ∈ path chain_heap leaf.
Proof.
  refine (descend_reaches_a_leaf chain_heap 0 links_wf_chain_heap
            children_ok_chain_heap visits_ok_chain_heap _).
  simpl. lia.
Defined.

(** ** The exploration bonus of UCB1 *)

Lemma ln_monotone (x y : R) : (0 < x)%R -> (x <= y)%R -> (ln x <= ln y)%R.
Proof.
  intros Hx [Hlt| ->]; [|apply Rle_refl].
  left. by apply ln_increasing.
Qed.

Lemma exploration_monotone (v pv pv' : nat) :
  1 <= pv -> pv <= pv' ->
  (0 <= sqrt (ln (INR pv) / (INR v + 0.01)) <=
   sqrt (ln (INR pv') / (INR v + 0.01)))%R.
Proof.
  intros Hpv Hle. split; [apply sqrt_pos|]. apply sqrt_le_1_alt.
  assert (Hd : (0 < INR v + 0.01)%R) by (pose proof (pos_INR v); lra).
  unfold Rdiv. apply Rmult_le_compat_r; [left; by apply Rinv_0_lt_compat|].
  apply ln_monotone; [apply lt_0_INR; lia | by apply le_INR].
Qed.

(** X17. For a visited node under a visited parent [ucb1] returns a finite
    priority that is at least [Q / visits]: the exploration bonus is never
    negative, it is zero when the parent has exactly one visit, and it does
    not decrease when the parent's visits grow. *)
Theorem ucb1_exploration_bonus (h : heap) (i j : nat) (n p : Node) :
  h !! i = Some n -> parent n = Some j -> h !! j = Some p ->
  1 <= visits n -> 1 <= visits p ->
  exists x,
    ucb1 h i = Ok (Fin x) /\
    (Q2R (Qval n) / INR (visits n) <= x)%R /\
    (visits p = 1 -> x = (Q2R (Qval n) / INR (visits n))%R) /\
    (forall p' x', visits p <= visits p' -> claimed_priority n p' = Fin x' ->
                   (x <= x')%R).
Proof.
  intros Hn Hj Hp Hv Hpv.
  rewrite (ucb1_spec h i j n p Hn Hj Hp). unfold claimed_priority.
  destruct (Nat.eqb_spec (visits n) 0) as [|_]; [lia|].
  destruct (Nat.eqb_spec (visits p) 0) as [|_]; [lia|]. cbn [negb andb].
  eexists. split; [reflexivity|].
  destruct (exploration_monotone (visits n) (visits p) (visits p) Hpv (le_n _))
    as [Hpos _].
  split; [lra|]. split.
  - intros H1. rewrite H1. cbn [INR]. rewrite ln_1. unfold Rdiv at 2.
    rewrite Rmult_0_l, sqrt_0. lra.
  - intros p' x' Hle Heq. simplify_eq.
    destruct (exploration_monotone (visits n) (visits p) (visits p') Hpv Hle)
      as [_ Hmono].
    lra.
Qed.

Lemma ucb1_exploration_bonus_witness :
  exists x,
    ucb1 visited_parent_heap 1 = Ok (Fin x) /\
    (Q2R (Qval visited_child) / INR (visits visited_child) <= x)%R.
Proof.
  destruct (ucb1_exploration_bonus visited_parent_heap 1 0 visited_child visited_parent
              eq_refl eq_refl eq_refl) as (x & Hrun & Hle & _).
  - simpl. lia.
  - simpl. lia.
  - exists x. split; [exact Hrun | exact Hle].
Defined.

(** ** The registry of solutions *)

Definition count_some (l : list (option string)) : nat :=
  length (List.filter (fun o => match o with Some _ => true | None => false end) l).

(** The number of nodes that carry an evaluation. *)
Definition count_evaluated (h : heap) : nat := count_some (evaluation <$> h).

Lemma count_some_insert (l : list (option string)) (c : nat) (ev : string) :
  l !! c = Some None -> count_some (<[c := Some ev]> l) = S (count_some l).
Proof.
  unfold count_some. revert c. induction l as [|o l IH]; intros c Hc; [done|].
  destruct c as [|c]; simpl in Hc.
  - simplify_eq. reflexivity.
  - change (<[S c := Some ev]> (o :: l)) with (o :: <[c := Some ev]> l).
    cbn [List.filter]. destruct o; cbn [length]; by rewrite (IH c Hc).
Qed.

Lemma count_some_snoc_None (l : list (option string)) :
  count_some (l ++ [None]) = count_some l.
Proof.
  unfold count_some. rewrite List.filter_app, length_app. simpl. lia.
Qed.

Lemma fmap_alter_all_proj {X} (proj : Node -> X) (f : Node -> Node) (js : list nat)
    (h : heap) :
  (forall n, proj (f n) = proj n) -> proj <$> alter_all f js h = proj <$> h.
Proof.
  intros Hf. apply list_eq. intros k. rewrite !list_lookup_fmap.
  by apply alter_all_proj.
Qed.

Lemma count_evaluated_grow (h : heap) (leaf : nat) (out : string) (d : nat) :
  count_evaluated (grow h leaf out d) = count_evaluated h.
Proof.
  unfold count_evaluated, grow. rewrite fmap_app. cbn [fmap list_fmap Node_init evaluation].
  rewrite count_some_snoc_None. f_equal.
  apply list_eq. intros k. rewrite !list_lookup_fmap. by apply alter_proj.
Qed.

Lemma count_evaluated_simulated (h : heap) (c : nat) (nc : Node) (r : Q) (ev : string)
    (js : list nat) :
  h !! c = Some nc -> evaluation nc = None ->
  count_evaluated (alter_all (add_reward r) js (alter (set_evaluation (Some ev)) c h))
  = S (count_evaluated h).
Proof.
  intros Hc Hev. unfold count_evaluated.
  rewrite fmap_alter_all_proj by done.
  rewrite (list_fmap_alter evaluation _ (fun _ => Some ev)) by (by apply Forall_true).
  rewrite <- (count_some_insert (evaluation <$> h) c ev)
    by (by rewrite list_lookup_fmap, Hc, <- Hev).
  f_equal. apply list_eq. intros k. destruct (decide (c = k)) as [->|Hne].
  - rewrite list_lookup_alter_eq, list_lookup_insert_eq; [|rewrite length_fmap; by eapply lookup_lt_Some].
    by rewrite list_lookup_fmap, Hc.
  - by rewrite list_lookup_alter_ne, list_lookup_insert_ne.
Qed.

Lemma simulate_children_registers (E : Env) (cs : list nat) (m : MCTS) :
  links_wf (nodes m) -> NoDup cs ->
  (forall c, c ∈ cs -> exists n, nodes m !! c = Some n /\ evaluation n = None) ->
  exists m' found,
    simulate_children E m cs = Ok (m', found) /\
    length (sm m') + count_evaluated (nodes m)
    = length (sm m) + count_evaluated (nodes m').
Proof.
  revert m. induction cs as [|c cs IH]; intros m Hwf Hnd Hcs.
  { by exists m, None. }
  apply NoDup_cons in Hnd as [Hc_notin Hnd].
  destruct (Hcs c) as (nc & Hnc & Hev); [apply elem_of_cons; by left|].
  cbn [simulate_children].
  rewrite (simulate_spec E m c nc Hwf Hnc), bind_Ok. cbn beta iota.
  set (s := simulate_outcome E m nc).
  set (h1 := alter_all (add_reward (simulate_score s)) (path (nodes m) c)
               (alter (set_evaluation (Some (simulate_evaluation s))) c (nodes m))).
  set (m1 := {| nodes := h1; root := root m; depth_limit := depth_limit m;
                sm := sm m ++ [worker E (calls m) (py_str (state nc))];
                calls := calls m + 2 |}).
  assert (Hcount : count_evaluated h1 = S (count_evaluated (nodes m)))
    by (by apply (count_evaluated_simulated _ c nc)).
  assert (Hsm : length (sm m1) = S (length (sm m))).
  { cbn [sm m1]. rewrite length_app. simpl. lia. }
  destruct (to_submit_signal s).
  - exists m1, (Some c). split; [done|]. cbn [nodes m1]. lia.
  - destruct (IH m1) as (m' & found & Hrun & Heq).
    + cbn [nodes m1]. unfold h1. apply links_wf_alter_all; [done|].
      by apply links_wf_alter.
    + done.
    + intros c' Hc'. destruct (Hcs c') as (n' & Hn' & Hev'); [apply elem_of_cons; by right|].
      assert (He : evaluation <$> h1 !! c' = evaluation <$> nodes m !! c').
      { unfold h1. rewrite alter_all_proj by done.
        rewrite list_lookup_alter_ne; [done|]. intros ->. done. }
      cbn [nodes m1]. rewrite Hn' in He. destruct (h1 !! c') as [n1|]; [|done].
      exists n1. split; [done|]. simpl in He. congruence.
    + exists m', found. split; [done|]. cbn [nodes m1] in Heq. lia.
Qed.

Lemma mcts_loop_registers (E : Env) (remaining step : nat) (m : MCTS) (cur : nat) :
  tree_ok (nodes m) -> simulated_except (fun _ => True) [] (nodes m) ->
  cur < length (nodes m) ->
  exists m' res step',
    mcts_loop E remaining step m cur = Ok (m', res, step') /\
    length (sm m') + count_evaluated (nodes m)
    = length (sm m) + count_evaluated (nodes m').
Proof.
  revert step m cur.
  induction remaining as [|remaining IH]; intros step m cur Hok Hsim Hcur.
  { by exists m, None, step. }
  destruct (iteration_spec E (fun _ => True) (fun _ => True)
              (fun _ _ _ => I) (fun _ _ _ => I) m cur Hok Hsim Hcur)
    as (leaf & nl & m1 & n1 & m2 & found & Hd & Hnl & Hleafcs & He & Hn1 & Hs & Hok2
        & _ & Hlt & _ & Hf).
  assert (Hreg : length (sm m2) + count_evaluated (nodes m)
                 = length (sm m) + count_evaluated (nodes m2)).
  { rewrite (expand_spec E m leaf nl Hnl) in He.
    destruct (depth_limit m <=? depth nl).
    - injection He as <-. rewrite Hnl in Hn1. injection Hn1 as <-.
      rewrite Hleafcs in Hs. simpl in Hs. injection Hs as <- _. done.
    - apply bind_Ok_inv in He as (msgs & _ & He). cbn zeta in He. simplify_eq.
      cbn [nodes tick with_nodes] in Hn1.
      set (o0 := strip (mcts_openai_messages E (calls m) msgs 0)) in *.
      set (o1 := strip (mcts_openai_messages E (calls m) msgs 1)) in *.
      set (L := length (nodes m)) in *.
      set (g1 := grow (nodes m) leaf o0 (depth nl + 1)) in *.
      set (g2 := grow g1 leaf o1 (depth nl + 1)) in *.
      set (m1 := tick 1 (with_nodes g2 m)) in *.
      assert (Hg1len : length g1 = S L) by apply grow_length.
      assert (Hleaf : leaf < L) by (by eapply lookup_lt_Some).
      assert (Hl1 : g1 !! leaf = Some (set_children (children nl ++ [L]) nl))
        by (by apply grow_lookup_leaf).
      assert (Hl2 : g2 !! leaf
                    = Some (set_children ((children nl ++ [L]) ++ [S L])
                              (set_children (children nl ++ [L]) nl))).
      { unfold g2. rewrite (grow_lookup_leaf g1 leaf _ o1 _ Hl1). by rewrite Hg1len. }
      rewrite Hl2 in Hn1. simplify_eq. cbn [children set_children] in Hs.
      rewrite Hleafcs in Hs. cbn [app] in Hs.
      destruct (simulate_children_registers E [L; S L] m1) as (m' & found' & Hrun & Heq).
      + cbn [nodes m1 tick with_nodes]. unfold g2, g1.
        apply links_wf_grow; [|rewrite grow_length; lia].
        apply links_wf_grow; [apply (ok_links _ Hok) | done].
      + apply NoDup_cons. split; [|apply NoDup_singleton].
        intros Hin. apply list_elem_of_singleton in Hin. lia.
      + intros c Hc. cbn [nodes m1 tick with_nodes].
        apply elem_of_cons in Hc as [->|Hc].
        * eexists. split.
          -- unfold g2. rewrite grow_lookup_other by lia. apply grow_lookup_new.
          -- reflexivity.
        * apply list_elem_of_singleton in Hc as ->.
          eexists. split.
          -- unfold g2. rewrite <- Hg1len. apply grow_lookup_new.
          -- reflexivity.
      + rewrite Hrun in Hs. simplify_eq.
        cbn [nodes sm m1 tick with_nodes] in Heq. unfold g2, g1 in Heq.
        rewrite !count_evaluated_grow in Heq. lia. }
  cbn [mcts_loop]. rewrite Hd, bind_Ok, He, bind_Ok.
  unfold get. rewrite Hn1. cbn [of_option]. rewrite bind_Ok, Hs, bind_Ok.
  cbn beta iota. destruct found as [c|].
  - by exists m2, (Some c), step.
  - destruct (IH (S step) m2 leaf Hok2 Hf Hlt) as (m' & res & step' & Hrun & Heq).
    exists m', res, step'. split; [done | lia].
Qed.

(** X18. In every run of [mcts_trial] exactly one solution is registered for
    each simulated node, whatever its score: at the return, the registry has
    grown by the number of nodes of the tree that carry an evaluation. *)
Theorem every_simulated_node_is_registered (E : Env) (m : MCTS) (max_steps : nat) :
  exists m' res steps,
    mcts_trial E m max_steps = Ok (m', res, steps) /\
    length (sm m') = length (sm m) + count_evaluated (nodes m').
Proof.
  unfold mcts_trial.
  destruct (mcts_loop_registers E max_steps 0 (zero_shot_initialization E m)
              (root (zero_shot_initialization E m)))
    as (m' & res & steps & Hrun & Heq).
  { apply tree_ok_initial. }
  { apply simulated_except_initial. }
  { simpl. lia. }
  exists m', res, steps. split; [exact Hrun|].
  cbn [sm nodes zero_shot_initialization] in Heq.
  change (count_evaluated [Node_init _ None None 0]) with 0 in Heq. lia.
Qed.

(** ** The order of the context *)

(** X19. In the context of a node below the root, the message just before
    the closing request is the node's own: the summary of its state followed
    by its evaluation.  The messages of its ancestors come before it. *)
Theorem context_ends_with_the_leaf (E : Env) (h : heap) (leaf : nat) (n : Node)
    (p : nat) (st ev : string) (msgs : list message) :
  links_wf h -> h !! leaf = Some n -> parent n = Some p ->
  state n = Some st -> evaluation n = Some ev ->
  build_prompt_with_feedback E h leaf = Ok msgs ->
  exists earlier,
    msgs = mkMessage "user" ("## Problem: " +:+ problem_description E)
             :: earlier
             ++ [mkMessage "assistant" (summarize_evaluation st +:+ ev);
                 closing_message] /\
    (p < length h ->
     build_prompt_with_feedback E h p
     = Ok (mkMessage "user" ("## Problem: " +:+ problem_description E)
             :: earlier ++ [closing_message])).
Proof.
  intros Hwf Hn Hp Hst Hev Hrun.
  pose proof (lookup_lt_Some _ _ _ Hn) as Hleaf.
  rewrite (build_prompt_with_feedback_spec E h leaf Hwf Hleaf) in Hrun.
  rewrite (walked_unfold h leaf n Hwf Hn), Hp in Hrun. cbn [mapM] in Hrun.
  assert (He : history_entry h leaf
               = Some (mkMessage "assistant" (summarize_evaluation st +:+ ev))).
  { unfold history_entry. rewrite Hn. simpl. rewrite Hst. simpl. by rewrite Hev. }
  rewrite He in Hrun. simpl in Hrun.
  destruct (mapM (history_entry h) (walked h p)) as [hist|] eqn:Hhist;
    simpl in Hrun; [|done].
  injection Hrun as <-. exists (rev hist). split.
  - by rewrite <- app_assoc.
  - intros Hplt. by rewrite (build_prompt_with_feedback_spec E h p Hwf Hplt), Hhist.
Qed.

Lemma context_ends_with_the_leaf_witness :
  exists earlier,
    [mkMessage "user" "## Problem: P";
     mkMessage "assistant" ("child candidate" +:+ long_feedback);
     closing_message]
    = mkMessage "user" ("## Problem: " +:+ problem_description failing_env)
        :: earlier
        ++ [mkMessage "assistant"
              (summarize_evaluation "child candidate" +:+ long_feedback);
            closing_message].
Proof.
  destruct (context_ends_with_the_leaf failing_env fed_back_heap 1
              (set_evaluation (Some long_feedback)
                 (Node_init (Some "child candidate") (Some 0) None 1))
              0 "child candidate" long_feedback
              [mkMessage "user" "## Problem: P";
               mkMessage "assistant" ("child candidate" +:+ long_feedback);
               closing_message]
              links_wf_fed_back_heap eq_refl eq_refl eq_refl eq_refl)
    as (earlier & Heq & _).
  - vm_compute. reflexivity.
  - exists earlier. exact Heq.
Defined.
